(** * Seestar INDI driver: state-and-resilience runtime

    A shallow embedding of the monitor ([seestar_monitor.py]), the recovery
    layer ([seestar_recovery.py]) and the request optimizer
    ([seestar_performance.py]), with the properties of their specification.

    Conventions.
    - Python values are the JSON-like values of [Py.value]; a [float] is a
      rational (finite values only), an [int] is a [Z].
    - [time.time()] is an explicit argument [now] of every operation that
      reads the clock.
    - The injected device client is a deterministic responder over its own
      call history ([Device.Api]); every call is recorded.
    - Exceptions are values of [Py.result]; [except Exception] catches all
      of them.
    - An object that is assigned to while others hold it carries its
      identity: the state object of the monitor is a reference into a
      store, a [Command] has an [oid] by which an assignment to it reaches
      the queue and the log.
    - The [PriorityQueue] of the command queue is the list behind it with
      the [heappush] and [heappop] of [heapq], comparisons of entries
      included: a comparison can raise. *)

From Stdlib Require Import ZArith QArith Qminmax Bool List String Ascii Lia.
From Stdlib Require OrderedTypeEx.
From stdpp Require Import base list strings pretty sorting.
Import ListNotations.

Set Warnings "-register-all".
Local Open Scope string_scope.
Local Open Scope list_scope.
Local Open Scope Z_scope.

(** ** Python values *)

Module Py.

Inductive value : Type :=
| VNone
| VBool (b : bool)
| VInt (n : Z)
| VFloat (x : Q)
| VStr (s : string)
| VDict (items : list (string * value)).

Inductive exn : Type :=
| KeyError (key : string)
| TypeError
| RuntimeError (msg : string).

Inductive result (A : Type) : Type :=
| Return (a : A)
| Raise (e : exn).
Arguments Return {A} a.
Arguments Raise {A} e.

Definition bind {A B} (r : result A) (k : A -> result B) : result B :=
  match r with
  | Return a => k a
  | Raise e => Raise e
  end.

Notation "'do' x <- r ; k" := (bind r (fun x => k))
  (at level 10, x name, r at level 100, k at level 200).

(** Insertion-ordered dictionaries with string keys. *)
Fixpoint dict_get {A} (k : string) (d : list (string * A)) : option A :=
  match d with
  | [] => None
  | (k', v) :: d' => if String.eqb k k' then Some v else dict_get k d'
  end.

Fixpoint dict_set {A} (k : string) (v : A) (d : list (string * A))
  : list (string * A) :=
  match d with
  | [] => [(k, v)]
  | (k', v') :: d' =>
      if String.eqb k k' then (k, v) :: d' else (k', v') :: dict_set k v d'
  end.

(** [bool(v)] *)
Definition truthy (v : value) : bool :=
  match v with
  | VNone => false
  | VBool b => b
  | VInt n => negb (Z.eqb n 0)
  | VFloat x => negb (Qeq_bool x 0)
  | VStr s => negb (String.eqb s EmptyString)
  | VDict items => match items with [] => false | _ => true end
  end.

(** Numbers compare across [bool], [int] and [float]. *)
Definition num_of (v : value) : option Q :=
  match v with
  | VBool b => Some (if b then 1%Q else 0%Q)
  | VInt n => Some (inject_Z n)
  | VFloat x => Some x
  | _ => None
  end.

(** [a == b] *)
Fixpoint py_eq (a b : value) : bool :=
  match a, b with
  | VNone, VNone => true
  | VStr s, VStr t => String.eqb s t
  | VDict d, VDict e =>
      (Nat.eqb (length d) (length e))
      && (fix all (l : list (string * value)) : bool :=
            match l with
            | [] => true
            | (k, v) :: l' =>
                match dict_get k e with
                | Some w => py_eq v w
                | None => false
                end && all l'
            end) d
  | _, _ =>
      match num_of a, num_of b with
      | Some x, Some y => Qeq_bool x y
      | _, _ => false
      end
  end.

(** [a != b] *)
Definition py_ne (a b : value) : bool := negb (py_eq a b).

(** [v[k]] *)
Definition subscript (v : value) (k : string) : result value :=
  match v with
  | VDict items =>
      match dict_get k items with
      | Some w => Return w
      | None => Raise (KeyError k)
      end
  | _ => Raise TypeError
  end.

(** [v[k] = w] *)
Definition setitem (v : value) (k : string) (w : value) : result value :=
  match v with
  | VDict items => Return (VDict (dict_set k w items))
  | _ => Raise TypeError
  end.

End Py.
Import Py.

(** ** The injected device client *)

Module Device.

Inductive call : Type :=
| SendCommand (method : string) (params : value)
| GetCoordinates
| GetFilterPosition
| StartExposure (duration gain : value)
| AbortExposure
| StartAutofocus
| MoveFilter (position : value).

(** The client answers a call from the calls it has seen so far. *)
Record Api : Type := mkApi {
  respond : list call -> call -> result value;
  history : list call
}.

Definition invoke (c : call) (api : Api) : result value * Api :=
  (respond api (history api) c,
   {| respond := respond api; history := history api ++ [c] |}).

Definition send_command (method : string) (params : value) (api : Api)
  : result value * Api :=
  invoke (SendCommand method params) api.

End Device.
Import Device.

(** ** Recovery: commands, transaction log, command queue *)

Module Recovery.

(** A completion callback: [cb_id] is the identity of the callable (two
    callables are equal when they are the same object), [cb_run] what it
    does with the result it is given (return or raise). *)
Record Callback : Type := mkCallback {
  cb_id : nat;
  cb_run : value -> result unit
}.

(** A [Command] object. The queue and the log hold references to it, and
    one of its fields, [retries], is assigned to while they hold it: [oid]
    is the identity of the object, by which an assignment reaches every
    place that holds it (see [store_retries]). *)
Record Command : Type := mkCommand {
  oid : nat;
  method : string;
  params : value;
  timestamp : Q;
  retries : Z;
  max_retries : Z;
  timeout : Q;
  callback : option Callback
}.

(** [Command(method, params, timestamp)] with the dataclass defaults; [id]
    is the identity of the new object. *)
Definition new_command (id : nat) (m : string) (p : value) (ts : Q) : Command :=
  {| oid := id; method := m; params := p; timestamp := ts; retries := 0;
     max_retries := 3; timeout := 10; callback := None |}.

Definition set_retries (c : Command) (r : Z) : Command :=
  {| oid := oid c; method := method c; params := params c;
     timestamp := timestamp c; retries := r; max_retries := max_retries c;
     timeout := timeout c; callback := callback c |}.

Record TransactionLog : Type := mkLog {
  commands : list Command;
  results : list value
}.

(** [TransactionLog()] *)
Definition empty_log : TransactionLog := {| commands := []; results := [] |}.

(** [TransactionLog.add] *)
Definition add (command : Command) (r : value) (log : TransactionLog)
  : TransactionLog :=
  {| commands := commands log ++ [command]; results := results log ++ [r] |}.

(** [TransactionLog.clear] *)
Definition clear (log : TransactionLog) : TransactionLog :=
  {| commands := []; results := [] |}.

(** [TransactionLog._get_inverse_command]. The inverse is a new object that
    [rollback] sends and drops, and that nothing else ever holds; it is
    given the identity 0. *)
Definition _get_inverse_command (command : Command) (r : value) (now : Q)
  : result (option Command) :=
  if String.eqb (method command) "goto_target" then
    do ra <- subscript r "previous_ra";
    do dec <- subscript r "previous_dec";
    Return (Some (new_command 0 "goto_target"
                    (VDict [("ra", ra); ("dec", dec)]) now))
  else if String.eqb (method command) "start_exposure" then
    Return (Some (new_command 0 "stop_exposure" (VDict []) now))
  else if String.eqb (method command) "move_filter" then
    do pos <- subscript r "previous_position";
    Return (Some (new_command 0 "move_filter" (VDict [("position", pos)]) now))
  else Return None.

(** One iteration of the loop of [rollback]: the [try] block and its
    handler. The value [send_command] returns is not looked at. *)
Definition rollback_entry (now : Q) (acc : bool * Api)
  (entry : Command * value) : bool * Api :=
  let '(success, api) := acc in
  let '(command, r) := entry in
  match _get_inverse_command command r now with
  | Raise _ => (false, api)
  | Return None => (success, api)
  | Return (Some inverse) =>
      match send_command (method inverse) (params inverse) api with
      | (Raise _, api') => (false, api')
      | (Return _, api') => (success, api')
      end
  end.

(** [TransactionLog.rollback]; the log itself is handed back as the method
    left it. *)
Definition rollback (now : Q) (api : Api) (log : TransactionLog)
  : bool * Api * TransactionLog :=
  (fold_left (rollback_entry now)
     (rev (combine (commands log) (results log))) (true, api),
   log).

(** The calls a rollback makes for the entries it walks, in the order it
    walks them: one call for each entry that has an inverse. *)
Definition inverse_calls (now : Q) (entries : list (Command * value))
  : list call :=
  flat_map (fun entry =>
              match _get_inverse_command (fst entry) (snd entry) now with
              | Return (Some inverse) =>
                  [SendCommand (method inverse) (params inverse)]
              | _ => []
              end) entries.

(** Every command of the log has its result. *)
Definition paired (log : TransactionLog) : Prop :=
  length (commands log) = length (results log).

(** The operations of a log, and the log a sequence of them leaves. *)
Inductive log_op : Type :=
| OpAdd (command : Command) (r : value)
| OpClear
| OpRollback (now : Q) (a : Api).

Definition apply_log_op (log : TransactionLog) (op : log_op) : TransactionLog :=
  match op with
  | OpAdd command r => add command r log
  | OpClear => clear log
  | OpRollback now a => snd (rollback now a log)
  end.

Definition run_log_ops (ops : list log_op) : TransactionLog :=
  fold_left apply_log_op ops empty_log.

(** *** The priority queue

    [queue.PriorityQueue] keeps its entries, the tuples
    [(priority, command)], in a list that [heapq] orders as a binary heap.
    The order of two entries is the order of tuples: by priority, and for
    equal priorities by command; [Command] is a dataclass with [__eq__]
    and without [__lt__]. *)

(** [f == g] on the callbacks of two commands ([None] or a callable). *)
Definition callback_eqb (f g : option Callback) : bool :=
  match f, g with
  | None, None => true
  | Some f, Some g => Nat.eqb (cb_id f) (cb_id g)
  | _, _ => false
  end.

(** [c1 == c2] as the comparison of tuples asks it: the same object, or
    ([__eq__] of the dataclass) equal field by field. *)
Definition command_eqb (c1 c2 : Command) : bool :=
  Nat.eqb (oid c1) (oid c2)
  || (String.eqb (method c1) (method c2)
      && py_eq (params c1) (params c2)
      && Qeq_bool (timestamp c1) (timestamp c2)
      && Z.eqb (retries c1) (retries c2)
      && Z.eqb (max_retries c1) (max_retries c2)
      && Qeq_bool (timeout c1) (timeout c2)
      && callback_eqb (callback c1) (callback c2)).

(** [a < b] on entries: decided by the priorities when they differ; for
    equal priorities and equal commands the tuples are equal; for equal
    priorities and different commands the commands are compared with [<],
    which raises [TypeError]. *)
Definition entry_lt (a b : Z * Command) : result bool :=
  if Z.eqb (fst a) (fst b) then
    if command_eqb (snd a) (snd b) then Return false else Raise TypeError
  else Return (fst a <? fst b).

(** [heapq]'s [siftdown(heap, 0, pos)]: the entry at [pos] is swapped with
    its parent as long as it is smaller. A comparison that raises ends the
    loop and leaves the list as the swaps so far have made it. [fuel]
    bounds the steps of the loop; the position gets smaller with every
    step, and [pos + 1] is enough. *)
Fixpoint siftdown (fuel : nat) (heap : list (Z * Command)) (pos : nat)
  : result unit * list (Z * Command) :=
  match fuel with
  | O => (Return tt, heap)
  | S fuel' =>
      if (0 <? pos)%nat then
        let parentpos := ((pos - 1) / 2)%nat in
        match heap !! pos, heap !! parentpos with
        | Some newitem, Some parent =>
            match entry_lt newitem parent with
            | Raise e => (Raise e, heap)
            | Return false => (Return tt, heap)
            | Return true =>
                siftdown fuel' (<[pos := parent]> (<[parentpos := newitem]> heap))
                  parentpos
            end
        | _, _ => (Return tt, heap)
        end
      else (Return tt, heap)
  end.

(** [heapq.heappush]: append, then sift the new entry towards the root. *)
Definition heappush (heap : list (Z * Command)) (item : Z * Command)
  : result unit * list (Z * Command) :=
  siftdown (S (length heap)) (heap ++ [item]) (length heap).

(** The first loop of [heapq]'s [siftup(heap, 0)]: the entry at [pos] is
    swapped with its smaller child (the right one unless the left one is
    smaller) down to a leaf; the position it ends at. [fuel] bounds the
    steps of the loop; the length of the list is enough. *)
Fixpoint siftup_loop (fuel : nat) (heap : list (Z * Command)) (pos : nat)
  : result nat * list (Z * Command) :=
  match fuel with
  | O => (Return pos, heap)
  | S fuel' =>
      let endpos := length heap in
      if (pos <? endpos / 2)%nat then
        let childpos := (2 * pos + 1)%nat in
        let smaller :=
          if (childpos + 1 <? endpos)%nat then
            match heap !! childpos, heap !! (childpos + 1)%nat with
            | Some a, Some b =>
                match entry_lt a b with
                | Raise e => Raise e
                | Return true => Return childpos
                | Return false => Return (childpos + 1)%nat
                end
            | _, _ => Return childpos
            end
          else Return childpos in
        match smaller with
        | Raise e => (Raise e, heap)
        | Return childpos =>
            match heap !! childpos, heap !! pos with
            | Some tmp1, Some tmp2 =>
                siftup_loop fuel' (<[pos := tmp1]> (<[childpos := tmp2]> heap))
                  childpos
            | _, _ => (Return pos, heap)
            end
        end
      else (Return pos, heap)
  end.

(** [siftup(heap, 0)]: down to a leaf, then back up with [siftdown]. *)
Definition siftup (heap : list (Z * Command))
  : result unit * list (Z * Command) :=
  match siftup_loop (length heap) heap 0 with
  | (Raise e, heap') => (Raise e, heap')
  | (Return pos, heap') => siftdown (S pos) heap' pos
  end.

(** [heapq.heappop] on a list that is not empty ([None] on the empty
    list, which the queue never passes): the last entry is taken off the
    list; if that empties the list it is the result, otherwise it replaces
    the first entry, which is the result once the list is sifted. When a
    comparison raises, the first entry is gone from the list and is not
    handed out. *)
Definition heappop (heap : list (Z * Command))
  : result (option (Z * Command)) * list (Z * Command) :=
  match last heap with
  | None => (Return None, heap)
  | Some lastelt =>
      match removelast heap with
      | [] => (Return (Some lastelt), [])
      | returnitem :: rest =>
          match siftup (lastelt :: rest) with
          | (Return _, heap') => (Return (Some returnitem), heap')
          | (Raise e, heap') => (Raise e, heap')
          end
      end
  end.

(** The command queue. [queue] is the list of the [PriorityQueue]. *)
Record CommandQueue : Type := mkQueue {
  api : Api;
  queue : list (Z * Command);
  processing : bool;
  current_transaction : TransactionLog
}.

(** [CommandQueue(api)] *)
Definition new_queue (a : Api) : CommandQueue :=
  {| api := a; queue := []; processing := false;
     current_transaction := empty_log |}.

Definition with_api (a : Api) (q : CommandQueue) : CommandQueue :=
  {| api := a; queue := queue q; processing := processing q;
     current_transaction := current_transaction q |}.

Definition with_log (log : TransactionLog) (q : CommandQueue) : CommandQueue :=
  {| api := api q; queue := queue q; processing := processing q;
     current_transaction := log |}.

Definition with_queue (heap : list (Z * Command)) (q : CommandQueue)
  : CommandQueue :=
  {| api := api q; queue := heap; processing := processing q;
     current_transaction := current_transaction q |}.

(** [PriorityQueue.put(entry)]: it returns, or raises what a comparison
    raised; the list is left as [heappush] left it. *)
Definition put (entry : Z * Command) (q : CommandQueue)
  : result unit * CommandQueue :=
  let '(r, heap) := heappush (queue q) entry in
  (r, with_queue heap q).

(** [PriorityQueue.get(timeout=1.0)]: [None] is [queue.Empty], raised
    when the queue is still empty after the wait. *)
Definition get (q : CommandQueue)
  : result (option (Z * Command)) * CommandQueue :=
  match queue q with
  | [] => (Return None, q)
  | _ :: _ =>
      let '(r, heap) := heappop (queue q) in
      (r, with_queue heap q)
  end.

(** An assignment [command.retries = r] to the object [id], as the holders
    of the object see it: the entries of the queue and the commands of
    the log. *)
Definition stored (id : nat) (r : Z) (c : Command) : Command :=
  if Nat.eqb (oid c) id then set_retries c r else c.

Definition store_log (id : nat) (r : Z) (log : TransactionLog)
  : TransactionLog :=
  {| commands := map (stored id r) (commands log); results := results log |}.

Definition store_retries (id : nat) (r : Z) (q : CommandQueue) : CommandQueue :=
  {| api := api q;
     queue := map (fun entry => (fst entry, stored id r (snd entry))) (queue q);
     processing := processing q;
     current_transaction := store_log id r (current_transaction q) |}.

(** [CommandQueue.add_command] *)
Definition add_command (command : Command) (priority : Z) (q : CommandQueue)
  : result unit * CommandQueue :=
  put (priority, command) q.

(** [CommandQueue._handle_failure]: it returns, or raises what [put]
    raised. [command] is the object as the caller sees it; with retries
    left, [command.retries += 1] is an assignment to the object. *)
Definition _handle_failure (command : Command) (priority : Z) (now : Q)
  (q : CommandQueue) : result unit * CommandQueue :=
  if retries command <? max_retries command then
    let command' := set_retries command (retries command + 1) in
    let q1 := store_retries (oid command) (retries command + 1) q in
    let new_priority := Z.max 0 (priority - 1) in
    put (new_priority, command') q1
  else
    match commands (current_transaction q) with
    | [] => (Return tt, q)
    | _ :: _ =>
        let '(_, api', log') := rollback now (api q) (current_transaction q) in
        (Return tt, with_log (clear log') (with_api api' q))
    end.

(** The command object as a call of [_handle_failure] leaves it. *)
Definition after_failure (command : Command) : Command :=
  if retries command <? max_retries command
  then set_retries command (retries command + 1)
  else command.

(** [CommandQueue._get_relevant_state] *)
Definition _get_relevant_state (command : Command) (a : Api)
  : result value * Api :=
  if String.eqb (method command) "goto_target" then
    let '(r1, a1) := invoke GetCoordinates a in
    match (do c <- r1; subscript c "ra") with
    | Raise e => (Raise e, a1)
    | Return ra =>
        let '(r2, a2) := invoke GetCoordinates a1 in
        match (do c <- r2; subscript c "dec") with
        | Raise e => (Raise e, a2)
        | Return dec =>
            (Return (VDict [("previous_ra", ra); ("previous_dec", dec)]), a2)
        end
    end
  else if String.eqb (method command) "move_filter" then
    let '(r, a1) := invoke GetFilterPosition a in
    (do pos <- r; Return (VDict [("previous_position", pos)]), a1)
  else (Return (VDict []), a).

(** [a > b] on clock readings *)
Definition Qgt_bool (a b : Q) : bool := negb (Qle_bool a b).
(** [a < b] *)
Definition Qlt_bool (a b : Q) : bool := negb (Qle_bool b a).

(** The body of the loop of [CommandQueue._process_commands] for an entry
    [(priority, command)] the queue has handed out at time [now]: it
    returns, and the loop goes on, or it raises, and the thread of the
    loop ends. The call of [_handle_failure] for a falsy result is inside
    the [try] block: when it raises, the handler calls [_handle_failure]
    once more; what the call in the handler raises leaves the loop. *)
Definition _process_item (now : Q) (priority : Z) (command : Command)
  (q : CommandQueue) : result unit * CommandQueue :=
  if Qgt_bool (now - timestamp command) (timeout command) then (Return tt, q)
  else
    let '(prev, a1) := _get_relevant_state command (api q) in
    match prev with
    | Raise _ => _handle_failure command priority now (with_api a1 q)
    | Return previous_state =>
        let '(r, a2) := send_command (method command) (params command) a1 in
        let q2 := with_api a2 q in
        match r with
        | Raise _ => _handle_failure command priority now q2
        | Return res =>
            if truthy res then
              match setitem res "previous_state" previous_state with
              | Raise _ => _handle_failure command priority now q2
              | Return res' =>
                  let q3 := with_log (add command res' (current_transaction q2)) q2 in
                  match callback command with
                  | None => (Return tt, q3)
                  | Some cb =>
                      match cb_run cb res' with
                      | Return _ => (Return tt, q3)
                      | Raise _ => _handle_failure command priority now q3
                      end
                  end
              end
            else
              match _handle_failure command priority now q2 with
              | (Return _, q3) => (Return tt, q3)
              | (Raise _, q3) =>
                  _handle_failure (after_failure command) priority now q3
              end
        end
    end.

(** One turn of the loop of [CommandQueue._process_commands]: an entry is
    taken from the queue and processed; on [queue.Empty] the loop goes
    on; what [get] raises leaves the loop. *)
Definition _process_commands_turn (now : Q) (q : CommandQueue)
  : result unit * CommandQueue :=
  match get q with
  | (Return None, q') => (Return tt, q')
  | (Return (Some (priority, command)), q') =>
      _process_item now priority command q'
  | (Raise e, q') => (Raise e, q')
  end.

(** What happens to a queue: commands come in, the loop takes its turns,
    entries are processed. *)
Inductive queue_op : Type :=
| QAdd (command : Command) (priority : Z)
| QTurn (now : Q)
| QProcess (now : Q) (priority : Z) (command : Command).

Definition apply_queue_op (q : CommandQueue) (op : queue_op) : CommandQueue :=
  match op with
  | QAdd command priority => snd (add_command command priority q)
  | QTurn now => snd (_process_commands_turn now q)
  | QProcess now priority command => snd (_process_item now priority command q)
  end.

Definition run_queue_ops (ops : list queue_op) (q : CommandQueue)
  : CommandQueue :=
  fold_left apply_queue_op ops q.

(** *** Connection manager *)

Record ConnectionManager : Type := mkCM {
  cm_api : Api;
  connected : bool;
  last_connection_attempt : Q;
  connection_attempts : nat
}.

Definition max_attempts : nat := 5.
Definition backoff_factor : Q := 3 # 2.
Definition min_backoff : Q := 1.
Definition max_backoff : Q := 30.


Definition set_attempts (n : nat) (cm : ConnectionManager) : ConnectionManager :=
  {| cm_api := cm_api cm; connected := connected cm;
     last_connection_attempt := last_connection_attempt cm;
     connection_attempts := n |}.

(** The throttle test at the head of [_attempt_connection]: [None] is the
    early [return], otherwise the manager goes on, with its counter reset
    when the long wait is over. *)
Definition throttle (now : Q) (cm : ConnectionManager)
  : option ConnectionManager :=
  if Nat.leb max_attempts (connection_attempts cm) then
    if Qgt_bool (now - last_connection_attempt cm) max_backoff
    then Some (set_attempts 0%nat cm)
    else None
  else Some cm.

(** [min(max_backoff, min_backoff * backoff_factor ** attempts)] *)
Definition backoff (cm : ConnectionManager) : Q :=
  Qmin max_backoff
       (min_backoff
        * Qpower backoff_factor (Z.of_nat (connection_attempts cm))).

(** The rest of the first locked block: the backoff test and the
    book-keeping of the attempt. *)
Definition book_attempt (now : Q) (cm : ConnectionManager)
  : option ConnectionManager :=
  if Qlt_bool (now - last_connection_attempt cm) (backoff cm) then None
  else Some {| cm_api := cm_api cm; connected := connected cm;
               last_connection_attempt := now;
               connection_attempts := S (connection_attempts cm) |}.

(** The [try] block: the call to the device and what is done with its
    answer. *)
Definition connect (cm : ConnectionManager) : ConnectionManager :=
  let '(r, a) := send_command "connect" (VDict []) (cm_api cm) in
  match r with
  | Return v =>
      if truthy v then
        {| cm_api := a; connected := true;
           last_connection_attempt := last_connection_attempt cm;
           connection_attempts := 0%nat |}
      else
        {| cm_api := a; connected := connected cm;
           last_connection_attempt := last_connection_attempt cm;
           connection_attempts := connection_attempts cm |}
  | Raise _ =>
      {| cm_api := a; connected := connected cm;
         last_connection_attempt := last_connection_attempt cm;
         connection_attempts := connection_attempts cm |}
  end.

(** [ConnectionManager._attempt_connection] *)
Definition _attempt_connection (now : Q) (cm : ConnectionManager)
  : ConnectionManager :=
  match throttle now cm with
  | None => cm
  | Some cm1 =>
      match book_attempt now cm1 with
      | None => cm1
      | Some cm2 => connect cm2
      end
  end.

(** One turn of the loop of [ConnectionManager._manage_connection]. *)
Definition _manage_connection_turn (now : Q) (cm : ConnectionManager)
  : ConnectionManager :=
  if negb (connected cm) then _attempt_connection now cm
  else
    let '(r, a) := send_command "test_connection" (VDict []) (cm_api cm) in
    {| cm_api := a;
       connected := match r with Raise _ => false | Return _ => connected cm end;
       last_connection_attempt := last_connection_attempt cm;
       connection_attempts := connection_attempts cm |}.

(** Does a turn at time [now] call the device to connect? *)
Definition attempted (now : Q) (cm : ConnectionManager) : bool :=
  negb (connected cm)
  && match throttle now cm with
     | Some cm1 =>
         match book_attempt now cm1 with Some _ => true | None => false end
     | None => false
     end.

(** Does the device give a truthy answer to [connect]? *)
Definition answer_truthy (cm : ConnectionManager) : bool :=
  match fst (send_command "connect" (VDict []) (cm_api cm)) with
  | Return v => truthy v
  | Raise _ => false
  end.

Definition succeeded (now : Q) (cm : ConnectionManager) : bool :=
  attempted now cm && answer_truthy cm.

(** A run of the loop over the clock readings of its turns, with the
    attempts it made: newest first, each with its time and its success. *)
Fixpoint run_turns (clock : list Q) (cm : ConnectionManager)
  (made : list (Q * bool)) : ConnectionManager * list (Q * bool) :=
  match clock with
  | [] => (cm, made)
  | now :: later =>
      run_turns later (_manage_connection_turn now cm)
        (if attempted now cm then (now, succeeded now cm) :: made else made)
  end.



(** *** Watchdog *)

Record Watchdog : Type := mkWatchdog {
  wd_api : Api;
  running : bool;
  last_state_change : Q
}.

Definition state_timeout : Q := 60.

(** [Watchdog._attempt_recovery]; [now] is the clock after the pause
    between [disconnect] and [connect]. A call that raises ends the [try]
    block: the handler only writes to the journal. *)
Definition _attempt_recovery (now : Q) (wd : Watchdog) : Watchdog :=
  let failed (a : Api) :=
    {| wd_api := a; running := running wd;
       last_state_change := last_state_change wd |} in
  match send_command "stop_slew" (VDict []) (wd_api wd) with
  | (Raise _, a1) => failed a1
  | (Return _, a1) =>
  match send_command "stop_exposure" (VDict []) a1 with
  | (Raise _, a2) => failed a2
  | (Return _, a2) =>
  match send_command "disconnect" (VDict []) a2 with
  | (Raise _, a3) => failed a3
  | (Return _, a3) =>
  match send_command "connect" (VDict []) a3 with
  | (Raise _, a4) => failed a4
  | (Return _, a4) =>
      {| wd_api := a4; running := running wd; last_state_change := now |}
  end end end end.

Definition recovery_commands : list string :=
  ["stop_slew"; "stop_exposure"; "disconnect"; "connect"].

(** Send commands without parameters one after the other until one
    raises: did all of them return, and the client afterwards. *)
Fixpoint send_each (methods : list string) (a : Api) : bool * Api :=
  match methods with
  | [] => (true, a)
  | m :: rest =>
      match send_command m (VDict []) a with
      | (Return _, a') => send_each rest a'
      | (Raise _, a') => (false, a')
      end
  end.

(** The call [api.send_command(m, {})]. *)
Definition bare (m : string) : call := SendCommand m (VDict []).

(** [Watchdog._handle_state_change] *)
Definition _handle_state_change (now : Q) (wd : Watchdog) : Watchdog :=
  {| wd_api := wd_api wd; running := running wd; last_state_change := now |}.

(** Does the loop of [_monitor_system] start a recovery at time [now]? *)
Definition frozen (now : Q) (wd : Watchdog) : bool :=
  Qgt_bool (now - last_state_change wd) state_timeout.

(** One turn of the loop of [Watchdog._monitor_system] as far as the state
    of the watchdog goes: the freeze test at [now], and the recovery, which
    ends at [now'] ([_check_resources] only writes to the journal). *)
Definition _monitor_system_turn (now now' : Q) (wd : Watchdog) : Watchdog :=
  if frozen now wd then _attempt_recovery now' wd else wd.

End Recovery.

(** ** Monitor: device state and change events *)

Module Monitor.

(** The attributes of the [DeviceState] dataclass. Python does not check
    the annotations: every attribute holds a value. *)
Record DeviceState : Type := mkState {
  connected : value;
  error : value;
  last_update : value;
  ra : value;
  dec : value;
  slewing : value;
  tracking : value;
  exposing : value;
  exposure_time : value;
  exposure_start : value;
  gain : value;
  filter_position : value;
  filter_moving : value;
  focus_position : value;
  focus_moving : value;
  focus_temperature : value;
  auto_focusing : value
}.

(** [DeviceState()] *)
Definition default_state : DeviceState :=
  {| connected := VBool false; error := VNone; last_update := VFloat 0;
     ra := VFloat 0; dec := VFloat 0; slewing := VBool false;
     tracking := VBool true;
     exposing := VBool false; exposure_time := VFloat 0;
     exposure_start := VFloat 0; gain := VInt 1;
     filter_position := VInt 0; filter_moving := VBool false;
     focus_position := VInt 0; focus_moving := VBool false;
     focus_temperature := VFloat 20; auto_focusing := VBool false |}.

Inductive field : Type :=
| Fconnected | Ferror | Flast_update
| Fra | Fdec | Fslewing | Ftracking
| Fexposing | Fexposure_time | Fexposure_start | Fgain
| Ffilter_position | Ffilter_moving
| Ffocus_position | Ffocus_moving | Ffocus_temperature | Fauto_focusing.

#[global] Instance field_eq_dec : EqDecision field.
Proof. solve_decision. Defined.

Definition fields : list field :=
  [Fconnected; Ferror; Flast_update; Fra; Fdec; Fslewing; Ftracking;
   Fexposing; Fexposure_time; Fexposure_start; Fgain;
   Ffilter_position; Ffilter_moving;
   Ffocus_position; Ffocus_moving; Ffocus_temperature; Fauto_focusing].

Definition field_name (f : field) : string :=
  match f with
  | Fconnected => "connected" | Ferror => "error"
  | Flast_update => "last_update"
  | Fra => "ra" | Fdec => "dec" | Fslewing => "slewing"
  | Ftracking => "tracking"
  | Fexposing => "exposing" | Fexposure_time => "exposure_time"
  | Fexposure_start => "exposure_start" | Fgain => "gain"
  | Ffilter_position => "filter_position"
  | Ffilter_moving => "filter_moving"
  | Ffocus_position => "focus_position" | Ffocus_moving => "focus_moving"
  | Ffocus_temperature => "focus_temperature"
  | Fauto_focusing => "auto_focusing"
  end.

(** The field a key names, if any: [hasattr(self.state, key)]. The keys
    the monitor sends are names of data attributes; a key that names
    something else on the object (a method of the dataclass) is never sent
    and counts as absent here. *)
Definition field_of_name (key : string) : option field :=
  find (fun f => String.eqb key (field_name f)) fields.

(** [getattr(state, f)] *)
Definition getattr (s : DeviceState) (f : field) : value :=
  match f with
  | Fconnected => connected s | Ferror => error s
  | Flast_update => last_update s
  | Fra => ra s | Fdec => dec s | Fslewing => slewing s
  | Ftracking => tracking s
  | Fexposing => exposing s | Fexposure_time => exposure_time s
  | Fexposure_start => exposure_start s | Fgain => gain s
  | Ffilter_position => filter_position s
  | Ffilter_moving => filter_moving s
  | Ffocus_position => focus_position s | Ffocus_moving => focus_moving s
  | Ffocus_temperature => focus_temperature s
  | Fauto_focusing => auto_focusing s
  end.

(** [setattr(state, f, v)] *)
Definition setattr (s : DeviceState) (f : field) (v : value) : DeviceState :=
  let pick (g : field) := if decide (f = g) then v else getattr s g in
  {| connected := pick Fconnected; error := pick Ferror;
     last_update := pick Flast_update;
     ra := pick Fra; dec := pick Fdec; slewing := pick Fslewing;
     tracking := pick Ftracking;
     exposing := pick Fexposing; exposure_time := pick Fexposure_time;
     exposure_start := pick Fexposure_start; gain := pick Fgain;
     filter_position := pick Ffilter_position;
     filter_moving := pick Ffilter_moving;
     focus_position := pick Ffocus_position;
     focus_moving := pick Ffocus_moving;
     focus_temperature := pick Ffocus_temperature;
     auto_focusing := pick Fauto_focusing |}.

Inductive Event : Type :=
| StateChange (property : string) (old_value new_value : value)
| ExposureComplete.

(** The monitor. [objects] is the store of [DeviceState] objects and
    [state] the reference the monitor holds into it: the model keeps the
    identity of the object apart from its contents. *)
Record DeviceMonitor : Type := mkMonitor {
  api : Api;
  objects : list DeviceState;
  state : nat;
  event_queue : list Event;
  running : bool
}.

(** [DeviceMonitor(api)] *)
Definition new_monitor (a : Api) : DeviceMonitor :=
  {| api := a; objects := [default_state]; state := 0%nat;
     event_queue := []; running := false |}.

(** The contents of the object a reference points to. *)
Definition deref (m : DeviceMonitor) (r : nat) : option DeviceState :=
  objects m !! r.

Definition with_api (a : Api) (m : DeviceMonitor) : DeviceMonitor :=
  {| api := a; objects := objects m; state := state m;
     event_queue := event_queue m; running := running m |}.

(** The body of the loop of [_update_state] for one item of [updates]. *)
Definition update_item (acc : DeviceState * list Event)
  (item : string * value) : DeviceState * list Event :=
  let '(s, events) := acc in
  let '(key, v) := item in
  match field_of_name key with
  | Some f =>
      let old_value := getattr s f in
      if py_ne old_value v
      then (setattr s f v, events ++ [StateChange key old_value v])
      else acc
  | None => acc
  end.

(** [DeviceMonitor._update_state]: the object behind [state] is changed in
    place, the events go to the end of the queue. *)
Definition _update_state (updates : list (string * value))
  (m : DeviceMonitor) : DeviceMonitor :=
  match objects m !! state m with
  | Some s =>
      let '(s', events) := fold_left update_item updates (s, []) in
      {| api := api m; objects := <[state m := s']> (objects m);
         state := state m; event_queue := event_queue m ++ events;
         running := running m |}
  | None => m
  end.

(** The event an item of [updates] stands for when the state is [s]: one
    change event if the item names a field and brings a different value. *)
Definition change_events (s : DeviceState) (item : string * value)
  : list Event :=
  match field_of_name (fst item) with
  | Some f =>
      if py_ne (getattr s f) (snd item)
      then [StateChange (fst item) (getattr s f) (snd item)]
      else []
  | None => []
  end.

(** The value of a field after [updates] were applied to [s]. *)
Definition updated_value (s : DeviceState) (updates : list (string * value))
  (f : field) : value :=
  match dict_get (field_name f) updates with
  | Some v => if py_ne (getattr s f) v then v else getattr s f
  | None => getattr s f
  end.

(** [DeviceMonitor.get_state]: what is returned is the reference. *)
Definition get_state (m : DeviceMonitor) : nat := state m.

(** The four commands share one shape: call the client, update on a truthy
    answer. An exception of the client goes up to the caller. *)
Definition guarded (c : call) (updates : list (string * value))
  (m : DeviceMonitor) : result bool * DeviceMonitor :=
  let '(r, a) := invoke c (api m) in
  let m1 := with_api a m in
  match r with
  | Raise e => (Raise e, m1)
  | Return v =>
      if truthy v then (Return true, _update_state updates m1)
      else (Return false, m1)
  end.

(** [DeviceMonitor.start_exposure] *)
Definition start_exposure (duration gain : value) (now : Q)
  (m : DeviceMonitor) : result bool * DeviceMonitor :=
  guarded (StartExposure duration gain)
    [("exposing", VBool true); ("exposure_time", duration);
     ("exposure_start", VFloat now); ("gain", gain)] m.

(** [DeviceMonitor.abort_exposure] *)
Definition abort_exposure (m : DeviceMonitor) : result bool * DeviceMonitor :=
  guarded AbortExposure [("exposing", VBool false)] m.

(** [DeviceMonitor.start_autofocus] *)
Definition start_autofocus (m : DeviceMonitor) : result bool * DeviceMonitor :=
  guarded StartAutofocus [("auto_focusing", VBool true)] m.

(** [DeviceMonitor.move_filter] *)
Definition move_filter (position : value) (m : DeviceMonitor)
  : result bool * DeviceMonitor :=
  guarded (MoveFilter position)
    [("filter_position", position); ("filter_moving", VBool true)] m.

(** The four commands of the monitor, to speak of them together. *)
Inductive command : Type :=
| DoStartExposure (duration gain : value) (now : Q)
| DoAbortExposure
| DoStartAutofocus
| DoMoveFilter (position : value).

Definition client_call (c : command) : call :=
  match c with
  | DoStartExposure duration gain _ => StartExposure duration gain
  | DoAbortExposure => AbortExposure
  | DoStartAutofocus => StartAutofocus
  | DoMoveFilter position => MoveFilter position
  end.

Definition run_command (c : command) (m : DeviceMonitor)
  : result bool * DeviceMonitor :=
  match c with
  | DoStartExposure duration gain now => start_exposure duration gain now m
  | DoAbortExposure => abort_exposure m
  | DoStartAutofocus => start_autofocus m
  | DoMoveFilter position => move_filter position m
  end.

End Monitor.

(** ** Performance: response cache and the optimized request path *)

Module Performance.

Definition dquote : string := String (ascii_of_nat 34) EmptyString.

Fixpoint insert_sorted (kv : string * string) (l : list (string * string))
  : list (string * string) :=
  match l with
  | [] => [kv]
  | kv' :: l' =>
      if String.leb (fst kv) (fst kv') then kv :: l
      else kv' :: insert_sorted kv l'
  end.

Definition sort_items (l : list (string * string)) : list (string * string) :=
  fold_right insert_sorted [] l.

(** [json.dumps(v, sort_keys=True)]. A float is written as the fraction of
    the rational that stands for it, a string without escapes. *)
Fixpoint json_dumps (v : value) : string :=
  match v with
  | VNone => "null"
  | VBool true => "true"
  | VBool false => "false"
  | VInt n => pretty n
  | VFloat x => (pretty (Qnum x) ++ "/" ++ pretty (Zpos (Qden x)))%string
  | VStr s => (dquote ++ s ++ dquote)%string
  | VDict items =>
      let rendered :=
        (fix go (l : list (string * value)) : list (string * string) :=
           match l with
           | [] => []
           | (k, w) :: l' => (k, json_dumps w) :: go l'
           end) items in
      ("{" ++ String.concat ", "
                (map (fun kv => dquote ++ fst kv ++ dquote ++ ": " ++ snd kv)
                     (sort_items rendered)) ++ "}")%string
  end.

(** [cachetools.TTLCache(maxsize, ttl)]: the entries in the order they
    were stored, each with the time it expires at. *)
Definition TTLCache : Type := list (string * (Q * value)).

Definition maxsize : nat := 1000.
Definition ttl : Q := 60.

(** [key in cache] at time [now] *)
Definition cache_contains (key : string) (now : Q) (c : TTLCache) : bool :=
  match dict_get key c with
  | Some (expires, _) => Recovery.Qlt_bool now expires
  | None => false
  end.

(** [cache[key]] at time [now] *)
Definition cache_getitem (key : string) (now : Q) (c : TTLCache)
  : result value :=
  match dict_get key c with
  | Some (expires, v) =>
      if Recovery.Qlt_bool now expires then Return v else Raise (KeyError key)
  | None => Raise (KeyError key)
  end.

(** [cache[key] = v] at time [now]: expired entries go, then the oldest
    one if the cache is full, and the new entry is the youngest. *)
Definition cache_setitem (key : string) (v : value) (now : Q) (c : TTLCache)
  : TTLCache :=
  let live :=
    filter (fun e => Is_true (Recovery.Qlt_bool now (fst (snd e)))) c in
  let others := filter (fun e => fst e <> key) live in
  let room :=
    if decide (maxsize <= length others)%nat
    then drop (S (length others) - maxsize) others
    else others in
  room ++ [(key, ((now + ttl)%Q, v))].

Record CacheManager : Type := mkCache {
  response_cache : TTLCache;
  hits : Z;
  misses : Z
}.

Definition cacheable_methods : list string :=
  ["get_coordinates"; "get_filter_position"; "get_focus_position";
   "get_temperature"].

(** [CacheManager()] (the cache of static resources, which the request
    path does not touch, is left out). *)
Definition new_cache : CacheManager :=
  {| response_cache := []; hits := 0; misses := 0 |}.

Definition cacheable (method : string) : bool :=
  existsb (String.eqb method) cacheable_methods.

(** [CacheManager._make_cache_key] *)
Definition _make_cache_key (method : string) (params : value) : string :=
  (method ++ ":" ++ json_dumps params)%string.

(** [CacheManager.get_cached_response]; [VNone] is Python's [None]. An
    entry that has just been seen by [in] is there for the lookup. *)
Definition get_cached_response (method : string) (params : value) (now : Q)
  (cm : CacheManager) : value * CacheManager :=
  if negb (cacheable method) then (VNone, cm)
  else
    let cache_key := _make_cache_key method params in
    if cache_contains cache_key now (response_cache cm) then
      (match cache_getitem cache_key now (response_cache cm) with
       | Return v => v
       | Raise _ => VNone
       end,
       {| response_cache := response_cache cm; hits := hits cm + 1;
          misses := misses cm |})
    else
      (VNone,
       {| response_cache := response_cache cm; hits := hits cm;
          misses := misses cm + 1 |}).

(** [CacheManager.cache_response] *)
Definition cache_response (method : string) (params : value)
  (response : value) (now : Q) (cm : CacheManager) : CacheManager :=
  if negb (cacheable method) then cm
  else
    {| response_cache :=
         cache_setitem (_make_cache_key method params) response now
           (response_cache cm);
       hits := hits cm; misses := misses cm |}.

(** [CacheManager.get_stats], the two counters *)
Definition get_stats (cm : CacheManager) : Z * Z := (hits cm, misses cm).

(** A request waiting for its batch (the [timestamp] of the dataclass,
    which nothing reads, is left out). *)
Record BatchRequest : Type := mkRequest {
  br_method : string;
  br_params : value;
  br_callback : option (value -> result unit)
}.

(** The batcher as the request path sees it: the FIFO queue its thread
    reads from. The batcher holds the client and nothing of the cache. *)
Record RequestBatcher : Type := mkBatcher {
  batch_queue : list BatchRequest
}.

(** [RequestBatcher.add_request] *)
Definition add_request (request : BatchRequest) (rb : RequestBatcher)
  : RequestBatcher :=
  {| batch_queue := batch_queue rb ++ [request] |}.

Record PerformanceOptimizer : Type := mkOptimizer {
  api : Api;
  request_batcher : RequestBatcher;
  cache_manager : CacheManager
}.

(** [PerformanceOptimizer(api)] *)
Definition new_optimizer (a : Api) : PerformanceOptimizer :=
  {| api := a; request_batcher := {| batch_queue := [] |};
     cache_manager := new_cache |}.

(** [PerformanceOptimizer.send_request]: the value returned ([VNone] when
    the request went to the batcher) and the optimizer afterwards. *)
Definition send_request (method : string) (params : value)
  (callback : option (value -> result unit)) (now : Q)
  (po : PerformanceOptimizer) : result value * PerformanceOptimizer :=
  let '(cached, cm) :=
    get_cached_response method params now (cache_manager po) in
  match cached with
  | VNone =>
      let request :=
        {| br_method := method; br_params := params;
           br_callback := callback |} in
      (Return VNone,
       {| api := api po;
          request_batcher := add_request request (request_batcher po);
          cache_manager := cm |})
  | _ =>
      let po' := {| api := api po; request_batcher := request_batcher po;
                    cache_manager := cm |} in
      match callback with
      | Some cb =>
          match cb cached with
          | Return _ => (Return cached, po')
          | Raise e => (Raise e, po')
          end
      | None => (Return cached, po')
      end
  end.

(** A sequence of requests without callbacks, each with its time. *)
Definition run_requests (requests : list (string * value * Q))
  (po : PerformanceOptimizer) : PerformanceOptimizer :=
  fold_left (fun po request =>
               snd (send_request (fst (fst request)) (snd (fst request))
                      None (snd request) po))
            requests po.

End Performance.

(** ** Concrete clients and commands for the scenarios *)

Module Scenario.

(** A client that answers [None] to everything. *)
Definition quiet_api : Api :=
  {| respond := fun _ _ => Return VNone; history := [] |}.

(** A client that raises on every call. *)
Definition broken_api : Api :=
  {| respond := fun _ _ => Raise (RuntimeError "unreachable"); history := [] |}.

(** A mount at (5.0, 30.0) that accepts [goto_target] and refuses every
    other command. *)
Definition sky_api : Api :=
  {| respond := fun _ c =>
       match c with
       | GetCoordinates =>
           Return (VDict [("ra", VFloat 5); ("dec", VFloat 30)])
       | SendCommand m _ =>
           if String.eqb m "goto_target"
           then Return (VDict [("status", VStr "success")])
           else Return VNone
       | _ => Return VNone
       end;
     history := [] |}.

(** A mount at (5.0, 30.0) that refuses every command. *)
Definition deaf_api : Api :=
  {| respond := fun _ c =>
       match c with
       | GetCoordinates =>
           Return (VDict [("ra", VFloat 5); ("dec", VFloat 30)])
       | _ => Return VNone
       end;
     history := [] |}.

(** A client whose [stop_slew] raises and that answers [None] to the
    rest. *)
Definition stuck_mount_api : Api :=
  {| respond := fun _ c =>
       match c with
       | SendCommand m _ =>
           if String.eqb m "stop_slew"
           then Raise (RuntimeError "mount does not answer")
           else Return VNone
       | _ => Return VNone
       end;
     history := [] |}.

Definition goto_command : Recovery.Command :=
  Recovery.new_command 1 "goto_target"
    (VDict [("ra", VFloat 10); ("dec", VFloat 45)]) 0.

Definition park_command : Recovery.Command :=
  Recovery.new_command 2 "park" (VDict []) 0.

End Scenario.

(** ** Further notions for the properties of the recovery layer *)

Module Pacing.


(** The methods [_get_inverse_command] knows how to undo. *)
Definition has_inverse (m : string) : bool :=
  String.eqb m "goto_target" || String.eqb m "start_exposure"
  || String.eqb m "move_filter".

(** Is a value a dictionary? *)
Definition is_dict (v : value) : bool :=
  match v with VDict _ => true | _ => false end.

End Pacing.

(** ** Monitor: event callbacks and the event loop *)

Module Events.

(** A registered callable: [hid] is its identity (two callables are the
    same for [list.remove] when they have the same identity), [run] what
    it does with an event: return, or raise. *)
Record Handler : Type := mkHandler {
  hid : nat;
  run : Monitor.Event -> result unit
}.

(** [event_callbacks]: event type to the list of its callbacks. *)
Definition Registry : Type := list (string * list Handler).

(** [event["type"]] *)
Definition event_type (e : Monitor.Event) : string :=
  match e with
  | Monitor.StateChange _ _ _ => "state_change"
  | Monitor.ExposureComplete => "exposure_complete"
  end.

(** The callbacks the loop calls for a type. *)
Definition handlers_of (ty : string) (reg : Registry) : list Handler :=
  match dict_get ty reg with
  | Some hs => hs
  | None => []
  end.

(** [DeviceMonitor.add_event_callback] *)
Definition add_event_callback (ty : string) (h : Handler) (reg : Registry)
  : Registry :=
  match dict_get ty reg with
  | None => dict_set ty [h] reg
  | Some hs => dict_set ty (hs ++ [h]) reg
  end.

(** [list.remove(h)]: the list without the first entry that is [h];
    [None] when there is none ([ValueError]). *)
Fixpoint list_remove (h : Handler) (hs : list Handler) : option (list Handler) :=
  match hs with
  | [] => None
  | h' :: rest =>
      if Nat.eqb (hid h) (hid h') then Some rest
      else match list_remove h rest with
           | Some rest' => Some (h' :: rest')
           | None => None
           end
  end.

(** [DeviceMonitor.remove_event_callback]; [None] is the [ValueError] of
    [list.remove]. *)
Definition remove_event_callback (ty : string) (h : Handler) (reg : Registry)
  : option Registry :=
  match dict_get ty reg with
  | None => Some reg
  | Some hs =>
      match list_remove h hs with
      | Some hs' => Some (dict_set ty hs' reg)
      | None => None
      end
  end.

(** What a turn of the event loop did: the calls it made (which callback,
    with which event), in order, and how many of them raised and were
    written to the journal. *)
Record Delivery : Type := mkDelivery {
  calls : list (nat * Monitor.Event);
  journal : nat
}.

(** The [for] loop over the callbacks of an event, each call in its own
    [try] block. *)
Fixpoint call_all (hs : list Handler) (e : Monitor.Event) (d : Delivery)
  : Delivery :=
  match hs with
  | [] => d
  | h :: rest =>
      let d' :=
        match run h e with
        | Return _ =>
            {| calls := calls d ++ [(hid h, e)]; journal := journal d |}
        | Raise _ =>
            {| calls := calls d ++ [(hid h, e)]; journal := S (journal d) |}
        end in
      call_all rest e d'
  end.

(** One turn of [DeviceMonitor._event_loop] with the queue as the monitor
    holds it: an empty queue ends the turn ([queue.Empty] after the
    wait), otherwise the oldest event is taken and its callbacks are
    called. *)
Definition _event_loop_turn (reg : Registry) (m : Monitor.DeviceMonitor)
  (d : Delivery) : Monitor.DeviceMonitor * Delivery :=
  match Monitor.event_queue m with
  | [] => (m, d)
  | e :: rest =>
      ({| Monitor.api := Monitor.api m; Monitor.objects := Monitor.objects m;
          Monitor.state := Monitor.state m; Monitor.event_queue := rest;
          Monitor.running := Monitor.running m |},
       call_all (handlers_of (event_type e) reg) e d)
  end.

(** [n] turns of the loop. *)
Fixpoint turns (n : nat) (reg : Registry) (m : Monitor.DeviceMonitor)
  (d : Delivery) : Monitor.DeviceMonitor * Delivery :=
  match n with
  | O => (m, d)
  | S n' =>
      let '(m', d') := _event_loop_turn reg m d in
      turns n' reg m' d'
  end.

(** How many of the callbacks raise on an event. *)
Definition raising (hs : list Handler) (e : Monitor.Event) : nat :=
  length (List.filter
            (fun h => match run h e with Raise _ => true | Return _ => false end)
            hs).

End Events.

(** ** Monitor: the polling loop *)

Module Poll.

(** What a read of the device gives the loop: a value, or an exception
    with its text ([str(e)]). *)
Inductive read (A : Type) : Type :=
| Got (a : A)
| Failed (message : string).
Arguments Got {A} a.
Arguments Failed {A} message.

(** [type(v).__name__] *)
Definition type_name (v : value) : string :=
  match v with
  | VNone => "NoneType"
  | VBool _ => "bool"
  | VInt _ => "int"
  | VFloat _ => "float"
  | VStr _ => "str"
  | VDict _ => "dict"
  end.

(** [coords.get(key, 0.0)] *)
Definition coords_get (coords : value) (key : string) : read value :=
  match coords with
  | VDict items =>
      Got (match dict_get key items with Some v => v | None => VFloat 0 end)
  | _ =>
      Failed ("'" ++ type_name coords ++ "' object has no attribute 'get'")%string
  end.

(** [time.time() - start] *)
Definition elapsed_since (now : Q) (start : value) : read Q :=
  match num_of start with
  | Some x => Got (now - x)%Q
  | None =>
      Failed ("unsupported operand type(s) for -: 'float' and '"
              ++ type_name start ++ "'")%string
  end.

(** [elapsed >= duration] *)
Definition at_least (elapsed : Q) (duration : value) : read bool :=
  match num_of duration with
  | Some d => Got (Qle_bool d elapsed)
  | None =>
      Failed ("'>=' not supported between instances of 'float' and '"
              ++ type_name duration ++ "'")%string
  end.

(** The state the monitor holds. *)
Definition current (m : Monitor.DeviceMonitor) : Monitor.DeviceState :=
  match Monitor.deref m (Monitor.state m) with
  | Some s => s
  | None => Monitor.default_state
  end.

(** [self.event_queue.put(e)] *)
Definition put_event (e : Monitor.Event) (m : Monitor.DeviceMonitor)
  : Monitor.DeviceMonitor :=
  {| Monitor.api := Monitor.api m; Monitor.objects := Monitor.objects m;
     Monitor.state := Monitor.state m;
     Monitor.event_queue := Monitor.event_queue m ++ [e];
     Monitor.running := Monitor.running m |}.

(** The last part of the [try] block: the end of an exposure. *)
Definition check_exposure (now : Q) (m : Monitor.DeviceMonitor)
  : option string * Monitor.DeviceMonitor :=
  if truthy (Monitor.exposing (current m)) then
    match elapsed_since now (Monitor.exposure_start (current m)) with
    | Failed msg => (Some msg, m)
    | Got elapsed =>
        match at_least elapsed (Monitor.exposure_time (current m)) with
        | Failed msg => (Some msg, m)
        | Got true =>
            (None,
             put_event Monitor.ExposureComplete
               (Monitor._update_state [("exposing", VBool false)] m))
        | Got false => (None, m)
        end
    end
  else (None, m).

(** The [try] block of a turn of [DeviceMonitor._monitor_loop], given
    what the three reads of the device give ([get_coordinates],
    [is_slewing], [get_temperature]; a read is only looked at when the
    turn gets to it): the text of the exception that ended the block, if
    one did, and the monitor at that point. *)
Definition try_block (coords slewing temp : read value) (now : Q)
  (m : Monitor.DeviceMonitor) : option string * Monitor.DeviceMonitor :=
  match coords with
  | Failed msg => (Some msg, m)
  | Got c =>
      let after_coords :=
        if truthy c then
          match coords_get c "ra" with
          | Failed msg => (Some msg, m)
          | Got ra =>
              match coords_get c "dec" with
              | Failed msg => (Some msg, m)
              | Got dec =>
                  (None,
                   Monitor._update_state
                     [("ra", ra); ("dec", dec); ("connected", VBool true);
                      ("error", VNone)] m)
              end
          end
        else (None, m) in
      match after_coords with
      | (Some msg, m1) => (Some msg, m1)
      | (None, m1) =>
          match slewing with
          | Failed msg => (Some msg, m1)
          | Got sl =>
              let m2 := Monitor._update_state [("slewing", sl)] m1 in
              match temp with
              | Failed msg => (Some msg, m2)
              | Got t =>
                  let m3 :=
                    match t with
                    | VNone => m2
                    | _ => Monitor._update_state [("focus_temperature", t)] m2
                    end in
                  check_exposure now m3
              end
          end
      end
  end.

(** One turn of [DeviceMonitor._monitor_loop]: the [try] block and its
    handler. *)
Definition _monitor_loop_turn (coords slewing temp : read value) (now : Q)
  (m : Monitor.DeviceMonitor) : Monitor.DeviceMonitor :=
  match try_block coords slewing temp now m with
  | (None, m') => m'
  | (Some msg, m') =>
      Monitor._update_state [("connected", VBool false); ("error", VStr msg)] m'
  end.

(** How many exposures the queue says are complete. *)
Definition completions (events : list Monitor.Event) : nat :=
  length (List.filter
            (fun e => match e with
                      | Monitor.ExposureComplete => true
                      | _ => false
                      end) events).

(** The monitor has a state object behind its reference. *)
Definition sound (m : Monitor.DeviceMonitor) : Prop :=
  exists s, Monitor.deref m (Monitor.state m) = Some s.

(** Between two monitors the three fields of the exposure and the count
    of completions are the same, and a device that was marked connected
    still is. *)
Definition steady (m m' : Monitor.DeviceMonitor) : Prop :=
  completions (Monitor.event_queue m') = completions (Monitor.event_queue m)
  /\ Monitor.exposing (current m') = Monitor.exposing (current m)
  /\ Monitor.exposure_start (current m') = Monitor.exposure_start (current m)
  /\ Monitor.exposure_time (current m') = Monitor.exposure_time (current m)
  /\ (sound m -> sound m')
  /\ (sound m -> truthy (Monitor.connected (current m)) = true ->
      truthy (Monitor.connected (current m')) = true).

(** What a turn of the loop is given: the three reads of the device and
    the clock. *)
Record Turn : Type := mkTurn {
  turn_coords : read value;
  turn_slewing : read value;
  turn_temp : read value;
  turn_clock : Q
}.

Definition run_turn (m : Monitor.DeviceMonitor) (t : Turn)
  : Monitor.DeviceMonitor :=
  _monitor_loop_turn (turn_coords t) (turn_slewing t) (turn_temp t)
    (turn_clock t) m.

(** The loop taking one turn after the other. *)
Definition run_turns (turns : list Turn) (m : Monitor.DeviceMonitor)
  : Monitor.DeviceMonitor :=
  fold_left run_turn turns m.

(** The turns of a run from [m] all come before the end of an exposure
    that was started at [started] for [duration]: each of them is too
    early on its clock, or is ended by an exception. *)
Fixpoint before_end (started duration : Q) (turns : list Turn)
  (m : Monitor.DeviceMonitor) : Prop :=
  match turns with
  | [] => True
  | t :: rest =>
      ((turn_clock t - started < duration)%Q
       \/ fst (try_block (turn_coords t) (turn_slewing t) (turn_temp t)
                 (turn_clock t) m) <> None)
      /\ before_end started duration rest (run_turn m t)
  end.

(** Between two monitors the three fields of the exposure and the count
    of completions are the same. *)
Definition kept (m m' : Monitor.DeviceMonitor) : Prop :=
  completions (Monitor.event_queue m') = completions (Monitor.event_queue m)
  /\ Monitor.exposing (current m') = Monitor.exposing (current m)
  /\ Monitor.exposure_start (current m') = Monitor.exposure_start (current m)
  /\ Monitor.exposure_time (current m') = Monitor.exposure_time (current m)
  /\ (sound m -> sound m').

End Poll.

(** ** Performance: the cache manager as a whole *)

Module CacheOps.

(** [CacheManager.clear] (the response cache and the counters). *)
Definition clear (cm : Performance.CacheManager) : Performance.CacheManager :=
  {| Performance.response_cache := []; Performance.hits := 0;
     Performance.misses := 0 |}.

(** The [hit_rate] of [CacheManager.get_stats]:
    [hits / total if total > 0 else 0]. *)
Definition hit_rate (cm : Performance.CacheManager) : Q :=
  let total := Performance.hits cm + Performance.misses cm in
  if 0 <? total then (inject_Z (Performance.hits cm) / inject_Z total)%Q
  else 0%Q.

(** What is done to a cache manager. *)
Inductive cache_op : Type :=
| Lookup (method : string) (params : value) (now : Q)
| Store (method : string) (params : value) (response : value) (now : Q)
| Clear.

Definition apply_op (cm : Performance.CacheManager) (op : cache_op)
  : Performance.CacheManager :=
  match op with
  | Lookup method params now =>
      snd (Performance.get_cached_response method params now cm)
  | Store method params response now =>
      Performance.cache_response method params response now cm
  | Clear => clear cm
  end.

Definition run (ops : list cache_op) (cm : Performance.CacheManager)
  : Performance.CacheManager :=
  fold_left apply_op ops cm.

(** The lookups that count: those of cacheable methods since the last
    [clear]. *)
Definition counted (n : Z) (op : cache_op) : Z :=
  match op with
  | Lookup method _ _ => if Performance.cacheable method then n + 1 else n
  | Store _ _ _ _ => n
  | Clear => 0
  end.

(** The counters are not negative and add up to [n]. *)
Definition tallied (n : Z) (cm : Performance.CacheManager) : Prop :=
  0 <= Performance.hits cm /\ 0 <= Performance.misses cm
  /\ Performance.hits cm + Performance.misses cm = n.

(** The entries of a JSON object as [json.dumps] writes them. *)
Definition rendered (items : list (string * value)) : list (string * string) :=
  map (fun kv => (fst kv, Performance.json_dumps (snd kv))) items.

(** The order of the keys of rendered entries. *)
Definition key_le (x y : string * string) : Prop :=
  String.leb (fst x) (fst y) = true.

End CacheOps.

(** ** Performance: the response compressor *)

Module Compressor.

Definition bytes : Type := list Byte.byte.

(** [ResponseCompressor.compress]; [gzip] is [gzip.compress], which
    returns the compressed bytes or raises. *)
Definition compress (gzip : bytes -> result bytes) (compression_threshold : nat)
  (data : bytes) : bytes * bool :=
  if Nat.ltb (length data) compression_threshold then (data, false)
  else
    match gzip data with
    | Return compressed =>
        if Nat.ltb (length compressed) (length data) then (compressed, true)
        else (data, false)
    | Raise _ => (data, false)
    end.

(** [ResponseCompressor.decompress]; [gunzip] is [gzip.decompress]. *)
Definition decompress (gunzip : bytes -> result bytes) (data : bytes)
  (is_compressed : bool) : bytes :=
  if negb is_compressed then data
  else
    match gunzip data with
    | Return plain => plain
    | Raise _ => data
    end.

End Compressor.

(** ** The HTTP client ([seestar_api.py]) *)

Module Client.

(** What the HTTP exchange of [send_command] comes to: the JSON body of
    a good response, or one of the failures the method catches (timeout,
    request exception, bad status, body that is no JSON). *)
Inductive http : Type :=
| HttpJson (body : value)
| HttpFailed.

(** The device at the other end: what it does with an action and its
    parameters. *)
Definition Server : Type := string -> value -> http.

Record SeestarAPI : Type := mkClient {
  _cache : list (string * value);
  _last_cache_time : list (string * Q)
}.

(** [SeestarAPI()], as far as the cache goes. *)
Definition new_client : SeestarAPI :=
  {| _cache := []; _last_cache_time := [] |}.

Definition _cache_timeout : Q := 1 # 2.

(** The [cache_key] of [send_command]. *)
Definition cache_key (action : string) (parameters : value) : string :=
  (action ++ ":" ++ Performance.json_dumps parameters)%string.

(** [SeestarAPI._is_cache_valid] *)
Definition _is_cache_valid (key : string) (now : Q) (api : SeestarAPI) : bool :=
  match dict_get key (_last_cache_time api) with
  | None => false
  | Some t => Recovery.Qlt_bool (now - t) _cache_timeout
  end.

(** [SeestarAPI._update_cache] *)
Definition _update_cache (key : string) (v : value) (now : Q)
  (api : SeestarAPI) : SeestarAPI :=
  {| _cache := dict_set key v (_cache api);
     _last_cache_time := dict_set key now (_last_cache_time api) |}.

(** [SeestarAPI.send_command]; [now] is the clock when the cache is
    looked at, [later] the clock when the response is stored. *)
Definition send_command (action : string) (parameters : value)
  (use_cache : bool) (now later : Q) (server : Server) (api : SeestarAPI)
  : result value * SeestarAPI :=
  let key := cache_key action parameters in
  if use_cache && _is_cache_valid key now api then
    (subscript (VDict (_cache api)) key, api)
  else
    match server action parameters with
    | HttpJson body =>
        (Return body,
         if use_cache then _update_cache key body later api else api)
    | HttpFailed => (Return VNone, api)
    end.

(** [key in v] *)
Definition contains (v : value) (key : string) : result bool :=
  match v with
  | VDict items =>
      Return (match dict_get key items with Some _ => true | None => false end)
  | VStr s =>
      Return (match String.index 0 key s with Some _ => true | None => false end)
  | _ => Raise TypeError
  end.

(** The shape shared by the reads: [if response and 'Value' in response]
    then what [extract] makes of the response, else [otherwise]. *)
Definition read_value (extract : value -> result value) (otherwise : value)
  (r : result value * SeestarAPI) : result value * SeestarAPI :=
  match fst r with
  | Raise e => (Raise e, snd r)
  | Return response =>
      if truthy response then
        match contains response "Value" with
        | Raise e => (Raise e, snd r)
        | Return true => (extract response, snd r)
        | Return false => (Return otherwise, snd r)
        end
      else (Return otherwise, snd r)
  end.

(** [SeestarAPI.get_coordinates] *)
Definition get_coordinates (now later : Q) (server : Server) (api : SeestarAPI)
  : result value * SeestarAPI :=
  read_value
    (fun response =>
       do v <- subscript response "Value"; subscript v "result")
    VNone
    (send_command "method_sync"
       (VDict [("method", VStr "scope_get_equ_coord")]) true now later
       server api).

(** [SeestarAPI.is_slewing] *)
Definition is_slewing (now later : Q) (server : Server) (api : SeestarAPI)
  : result value * SeestarAPI :=
  read_value
    (fun response =>
       do v <- subscript response "Value";
       do r <- subscript v "result";
       do view <- subscript r "View";
       do stage <- subscript view "stage";
       Return (VBool (py_eq stage (VStr "AutoGoto"))))
    (VBool false)
    (send_command "method_sync" (VDict [("method", VStr "get_view_state")])
       true now later server api).

(** The shape shared by the commands: [return response is not None]. *)
Definition is_not_none (r : result value * SeestarAPI)
  : result value * SeestarAPI :=
  match fst r with
  | Raise e => (Raise e, snd r)
  | Return VNone => (Return (VBool false), snd r)
  | Return _ => (Return (VBool true), snd r)
  end.

(** [SeestarAPI.abort_exposure] *)
Definition abort_exposure (now later : Q) (server : Server) (api : SeestarAPI)
  : result value * SeestarAPI :=
  is_not_none
    (send_command "method_sync" (VDict [("method", VStr "stop_exposure")])
       false now later server api).

(** [SeestarAPI.start_autofocus] *)
Definition start_autofocus (now later : Q) (server : Server) (api : SeestarAPI)
  : result value * SeestarAPI :=
  is_not_none
    (send_command "method_sync" (VDict [("method", VStr "start_auto_focuse")])
       false now later server api).

(** [SeestarAPI.move_filter] *)
Definition move_filter (position : value) (now later : Q) (server : Server)
  (api : SeestarAPI) : result value * SeestarAPI :=
  is_not_none
    (send_command "method_sync"
       (VDict [("method", VStr "set_setting");
               ("params", VDict [("stack_lenhance", VBool (truthy position))])])
       false now later server api).

(** A call of [send_command], to speak of sequences of them. *)
Record request : Type := mkReq {
  action : string;
  parameters : value;
  use_cache : bool;
  now : Q;
  later : Q;
  server : Server
}.

Definition serve (api : SeestarAPI) (rq : request) : SeestarAPI :=
  snd (send_command (action rq) (parameters rq) (use_cache rq) (now rq)
         (later rq) (server rq) api).

(** Every key that has a time has a response. *)
Definition in_sync (api : SeestarAPI) : Prop :=
  forall key t, dict_get key (_last_cache_time api) = Some t ->
                exists v, dict_get key (_cache api) = Some v.

End Client.

(** ** Health checks ([seestar_monitoring.py]) *)

Module Health.

Record HealthStatus : Type := mkStatus {
  component : string;
  status : string;
  details : value;
  timestamp : Q
}.

(** What the checks read from outside: the answer of the device to
    [test_connection] with the clock before and after the call, the
    figures of [psutil], and the clock at the end of each check. *)
Record Readings : Type := mkReadings {
  answer : Poll.read value;
  started : Q;
  finished : Q;
  cpu_percent : Q;
  memory_percent : Q;
  disk_percent : Q;
  stamp_api : Q;
  stamp_device : Q;
  stamp_performance : Q;
  stamp_system : Q
}.

(** [HealthChecker._check_api_health] *)
Definition _check_api_health (rd : Readings) : HealthStatus :=
  match answer rd with
  | Poll.Got _ =>
      let response_time := (finished rd - started rd)%Q in
      if Recovery.Qgt_bool response_time 1 then
        {| component := "api"; status := "degraded";
           details := VDict [("connected", VBool true);
                             ("response_time", VFloat response_time);
                             ("warning", VStr "High latency")];
           timestamp := stamp_api rd |}
      else
        {| component := "api"; status := "healthy";
           details := VDict [("connected", VBool true);
                             ("response_time", VFloat response_time)];
           timestamp := stamp_api rd |}
  | Poll.Failed msg =>
      {| component := "api"; status := "unhealthy";
         details := VDict [("connected", VBool false); ("error", VStr msg)];
         timestamp := stamp_api rd |}
  end.

(** [HealthChecker._check_device_health], on the state that
    [monitor.get_state()] gives. *)
Definition _check_device_health (rd : Readings) (state : Monitor.DeviceState)
  : HealthStatus :=
  {| component := "device";
     status := if negb (truthy (Monitor.connected state)) then "unhealthy"
               else if truthy (Monitor.error state) then "degraded"
               else "healthy";
     details := VDict [("connected", Monitor.connected state);
                       ("temperature", Monitor.focus_temperature state);
                       ("error", Monitor.error state)];
     timestamp := stamp_device rd |}.

(** The [hit_rate] entry of the statistics as a Python value: the
    integer 0 before the first lookup, a float afterwards. *)
Definition hit_rate_value (cm : Performance.CacheManager) : value :=
  if 0 <? Performance.hits cm + Performance.misses cm
  then VFloat (CacheOps.hit_rate cm)
  else VInt 0.

(** [HealthChecker._check_performance_health] *)
Definition _check_performance_health (rd : Readings)
  (po : Performance.PerformanceOptimizer) : HealthStatus :=
  let cm := Performance.cache_manager po in
  let queue_size :=
    VInt (Z.of_nat (length (Performance.batch_queue
                              (Performance.request_batcher po)))) in
  if Recovery.Qlt_bool (CacheOps.hit_rate cm) (1 # 2) then
    {| component := "performance"; status := "degraded";
       details := VDict [("cache_hit_rate", hit_rate_value cm);
                         ("batch_queue_size", queue_size);
                         ("warning", VStr "Low cache hit rate")];
       timestamp := stamp_performance rd |}
  else
    {| component := "performance"; status := "healthy";
       details := VDict [("cache_hit_rate", hit_rate_value cm);
                         ("batch_queue_size", queue_size)];
       timestamp := stamp_performance rd |}.

(** [HealthChecker._check_system_health] *)
Definition _check_system_health (rd : Readings) : HealthStatus :=
  let usage := [("cpu_usage", VFloat (cpu_percent rd));
                ("memory_usage", VFloat (memory_percent rd));
                ("disk_usage", VFloat (disk_percent rd))] in
  if Recovery.Qgt_bool (cpu_percent rd) 90
     || Recovery.Qgt_bool (memory_percent rd) 90
     || Recovery.Qgt_bool (disk_percent rd) 90
  then
    {| component := "system"; status := "degraded";
       details := VDict (usage ++ [("warning", VStr "High resource usage")]);
       timestamp := stamp_system rd |}
  else
    {| component := "system"; status := "healthy";
       details := VDict usage; timestamp := stamp_system rd |}.

Record HealthChecker : Type := mkChecker {
  health_history : list HealthStatus
}.

Definition max_history : nat := 100.

(** [HealthChecker(...)], as far as the history goes. *)
Definition new_checker : HealthChecker := {| health_history := [] |}.

(** The body of the loop of [check_health]: append, and drop the oldest
    entry when the history is over its bound. *)
Definition record_status (history : list HealthStatus) (st : HealthStatus)
  : list HealthStatus :=
  let history' := history ++ [st] in
  if Nat.ltb max_history (length history') then tail history' else history'.

(** The four checks of [check_health], in the order of the dictionary. *)
Definition checks (rd : Readings) (state : Monitor.DeviceState)
  (po : Performance.PerformanceOptimizer) : list (string * HealthStatus) :=
  [("api", _check_api_health rd);
   ("device", _check_device_health rd state);
   ("performance", _check_performance_health rd po);
   ("system", _check_system_health rd)].

(** [HealthChecker.check_health] *)
Definition check_health (rd : Readings) (state : Monitor.DeviceState)
  (po : Performance.PerformanceOptimizer) (hc : HealthChecker)
  : list (string * HealthStatus) * HealthChecker :=
  let result := checks rd state po in
  (result,
   {| health_history :=
        fold_left record_status (map snd result) (health_history hc) |}).

(** [min] over a sequence of strings that is not empty. *)
Definition py_min (first : string) (others : list string) : string :=
  fold_left (fun least s => if String.ltb s least then s else least)
            others first.

(** The [overall_status] of [MonitoringSystem.get_health_report]:
    [min(s.status for s in health.values())]. *)
Definition overall_status (health : list (string * HealthStatus)) : string :=
  match map (fun entry => status (snd entry)) health with
  | [] => EmptyString
  | first :: others => py_min first others
  end.

(** A round of checks: what is read, the state of the device, the
    optimizer. *)
Definition round : Type :=
  (Readings * Monitor.DeviceState * Performance.PerformanceOptimizer)%type.

Definition run_round (hc : HealthChecker) (r : round) : HealthChecker :=
  snd (check_health (fst (fst r)) (snd (fst r)) (snd r) hc).

(** All the statuses a sequence of rounds produces, oldest first. *)
Definition produced (rounds : list round) : list HealthStatus :=
  flat_map (fun r => map snd (checks (fst (fst r)) (snd (fst r)) (snd r)))
           rounds.

(** The last [n] entries of a list. *)
Definition keep_last {A} (n : nat) (l : list A) : list A :=
  drop (length l - n) l.

End Health.

(** * Properties *)

(** ** Transaction log *)

Section HeapFacts.
Import Recovery.

Lemma swap_one {A} (l : list A) : forall j (y a : A),
  l !! j = Some y -> Permutation (y :: <[j := a]> l) (a :: l).
Proof.
  induction l as [|b l IH]; intros [|j] y a H; try discriminate H.
  - injection H as ->. apply perm_swap.
  - simpl in *. rewrite perm_swap, (IH j y a H). apply perm_swap.
Qed.

Lemma swap_perm {A} (l : list A) : forall i j (x y : A),
  l !! i = Some x -> l !! j = Some y ->
  Permutation (<[i := y]> (<[j := x]> l)) l.
Proof.
  induction l as [|a l IH]; intros [|i] [|j] x y Hi Hj;
    try discriminate Hi; try discriminate Hj; simpl in *.
  - injection Hi as ->. injection Hj as ->. reflexivity.
  - injection Hi as ->. by apply swap_one.
  - injection Hj as ->. by apply swap_one.
  - apply perm_skip. by apply (IH i j x y).
Qed.

Lemma parent_before (pos : nat) : (0 < pos)%nat -> ((pos - 1) / 2 < pos)%nat.
Proof.
  intros H. apply Nat.Div0.div_lt_upper_bound. lia.
Qed.

(** The loops of [heapq] end by themselves: with the fuel they are given
    here, more fuel changes nothing. *)
Lemma siftdown_fuel fuel : forall fuel' heap pos,
  (pos < fuel)%nat -> (pos < fuel')%nat ->
  siftdown fuel heap pos = siftdown fuel' heap pos.
Proof.
  induction fuel as [|fuel IH]; intros [|fuel'] heap pos H H'; try lia.
  cbn [siftdown].
  destruct (Nat.ltb_spec 0 pos) as [Hpos|]; [|reflexivity].
  pose proof (parent_before pos Hpos) as Hlt.
  destruct (heap !! pos) as [newitem|]; [|reflexivity].
  destruct (heap !! ((pos - 1) / 2)%nat) as [parent|]; [|reflexivity].
  destruct (entry_lt newitem parent) as [[|]|e]; try reflexivity.
  apply IH; lia.
Qed.

Lemma siftup_loop_fuel fuel : forall fuel' heap pos,
  (length heap - pos <= fuel)%nat -> (length heap - pos <= fuel')%nat ->
  siftup_loop fuel heap pos = siftup_loop fuel' heap pos.
Proof.
  assert (forall n, (n / 2 <= n)%nat) as Hhalf.
  { intros n. apply Nat.Div0.div_le_upper_bound. lia. }
  assert (forall fuel heap pos, (length heap <= pos)%nat ->
            siftup_loop fuel heap pos = (Return pos, heap)) as Hleaf.
  { intros [|f] heap pos Hlen; [reflexivity|]. cbn [siftup_loop].
    destruct (Nat.ltb_spec pos (length heap / 2)) as [Hlt|]; [|reflexivity].
    specialize (Hhalf (length heap)). lia. }
  induction fuel as [|fuel IH]; intros fuel' heap pos H H'.
  { rewrite (Hleaf fuel') by lia. reflexivity. }
  destruct fuel' as [|fuel'].
  { rewrite (Hleaf (S fuel)) by lia. reflexivity. }
  cbn [siftup_loop].
  destruct (Nat.ltb_spec pos (length heap / 2)) as [Hlt|]; [|reflexivity].
  specialize (Hhalf (length heap)).
  assert (forall child, (pos < child)%nat ->
            match heap !! child, heap !! pos with
            | Some tmp1, Some tmp2 =>
                siftup_loop fuel (<[pos := tmp1]> (<[child := tmp2]> heap)) child
            | _, _ => (Return pos, heap)
            end
            = match heap !! child, heap !! pos with
              | Some tmp1, Some tmp2 =>
                  siftup_loop fuel' (<[pos := tmp1]> (<[child := tmp2]> heap))
                    child
              | _, _ => (Return pos, heap)
              end) as Hstep.
  { intros child Hchild.
    destruct (heap !! child) as [tmp1|]; [|reflexivity].
    destruct (heap !! pos) as [tmp2|]; [|reflexivity].
    apply IH; rewrite !length_insert; lia. }
  destruct (2 * pos + 1 + 1 <? length heap)%nat; [|apply Hstep; lia].
  destruct (heap !! (2 * pos + 1)%nat) as [a|]; [|apply Hstep; lia].
  destruct (heap !! (2 * pos + 1 + 1)%nat) as [b|]; [|apply Hstep; lia].
  destruct (entry_lt a b) as [[|]|e]; [apply Hstep; lia|apply Hstep; lia|].
  reflexivity.
Qed.

(** Sifting moves entries and loses none, whether a comparison raises or
    not. *)
Lemma siftdown_perm fuel : forall heap pos,
  Permutation (snd (siftdown fuel heap pos)) heap.
Proof.
  induction fuel as [|fuel IH]; intros heap pos; cbn [siftdown]; [reflexivity|].
  destruct (0 <? pos)%nat; [|reflexivity].
  destruct (heap !! pos) as [newitem|] eqn:Hn; [|reflexivity].
  destruct (heap !! ((pos - 1) / 2)%nat) as [parent|] eqn:Hp; [|reflexivity].
  destruct (entry_lt newitem parent) as [[|]|e]; try reflexivity.
  rewrite IH. by apply swap_perm.
Qed.

(** An entry whose priority no other entry of the list has is sifted
    without a comparison of commands: the sifting returns. *)
Lemma siftdown_returns fuel : forall heap pos item,
  heap !! pos = Some item ->
  (forall i e, i <> pos -> heap !! i = Some e -> fst e <> fst item) ->
  fst (siftdown fuel heap pos) = Return tt.
Proof.
  induction fuel as [|fuel IH]; intros heap pos item Hitem Hothers;
    cbn [siftdown]; [reflexivity|].
  destruct (Nat.ltb_spec 0 pos) as [Hpos|]; [|reflexivity].
  rewrite Hitem.
  pose proof (parent_before pos Hpos) as Hlt.
  destruct (heap !! ((pos - 1) / 2)%nat) as [parent|] eqn:Hp; [|reflexivity].
  assert (fst parent <> fst item) as Hne.
  { apply (Hothers ((pos - 1) / 2)%nat); [lia|exact Hp]. }
  unfold entry_lt.
  destruct (Z.eqb_spec (fst item) (fst parent)) as [E|_]; [congruence|].
  destruct (fst item <? fst parent); [|reflexivity].
  apply lookup_lt_Some in Hitem as Hlen.
  apply (IH _ _ item).
  - rewrite list_lookup_insert_ne by lia.
    apply list_lookup_insert_eq. apply lookup_lt_Some in Hp. lia.
  - intros i e Hi He.
    destruct (decide (i = pos)) as [->|Hipos].
    + rewrite list_lookup_insert_eq in He
        by (rewrite length_insert; lia).
      by injection He as <-.
    + rewrite list_lookup_insert_ne in He by lia.
      rewrite list_lookup_insert_ne in He by lia.
      apply (Hothers i e); [|exact He].
      intros ->. congruence.
Qed.

Lemma heappush_perm heap item :
  Permutation (snd (heappush heap item)) (item :: heap).
Proof.
  unfold heappush. rewrite siftdown_perm.
  by rewrite Permutation_app_comm.
Qed.

Lemma heappush_returns heap item :
  Forall (fun entry => fst entry <> fst item) heap ->
  fst (heappush heap item) = Return tt.
Proof.
  intros Hall. unfold heappush. apply (siftdown_returns _ _ _ item).
  - by rewrite lookup_app_r, Nat.sub_diag by lia.
  - intros i e Hi He.
    destruct (decide (i < length heap)%nat) as [Hlt|Hge].
    + rewrite lookup_app_l in He by exact Hlt.
      rewrite List.Forall_forall in Hall. apply Hall.
      by apply (list_elem_of_In), (list_elem_of_lookup_2 _ i).
    + apply lookup_lt_Some in He. rewrite length_app in He. simpl in He. lia.
Qed.

Lemma put_effect entry q :
  api (snd (put entry q)) = api q
  /\ current_transaction (snd (put entry q)) = current_transaction q
  /\ Permutation (queue (snd (put entry q))) (entry :: queue q)
  /\ (Forall (fun waiting => fst waiting <> fst entry) (queue q) ->
      fst (put entry q) = Return tt).
Proof.
  unfold put.
  pose proof (heappush_perm (queue q) entry) as Hperm.
  pose proof (heappush_returns (queue q) entry) as Hret.
  destruct (heappush (queue q) entry) as [r heap]. simpl in *.
  by repeat split.
Qed.

(** The assignment reaches the places that hold the object and no other:
    where nothing holds it, nothing changes. *)
Lemma store_retries_elsewhere id r q :
  Forall (fun waiting => oid (snd waiting) <> id) (queue q) ->
  Forall (fun logged => oid logged <> id) (commands (current_transaction q)) ->
  store_retries id r q = q.
Proof.
  intros Hq Hlog. destruct q as [a heap pr [cs rs]]. unfold store_retries,
    store_log; simpl in *. f_equal; [|f_equal].
  - induction Hq as [|[p c] rest Hc _ IH]; [reflexivity|].
    simpl in *. rewrite IH. unfold stored.
    by destruct (Nat.eqb_spec (oid c) id).
  - induction Hlog as [|c rest Hc _ IH]; [reflexivity|].
    simpl. rewrite IH. unfold stored.
    by destruct (Nat.eqb_spec (oid c) id).
Qed.

(** The retry branch of [_handle_failure]: the assignment to the object,
    then the [put]. *)
Lemma handle_failure_retry command priority now q :
  retries command < max_retries command ->
  let r := _handle_failure command priority now q in
  let q1 := store_retries (oid command) (retries command + 1) q in
  api (snd r) = api q
  /\ current_transaction (snd r) = current_transaction q1
  /\ Permutation (queue (snd r))
       ((Z.max 0 (priority - 1), set_retries command (retries command + 1))
        :: queue q1)
  /\ (Forall (fun waiting => fst waiting <> Z.max 0 (priority - 1)) (queue q) ->
      fst r = Return tt).
Proof.
  intros Hret. unfold _handle_failure.
  destruct (Z.ltb_spec (retries command) (max_retries command)); [|lia].
  cbv zeta.
  destruct (put_effect
              (Z.max 0 (priority - 1),
               set_retries command (retries command + 1))
              (store_retries (oid command) (retries command + 1) q))
    as (Hapi & Hlog & Hperm & Hreturns).
  repeat split; try assumption.
  intros Hall. apply Hreturns. simpl.
  apply List.Forall_map. exact Hall.
Qed.

End HeapFacts.

Section TransactionLogFacts.
Import Recovery.

Lemma paired_empty : paired empty_log.
Proof. reflexivity. Qed.

Lemma paired_add command r log : paired log -> paired (add command r log).
Proof.
  unfold paired, add; simpl. intros H.
  rewrite !length_app, H. reflexivity.
Qed.

Lemma paired_clear log : paired (clear log).
Proof. reflexivity. Qed.

Lemma rollback_log now a log : snd (rollback now a log) = log.
Proof. reflexivity. Qed.

Lemma paired_apply_log_op log op : paired log -> paired (apply_log_op log op).
Proof.
  destruct op; simpl; intros H.
  - by apply paired_add.
  - apply paired_clear.
  - exact H.
Qed.

Lemma paired_fold_log_ops ops : forall log,
  paired log -> paired (fold_left apply_log_op ops log).
Proof.
  induction ops as [|op ops IH]; simpl; intros log H; [exact H|].
  apply IH, paired_apply_log_op, H.
Qed.

(** The calls of a rollback: the client has answered the inverse calls of
    the entries, in the order of the walk, whatever it answered. *)
Lemma rollback_entries_history now entries : forall acc,
  history (snd (fold_left (rollback_entry now) entries acc))
  = history (snd acc) ++ inverse_calls now entries.
Proof.
  induction entries as [|[command r] entries IH]; intros [success a]; simpl.
  - by rewrite app_nil_r.
  - rewrite IH. unfold inverse_calls at 2; simpl.
    fold (inverse_calls now entries).
    destruct (_get_inverse_command command r now) as [[inverse|]|e]; simpl.
    + unfold send_command, invoke.
      destruct (respond a (history a) _); simpl; by rewrite <- app_assoc.
    + reflexivity.
    + reflexivity.
Qed.

Lemma rollback_entries_respond now entries : forall acc,
  respond (snd (fold_left (rollback_entry now) entries acc))
  = respond (snd acc).
Proof.
  induction entries as [|[command r] entries IH]; intros [success a]; simpl.
  - reflexivity.
  - rewrite IH.
    destruct (_get_inverse_command command r now) as [[inverse|]|e]; simpl;
      try reflexivity.
    unfold send_command, invoke. by destruct (respond a (history a) _).
Qed.

Lemma paired_store id r log : paired log -> paired (store_log id r log).
Proof. unfold paired, store_log. simpl. by rewrite length_map. Qed.

Lemma handle_failure_paired command priority now q :
  paired (current_transaction q) ->
  paired (current_transaction (snd (_handle_failure command priority now q))).
Proof.
  intros H. unfold _handle_failure.
  destruct (retries command <? max_retries command).
  { destruct (put_effect
                (Z.max 0 (priority - 1),
                 set_retries command (retries command + 1))
                (store_retries (oid command) (retries command + 1) q))
      as (_ & Hlog & _).
    rewrite Hlog. by apply paired_store. }
  destruct (commands (current_transaction q)) eqn:E; [exact H|].
  unfold rollback.
  destruct (fold_left _ _ _) as [ok a']. reflexivity.
Qed.

Lemma process_item_paired now priority command q :
  paired (current_transaction q) ->
  paired (current_transaction (snd (_process_item now priority command q))).
Proof.
  intros H. unfold _process_item.
  destruct (Qgt_bool _ _); [exact H|].
  destruct (_get_relevant_state command (api q)) as [[previous|e] a1].
  2: { by apply handle_failure_paired. }
  destruct (send_command _ _ a1) as [[res|e] a2].
  2: { by apply handle_failure_paired. }
  destruct (truthy res).
  2: { pose proof (handle_failure_paired command priority now (with_api a2 q) H)
         as H3.
       destruct (_handle_failure command priority now (with_api a2 q))
         as [[u|e] q3]; simpl in H3; [exact H3|].
       by apply handle_failure_paired. }
  destruct (setitem res _ previous) as [res'|e].
  2: { by apply handle_failure_paired. }
  assert (paired (add command res' (current_transaction (with_api a2 q))))
    as Hadd by (by apply paired_add).
  destruct (callback command) as [cb|]; [|exact Hadd].
  destruct (cb_run cb res'); [exact Hadd|].
  by apply handle_failure_paired.
Qed.

Lemma get_effect q :
  api (snd (get q)) = api q
  /\ current_transaction (snd (get q)) = current_transaction q.
Proof.
  unfold get. destruct (queue q); [by split|].
  by destruct (heappop _).
Qed.

Lemma process_commands_turn_paired now q :
  paired (current_transaction q) ->
  paired (current_transaction (snd (_process_commands_turn now q))).
Proof.
  intros H. unfold _process_commands_turn.
  destruct (get_effect q) as [_ Hlog].
  destruct (get q) as [[[[priority command]|]|e] q']; simpl in Hlog;
    rewrite <- Hlog in H; try exact H.
  by apply process_item_paired.
Qed.

Lemma paired_fold_queue_ops ops : forall q,
  paired (current_transaction q) ->
  paired (current_transaction (fold_left apply_queue_op ops q)).
Proof.
  induction ops as [|op ops IH]; simpl; intros q H; [exact H|].
  apply IH. destruct op; simpl.
  - unfold add_command.
    destruct (put_effect (priority, command) q) as (_ & Hlog & _).
    by rewrite Hlog.
  - by apply process_commands_turn_paired.
  - by apply process_item_paired.
Qed.

End TransactionLogFacts.

(** C10. The two lists of a transaction log always have the same length:
    [add] puts one entry at the end of each, [clear] empties both,
    [rollback] leaves the log as it found it, and so the lists are of equal
    length in every log that a sequence of these operations builds from the
    empty log, and in the log of a command queue after any sequence of
    submissions and processed entries. *)
Theorem transaction_log_lists_paired :
  (forall command r log,
     Recovery.commands (Recovery.add command r log)
       = Recovery.commands log ++ [command]
     /\ Recovery.results (Recovery.add command r log)
       = Recovery.results log ++ [r])
  /\ (forall log,
        Recovery.commands (Recovery.clear log) = []
        /\ Recovery.results (Recovery.clear log) = [])
  /\ (forall now a log, snd (Recovery.rollback now a log) = log)
  /\ (forall ops,
        length (Recovery.commands (Recovery.run_log_ops ops))
        = length (Recovery.results (Recovery.run_log_ops ops)))
  /\ (forall ops a,
        let log := Recovery.current_transaction
                     (Recovery.run_queue_ops ops (Recovery.new_queue a)) in
        length (Recovery.commands log) = length (Recovery.results log)).
Proof.
  repeat split.
  - intros ops. apply (paired_fold_log_ops ops), paired_empty.
  - intros ops a. apply (paired_fold_queue_ops ops), paired_empty.
Qed.

(** C1. When a command has used up its retries, the failure handler walks
    the entries of the current transaction from the newest to the oldest,
    sends the inverse call of every entry that has one, and leaves both
    lists of the log empty, whatever the client answered to these calls;
    the queue itself is left alone. *)
Theorem exhausted_retries_roll_back_and_clear
  (command : Recovery.Command) (priority : Z) (now : Q)
  (q : Recovery.CommandQueue) :
  Recovery.max_retries command <= Recovery.retries command ->
  length (Recovery.commands (Recovery.current_transaction q))
    = length (Recovery.results (Recovery.current_transaction q)) ->
  let log := Recovery.current_transaction q in
  let r := Recovery._handle_failure command priority now q in
  let q' := snd r in
  fst r = Return tt
  /\ Recovery.commands (Recovery.current_transaction q') = []
  /\ Recovery.results (Recovery.current_transaction q') = []
  /\ history (Recovery.api q')
     = history (Recovery.api q)
       ++ Recovery.inverse_calls now
            (rev (combine (Recovery.commands log) (Recovery.results log)))
  /\ Recovery.queue q' = Recovery.queue q.
Proof.
  intros Hret Hlen log r q'. subst log q' r. unfold Recovery._handle_failure.
  destruct (Z.ltb_spec (Recovery.retries command) (Recovery.max_retries command));
    [lia|].
  destruct q as [a qu pr [cs rs]]; simpl in *.
  destruct cs as [|c cs].
  - destruct rs; [|discriminate]. simpl. by rewrite app_nil_r.
  - unfold Recovery.rollback.
    pose proof (rollback_entries_history now
                  (rev (combine (c :: cs) rs)) (true, a)) as Hh.
    destruct (fold_left _ _ _) as [ok a']. simpl in *.
    repeat split. exact Hh.
Qed.

Lemma exhausted_retries_roll_back_and_clear_witness :
  let q := Recovery.with_log
             (Recovery.add Scenario.goto_command
                (VDict [("previous_ra", VFloat 5); ("previous_dec", VFloat 30)])
                Recovery.empty_log)
             (Recovery.new_queue Scenario.broken_api) in
  let r := Recovery._handle_failure
             (Recovery.set_retries Scenario.park_command 3) 1 0 q in
  let q' := snd r in
  fst r = Return tt
  /\ Recovery.commands (Recovery.current_transaction q') = []
  /\ Recovery.results (Recovery.current_transaction q') = []
  /\ history (Recovery.api q')
     = [SendCommand "goto_target"
          (VDict [("ra", VFloat 5); ("dec", VFloat 30)])]
  /\ Recovery.queue q' = [].
Proof.
  apply (exhausted_retries_roll_back_and_clear
           (Recovery.set_retries Scenario.park_command 3) 1 0
           (Recovery.with_log
              (Recovery.add Scenario.goto_command
                 (VDict [("previous_ra", VFloat 5);
                         ("previous_dec", VFloat 30)])
                 Recovery.empty_log)
              (Recovery.new_queue Scenario.broken_api))).
  - simpl. lia.
  - reflexivity.
Defined.

(** C4 (as the code has it). A command that fails with retries left goes
    back into the queue with one more retry and with priority
    [max(0, priority - 1)]: one step closer to the front when the priority
    it was taken out with is at least 1, and at 0 otherwise. The new
    priority is strictly smaller than the old one exactly when the old one
    is at least 1. The retry is counted on the command object itself, so
    every place that holds the object shows it; beyond that the waiting
    entries, the log and the client are left alone, and the call returns.
    This is stated for a queue in which no waiting entry has the priority
    of the retry: the order of two entries of different priorities is
    decided without a comparison of commands. *)
Theorem retry_requeued_one_step_up_floor_zero
  (command : Recovery.Command) (priority : Z) (now : Q)
  (q : Recovery.CommandQueue) :
  Recovery.retries command < Recovery.max_retries command ->
  let new_priority := if 1 <=? priority then priority - 1 else 0 in
  let count := Recovery.retries command + 1 in
  Forall (fun waiting => fst waiting <> new_priority) (Recovery.queue q) ->
  let r := Recovery._handle_failure command priority now q in
  let q' := snd r in
  let counted := Recovery.store_retries (Recovery.oid command) count q in
  fst r = Return tt
  /\ Permutation (Recovery.queue q')
       ((new_priority, Recovery.set_retries command count)
        :: Recovery.queue counted)
  /\ (new_priority < priority <-> 1 <= priority)
  /\ Recovery.current_transaction q' = Recovery.current_transaction counted
  /\ Recovery.api q' = Recovery.api q.
Proof.
  intros Hret new_priority count Hfree r q' counted.
  assert (new_priority = Z.max 0 (priority - 1)) as Hnew.
  { subst new_priority. destruct (Z.leb_spec 1 priority); lia. }
  destruct (handle_failure_retry command priority now q Hret)
    as (Hapi & Hlog & Hperm & Hreturns).
  rewrite <- Hnew in Hperm, Hreturns.
  split; [by apply Hreturns|]. split; [exact Hperm|].
  split; [|by split].
  subst new_priority. destruct (Z.leb_spec 1 priority); lia.
Qed.

Lemma retry_requeued_one_step_up_floor_zero_witness :
  let q := snd (Recovery.add_command Scenario.park_command 5
                  (Recovery.new_queue Scenario.quiet_api)) in
  let r := Recovery._handle_failure Scenario.goto_command 2 0 q in
  fst r = Return tt
  /\ Permutation (Recovery.queue (snd r))
       [(1, Recovery.set_retries Scenario.goto_command 1);
        (5, Scenario.park_command)]
  /\ (1 < 2 <-> 1 <= 2)
  /\ Recovery.current_transaction (snd r) = Recovery.empty_log
  /\ Recovery.api (snd r) = Scenario.quiet_api.
Proof.
  apply (retry_requeued_one_step_up_floor_zero Scenario.goto_command 2 0
           (snd (Recovery.add_command Scenario.park_command 5
                   (Recovery.new_queue Scenario.quiet_api)))).
  - simpl. lia.
  - repeat constructor. simpl. lia.
Defined.

(** C4, the claim as it stands fails at priority 0: the command that was
    taken out with priority 0 and failed with retries left is put back
    with priority 0, which is not strictly smaller. *)
Lemma retry_at_priority_zero_stays_at_zero :
  let q := Recovery.new_queue Scenario.quiet_api in
  let r := Recovery._handle_failure Scenario.goto_command 0 0 q in
  let q' := snd r in
  Recovery.retries Scenario.goto_command
    < Recovery.max_retries Scenario.goto_command
  /\ fst r = Return tt
  /\ Recovery.queue q' = [(0, Recovery.set_retries Scenario.goto_command 1)]
  /\ ~ (forall new_priority c,
          In (new_priority, c) (Recovery.queue q') -> new_priority < 0).
Proof.
  split; [reflexivity|]. split; [reflexivity|]. split; [reflexivity|].
  intros H. specialize (H 0 _ (or_introl eq_refl)). lia.
Qed.

(** Beside a waiting entry of the retry's priority the queue has two
    commands to compare, and [Command] has no order: the [put] of the
    retry raises. For a refused command the handler of the loop then calls
    [_handle_failure] a second time, the retries go up by two, the command
    is in the list twice, and the second [TypeError] ends the loop. *)
Lemma retry_beside_entry_of_its_priority :
  let q := snd (Recovery.add_command Scenario.park_command 0
                  (Recovery.new_queue Scenario.deaf_api)) in
  let r := Recovery._process_item 1 1 Scenario.goto_command q in
  fst (Recovery._handle_failure Scenario.goto_command 1 1 q) = Raise TypeError
  /\ fst r = Raise TypeError
  /\ Recovery.queue (snd r)
     = [(0, Scenario.park_command);
        (0, Recovery.set_retries Scenario.goto_command 2);
        (0, Recovery.set_retries Scenario.goto_command 2)].
Proof. vm_compute. repeat split. Qed.

(** ** Rollback of a goto *)

(** What the tests of the log expect: a result that carries
    [previous_ra] and [previous_dec] at its top level is undone by a
    [goto_target] to these coordinates. *)
Lemma inverse_of_goto_with_top_level_coordinates :
  Recovery.inverse_calls 0
    [(Scenario.goto_command,
      VDict [("previous_ra", VFloat 5); ("previous_dec", VFloat 30)])]
  = [SendCommand "goto_target" (VDict [("ra", VFloat 5); ("dec", VFloat 30)])].
Proof. reflexivity. Qed.

(** C2 (the code at the failing input). The mount is at (5.0, 30.0); the
    queue runs [goto_target(ra=10.0, dec=45.0)], which succeeds and is
    logged, then a command the device refuses until its retries are used
    up. The queue stores the coordinates under the key [previous_state] of
    the result, the log looks for [previous_ra] at the top level: the
    rollback finds no inverse, the client never sees
    [goto_target(ra=5.0, dec=30.0)], and the log is cleared. *)
Theorem rollback_of_logged_goto_sends_no_inverse :
  let submit command q := snd (Recovery.add_command command 1 q) in
  let turn now q := snd (Recovery._process_commands_turn now q) in
  let q1 := turn 0%Q (submit Scenario.goto_command
                        (Recovery.new_queue Scenario.sky_api)) in
  let q2 := turn 4%Q (turn 3%Q (turn 2%Q (turn 1%Q
              (submit Scenario.park_command q1)))) in
  Recovery.commands (Recovery.current_transaction q1) = [Scenario.goto_command]
  /\ Recovery.results (Recovery.current_transaction q1)
     = [VDict [("status", VStr "success");
               ("previous_state",
                VDict [("previous_ra", VFloat 5);
                       ("previous_dec", VFloat 30)])]]
  /\ Recovery.rollback 4 (Recovery.api q1) (Recovery.current_transaction q1)
     = (false, Recovery.api q1, Recovery.current_transaction q1)
  /\ history (Recovery.api q2)
     = [GetCoordinates; GetCoordinates;
        SendCommand "goto_target"
          (VDict [("ra", VFloat 10); ("dec", VFloat 45)]);
        SendCommand "park" (VDict []); SendCommand "park" (VDict []);
        SendCommand "park" (VDict []); SendCommand "park" (VDict [])]
  /\ ~ In (SendCommand "goto_target"
             (VDict [("ra", VFloat 5); ("dec", VFloat 30)]))
          (history (Recovery.api q2))
  /\ Recovery.current_transaction q2 = Recovery.empty_log
  /\ Recovery.queue q2 = [].
Proof.
  vm_compute. repeat split.
  intros H. repeat (destruct H as [H|H]; [discriminate H|]). exact H.
Qed.

(** The scenario of the specification itself: the device refuses the goto
    every time. The command is sent four times (three retries), nothing is
    ever logged, and the exhausted command finds an empty log: no rollback
    call is made. *)
Lemma refused_goto_has_nothing_to_roll_back :
  let turn now q := snd (Recovery._process_commands_turn now q) in
  let q := turn 4%Q (turn 3%Q (turn 2%Q (turn 1%Q
             (snd (Recovery.add_command Scenario.goto_command 1
                     (Recovery.new_queue Scenario.deaf_api)))))) in
  let sent := SendCommand "goto_target"
                (VDict [("ra", VFloat 10); ("dec", VFloat 45)]) in
  history (Recovery.api q)
  = [GetCoordinates; GetCoordinates; sent; GetCoordinates; GetCoordinates; sent;
     GetCoordinates; GetCoordinates; sent; GetCoordinates; GetCoordinates; sent]
  /\ Recovery.current_transaction q = Recovery.empty_log.
Proof. vm_compute. repeat split. Qed.

(** ** Monitor *)

Section MonitorFacts.
Import Monitor.

Lemma field_of_name_name f : field_of_name (field_name f) = Some f.
Proof. destruct f; reflexivity. Qed.

Lemma field_of_name_Some key f : field_of_name key = Some f -> field_name f = key.
Proof.
  unfold field_of_name. intros H. apply find_some in H as [_ H].
  symmetry. by apply String.eqb_eq.
Qed.

Lemma field_name_inj f g : field_name f = field_name g -> f = g.
Proof.
  intros H. pose proof (field_of_name_name f) as Hf.
  rewrite H, field_of_name_name in Hf. congruence.
Qed.

Lemma getattr_setattr s f v g :
  getattr (setattr s f v) g = if decide (f = g) then v else getattr s g.
Proof. destruct g; reflexivity. Qed.

Lemma dict_get_absent {A} key (d : list (string * A)) :
  ~ In key (map fst d) -> dict_get key d = None.
Proof.
  induction d as [|[k v] d IH]; simpl; intros H; [reflexivity|].
  destruct (String.eqb_spec key k) as [->|Hne].
  - exfalso. apply H. by left.
  - apply IH. intros Hin. apply H. by right.
Qed.

(** One item: the event it gives, and the fields afterwards. *)
Lemma update_item_effect s events key v :
  let r := update_item (s, events) (key, v) in
  snd r = events ++ change_events s (key, v)
  /\ forall g,
       getattr (fst r) g
       = if String.eqb (field_name g) key
         then (if py_ne (getattr s g) v then v else getattr s g)
         else getattr s g.
Proof.
  unfold update_item, change_events; simpl.
  destruct (field_of_name key) as [f|] eqn:Hf.
  - apply field_of_name_Some in Hf. subst key.
    destruct (py_ne (getattr s f) v) eqn:Hne; simpl.
    + split; [reflexivity|]. intros g. rewrite getattr_setattr.
      destruct (decide (f = g)) as [->|Hfg].
      * by rewrite String.eqb_refl, Hne.
      * destruct (String.eqb_spec (field_name g) (field_name f)) as [E|_];
          [|reflexivity].
        apply field_name_inj in E. congruence.
    + split; [by rewrite app_nil_r|]. intros g.
      destruct (String.eqb_spec (field_name g) (field_name f)) as [E|_];
        [|reflexivity].
      apply field_name_inj in E. subst g. by rewrite Hne.
  - split; [by rewrite app_nil_r|]. intros g.
    destruct (String.eqb_spec (field_name g) key) as [E|_]; [|reflexivity].
    subst key. rewrite field_of_name_name in Hf. discriminate.
Qed.

(** Items with other keys give the same events before and after. *)
Lemma change_events_same s s1 key (rest : list (string * value)) :
  (forall g, field_name g <> key -> getattr s1 g = getattr s g) ->
  ~ In key (map fst rest) ->
  flat_map (change_events s1) rest = flat_map (change_events s) rest.
Proof.
  intros Hs. induction rest as [|[k v] rest IH]; simpl; intros Hnotin;
    [reflexivity|].
  rewrite IH by (intros Hin; apply Hnotin; by right). f_equal.
  unfold change_events; simpl.
  destruct (field_of_name k) as [g|] eqn:Hg; [|reflexivity].
  apply field_of_name_Some in Hg.
  rewrite Hs; [reflexivity|].
  intros E. apply Hnotin. left. congruence.
Qed.

Lemma fold_update_item updates : forall s events,
  List.NoDup (map fst updates) ->
  let r := fold_left update_item updates (s, events) in
  (forall f, getattr (fst r) f = updated_value s updates f)
  /\ snd r = events ++ flat_map (change_events s) updates.
Proof.
  induction updates as [|[key v] rest IH]; intros s events Hnd;
    cbn [fold_left].
  - split; [reflexivity|]. simpl. by rewrite app_nil_r.
  - simpl in Hnd. apply List.NoDup_cons_iff in Hnd as [Hnotin Hnd].
    destruct (update_item_effect s events key v) as [Hev Hst].
    destruct (update_item (s, events) (key, v)) as [s1 events1] eqn:E1.
    simpl in Hev, Hst.
    destruct (IH s1 events1 Hnd) as [IHst IHev]. split.
    + intros f. rewrite IHst. unfold updated_value. cbn [dict_get].
      rewrite Hst.
      destruct (String.eqb_spec (field_name f) key) as [Ek|Ek].
      * by rewrite Ek, (dict_get_absent key rest Hnotin).
      * destruct (dict_get (field_name f) rest); reflexivity.
    + rewrite IHev, Hev, <- app_assoc. cbn [flat_map]. f_equal. f_equal.
      apply (change_events_same s s1 key); [|exact Hnotin].
      intros g Hg. rewrite Hst.
      by destruct (String.eqb_spec (field_name g) key).
Qed.

End MonitorFacts.

(** C3. An update of the state with a map of new values (a Python
    dictionary: no key twice) changes exactly the fields whose new value
    differs from the value they hold, and puts exactly one change event
    for each of them at the end of the queue, with the name of the field,
    the value it held and the new value, in the order of the map. A field
    that is given the value it holds keeps it, and gives no event. *)
Theorem update_state_changes_and_events
  (updates : list (string * value)) (m : Monitor.DeviceMonitor)
  (s : Monitor.DeviceState) :
  List.NoDup (map fst updates) ->
  Monitor.deref m (Monitor.state m) = Some s ->
  let m' := Monitor._update_state updates m in
  (exists s',
      Monitor.deref m' (Monitor.state m') = Some s'
      /\ forall f,
           Monitor.getattr s' f
           = match dict_get (Monitor.field_name f) updates with
             | Some v =>
                 if py_ne (Monitor.getattr s f) v then v
                 else Monitor.getattr s f
             | None => Monitor.getattr s f
             end)
  /\ Monitor.event_queue m'
     = Monitor.event_queue m
       ++ flat_map
            (fun item =>
               match Monitor.field_of_name (fst item) with
               | Some f =>
                   if py_ne (Monitor.getattr s f) (snd item)
                   then [Monitor.StateChange (fst item)
                           (Monitor.getattr s f) (snd item)]
                   else []
               | None => []
               end) updates.
Proof.
  intros Hnd Hs m'. subst m'. unfold Monitor._update_state.
  unfold Monitor.deref in Hs. rewrite Hs.
  destruct (fold_update_item updates s [] Hnd) as [Hst Hev].
  destruct (fold_left Monitor.update_item updates (s, [])) as [s' events].
  simpl in *. split.
  - exists s'. split; [|exact Hst].
    unfold Monitor.deref; simpl.
    apply list_lookup_insert_eq. by eapply lookup_lt_Some.
  - by rewrite Hev.
Qed.

Lemma update_state_changes_and_events_witness :
  let m := Monitor.new_monitor Scenario.quiet_api in
  let updates := [("ra", VFloat (31 # 2)); ("gain", VFloat 1);
                  ("colour", VStr "red"); ("connected", VBool true)] in
  let m' := Monitor._update_state updates m in
  (exists s',
      Monitor.deref m' (Monitor.state m') = Some s'
      /\ forall f,
           Monitor.getattr s' f
           = match dict_get (Monitor.field_name f) updates with
             | Some v =>
                 if py_ne (Monitor.getattr Monitor.default_state f) v then v
                 else Monitor.getattr Monitor.default_state f
             | None => Monitor.getattr Monitor.default_state f
             end)
  /\ Monitor.event_queue m'
     = [Monitor.StateChange "ra" (VFloat 0) (VFloat (31 # 2));
        Monitor.StateChange "connected" (VBool false) (VBool true)].
Proof.
  apply (update_state_changes_and_events
           [("ra", VFloat (31 # 2)); ("gain", VFloat 1);
            ("colour", VStr "red"); ("connected", VBool true)]
           (Monitor.new_monitor Scenario.quiet_api) Monitor.default_state).
  - repeat constructor; simpl; intuition discriminate.
  - reflexivity.
Defined.

(** C5 (as the code has it). [get_state] gives back the reference the
    monitor itself holds: after any later update of the state, what the
    caller reads through the reference it was given is the state as the
    update left it, field by field. *)
Theorem get_state_follows_updates
  (updates : list (string * value)) (m : Monitor.DeviceMonitor)
  (s : Monitor.DeviceState) :
  Monitor.deref m (Monitor.get_state m) = Some s ->
  let snapshot := Monitor.get_state m in
  let m' := Monitor._update_state updates m in
  Monitor.get_state m' = snapshot
  /\ Monitor.deref m' snapshot
     = Some (fst (fold_left Monitor.update_item updates (s, []))).
Proof.
  intros Hs snapshot m'. subst snapshot m'.
  unfold Monitor.get_state, Monitor.deref, Monitor._update_state in *.
  rewrite Hs.
  destruct (fold_left Monitor.update_item updates (s, [])) as [s' events].
  simpl. split; [reflexivity|].
  apply list_lookup_insert_eq. by eapply lookup_lt_Some.
Qed.

Lemma get_state_follows_updates_witness :
  let m := Monitor.new_monitor Scenario.quiet_api in
  let snapshot := Monitor.get_state m in
  let m' := Monitor._update_state [("ra", VFloat (31 # 2))] m in
  Monitor.get_state m' = snapshot
  /\ Monitor.deref m' snapshot
     = Some (Monitor.setattr Monitor.default_state Monitor.Fra
               (VFloat (31 # 2))).
Proof.
  apply (get_state_follows_updates [("ra", VFloat (31 # 2))]
           (Monitor.new_monitor Scenario.quiet_api) Monitor.default_state).
  reflexivity.
Defined.

(** C5, the claim as it stands fails: a caller takes the state of a new
    monitor and reads [ra = 0.0] and [dec = 0.0]; after two updates of the
    monitor the same snapshot reads [ra = 15.5] and [dec = -30.0]. *)
Lemma snapshot_changed_by_later_updates :
  let m := Monitor.new_monitor Scenario.quiet_api in
  let snapshot := Monitor.get_state m in
  let m1 := Monitor._update_state [("ra", VFloat (31 # 2))] m in
  let m2 := Monitor._update_state [("dec", VFloat (-30))] m1 in
  (Monitor.ra <$> Monitor.deref m snapshot) = Some (VFloat 0)
  /\ (Monitor.dec <$> Monitor.deref m snapshot) = Some (VFloat 0)
  /\ (Monitor.ra <$> Monitor.deref m2 snapshot) = Some (VFloat (31 # 2))
  /\ (Monitor.dec <$> Monitor.deref m2 snapshot) = Some (VFloat (-30))
  /\ Monitor.deref m2 snapshot <> Monitor.deref m snapshot.
Proof.
  repeat split; try reflexivity. intros H. discriminate H.
Qed.

(** C9. When the client gives a falsy answer to the call behind
    [start_exposure], [abort_exposure], [start_autofocus] or [move_filter],
    the monitor returns [False], no state object is touched (so
    [exposing], [exposure_time], [exposure_start], [gain] and every other
    field keep their values) and no event is queued. *)
Theorem falsy_answer_leaves_state_and_queue
  (c : Monitor.command) (m : Monitor.DeviceMonitor) (answer : value) :
  fst (invoke (Monitor.client_call c) (Monitor.api m)) = Return answer ->
  truthy answer = false ->
  let r := Monitor.run_command c m in
  fst r = Return false
  /\ Monitor.objects (snd r) = Monitor.objects m
  /\ Monitor.state (snd r) = Monitor.state m
  /\ Monitor.deref (snd r) (Monitor.get_state (snd r))
     = Monitor.deref m (Monitor.get_state m)
  /\ Monitor.event_queue (snd r) = Monitor.event_queue m.
Proof.
  intros Hanswer Hfalsy r. subst r.
  destruct c; simpl in *;
    unfold Monitor.start_exposure, Monitor.abort_exposure,
      Monitor.start_autofocus, Monitor.move_filter, Monitor.guarded;
    unfold invoke in *; simpl in *;
    rewrite Hanswer, Hfalsy; simpl; repeat split.
Qed.

Lemma falsy_answer_leaves_state_and_queue_witness :
  let m := Monitor.new_monitor Scenario.quiet_api in
  let r := Monitor.start_exposure (VFloat 2) (VInt 1) 100 m in
  fst r = Return false
  /\ Monitor.objects (snd r) = [Monitor.default_state]
  /\ Monitor.state (snd r) = 0%nat
  /\ Monitor.deref (snd r) (Monitor.get_state (snd r))
     = Some Monitor.default_state
  /\ Monitor.event_queue (snd r) = [].
Proof.
  apply (falsy_answer_leaves_state_and_queue
           (Monitor.DoStartExposure (VFloat 2) (VInt 1) 100)
           (Monitor.new_monitor Scenario.quiet_api) VNone);
    reflexivity.
Defined.

(** ** Connection manager *)

Section ConnectionFacts.
Import Recovery.

Lemma Qgt_bool_true a b : Qgt_bool a b = true -> (b < a)%Q.
Proof.
  unfold Qgt_bool. intros H. apply negb_true_iff in H.
  apply Qnot_le_lt. intros Hle. apply Qle_bool_iff in Hle. congruence.
Qed.










End ConnectionFacts.



(** ** Watchdog *)

Section WatchdogFacts.
Import Recovery.

Lemma attempt_recovery_send_each now wd :
  _attempt_recovery now wd
  = {| wd_api := snd (send_each recovery_commands (wd_api wd));
       running := running wd;
       last_state_change :=
         if fst (send_each recovery_commands (wd_api wd)) then now
         else last_state_change wd |}.
Proof.
  unfold _attempt_recovery, recovery_commands, send_each, send_command, invoke.
  destruct wd as [a run last]; simpl.
  destruct (respond a (history a) _); [|reflexivity].
  destruct (respond a (history a ++ _) _); [|reflexivity].
  destruct (respond a ((history a ++ _) ++ _) _); [|reflexivity].
  destruct (respond a (((history a ++ _) ++ _) ++ _) _); reflexivity.
Qed.

Lemma send_each_history methods : forall a,
  exists k,
    (k <= length methods)%nat
    /\ history (snd (send_each methods a))
       = history a ++ map bare (take k methods)
    /\ (fst (send_each methods a) = true -> k = length methods)
    /\ (fst (send_each methods a) = false -> (0 < k)%nat).
Proof.
  induction methods as [|m rest IH]; intros a; simpl.
  - exists 0%nat. rewrite app_nil_r. repeat split; [lia|discriminate].
  - unfold send_command, invoke.
    destruct (respond a (history a) (SendCommand m (VDict []))) as [v|e].
    + destruct (IH {| respond := respond a;
                      history := history a ++ [SendCommand m (VDict [])] |})
        as (k & Hk & Hh & Ht & Hf).
      exists (S k). simpl in *. rewrite Hh, <- app_assoc.
      repeat split; [lia| |lia]. intros H. by rewrite (Ht H).
    + exists 1%nat. simpl. repeat split; [lia|discriminate|lia].
Qed.

End WatchdogFacts.

(** A client that never raises lets the whole sequence through. *)
Lemma send_each_all_return methods : forall a,
  (forall h c, exists v, respond a h c = Return v) ->
  fst (Recovery.send_each methods a) = true.
Proof.
  induction methods as [|m rest IH]; intros a Hret; simpl; [reflexivity|].
  unfold send_command, invoke.
  destruct (Hret (history a) (SendCommand m (VDict []))) as [v ->].
  apply IH. exact Hret.
Qed.

(** C8 (as the code has it). A recovery sends [stop_slew],
    [stop_exposure], [disconnect] and [connect] in this order until one of
    them raises. When all four return, whatever they return, the time of
    the last state change is set to the clock; when one raises, the
    commands after it are not sent and the time of the last state change is
    left as it was. *)
Theorem recovery_resets_timestamp_unless_a_call_raises
  (now : Q) (wd : Recovery.Watchdog) :
  let r := Recovery.send_each Recovery.recovery_commands (Recovery.wd_api wd) in
  let wd' := Recovery._attempt_recovery now wd in
  Recovery.wd_api wd' = snd r
  /\ Recovery.running wd' = Recovery.running wd
  /\ Recovery.last_state_change wd'
     = (if fst r then now else Recovery.last_state_change wd)
  /\ (if fst r
      then history (Recovery.wd_api wd')
           = history (Recovery.wd_api wd)
             ++ map Recovery.bare Recovery.recovery_commands
      else exists k,
             (0 < k <= 4)%nat
             /\ history (Recovery.wd_api wd')
                = history (Recovery.wd_api wd)
                  ++ map Recovery.bare (take k Recovery.recovery_commands)).
Proof.
  intros r wd'. subst r wd'. rewrite attempt_recovery_send_each.
  cbn [Recovery.wd_api Recovery.running Recovery.last_state_change].
  split; [reflexivity|]. split; [reflexivity|]. split; [reflexivity|].
  destruct (send_each_history Recovery.recovery_commands (Recovery.wd_api wd))
    as (k & Hk & Hh & Ht & Hf).
  destruct (fst (Recovery.send_each _ _)).
  - rewrite Hh, (Ht eq_refl). reflexivity.
  - exists k. simpl in Hk. split; [|exact Hh]. specialize (Hf eq_refl). lia.
Qed.

(** A recovery whose commands are all refused without an exception does
    reset the time. *)
Lemma recovery_with_refused_commands_resets :
  let wd := {| Recovery.wd_api := Scenario.quiet_api;
               Recovery.running := true;
               Recovery.last_state_change := 0 |} in
  let wd' := Recovery._attempt_recovery 105 wd in
  Recovery.last_state_change wd' = 105%Q
  /\ history (Recovery.wd_api wd')
     = map Recovery.bare ["stop_slew"; "stop_exposure"; "disconnect"; "connect"].
Proof. split; reflexivity. Qed.

(** C8, the claim as it stands fails. The watchdog saw the last change at
    0 s; at 100 s it starts a recovery whose first command raises. Only
    [stop_slew] was sent, the time of the last state change is still 0
    after the recovery, and the turn of the loop at 110 s starts the next
    recovery. *)
Lemma failed_recovery_keeps_timestamp :
  let wd := {| Recovery.wd_api := Scenario.stuck_mount_api;
               Recovery.running := true;
               Recovery.last_state_change := 0 |} in
  let wd' := Recovery._monitor_system_turn 100 105 wd in
  Recovery.frozen 100 wd = true
  /\ history (Recovery.wd_api wd') = [Recovery.bare "stop_slew"]
  /\ Recovery.last_state_change wd' = 0%Q
  /\ Recovery.last_state_change wd' <> 105%Q
  /\ Recovery.frozen 110 wd' = true.
Proof.
  repeat split; try reflexivity. intros H. discriminate H.
Qed.

(** ** Response cache *)

Section CacheFacts.
Import Performance.

Lemma send_request_empty_cache method params callback now po :
  response_cache (cache_manager po) = [] ->
  let po' := snd (send_request method params callback now po) in
  response_cache (cache_manager po') = []
  /\ hits (cache_manager po') = hits (cache_manager po)
  /\ fst (send_request method params callback now po) = Return VNone.
Proof.
  intros Hempty. unfold send_request, get_cached_response.
  destruct (cacheable method); simpl.
  - unfold cache_contains. rewrite Hempty. simpl. by repeat split.
  - by repeat split.
Qed.

Lemma run_requests_empty_cache requests : forall po,
  response_cache (cache_manager po) = [] ->
  response_cache (cache_manager (run_requests requests po)) = []
  /\ hits (cache_manager (run_requests requests po)) = hits (cache_manager po).
Proof.
  induction requests as [|[[method params] now] rest IH]; intros po Hempty.
  - by split.
  - unfold run_requests in *. cbn [fold_left fst snd].
    destruct (send_request_empty_cache method params None now po Hempty)
      as (He & Hh & _).
    destruct (IH _ He) as [IHe IHh]. split; [exact IHe|].
    by rewrite IHh, Hh.
Qed.

End CacheFacts.

(** The cache manager on its own, as its tests use it: a response that
    was stored with [cache_response] is found by the next lookup within
    the time to live (one miss, one hit), and not after it. *)
Lemma stored_response_hits_within_ttl :
  let params := VDict [("param", VStr "value")] in
  let response := VDict [("data", VStr "test")] in
  let c1 := snd (Performance.get_cached_response "get_coordinates" params 0
                   Performance.new_cache) in
  let c2 := Performance.cache_response "get_coordinates" params response 0 c1 in
  let r3 := Performance.get_cached_response "get_coordinates" params (1 # 2) c2 in
  let r4 := Performance.get_cached_response "get_coordinates" params 60 c2 in
  fst r3 = response
  /\ Performance.get_stats (snd r3) = (1, 1)
  /\ fst r4 = VNone
  /\ Performance.get_stats (snd r4) = (0, 2).
Proof. vm_compute. repeat split. Qed.

(** No request of the optimized path is ever answered from the cache:
    nothing on this path stores a response, so the cache of a new
    optimizer stays empty and its count of hits at zero. *)
Lemma request_path_never_hits (requests : list (string * value * Q)) (a : Api) :
  let po := Performance.run_requests requests (Performance.new_optimizer a) in
  Performance.response_cache (Performance.cache_manager po) = []
  /\ Performance.hits (Performance.cache_manager po) = 0.
Proof.
  apply (run_requests_empty_cache requests (Performance.new_optimizer a)).
  reflexivity.
Qed.

(** C6 (the code at the failing input). Two reads of [get_coordinates]
    with the same parameters, 0.25 s apart, through [send_request] of a
    new optimizer: both miss the cache (no hit, two misses), both return
    [None] to the caller, both are handed to the batcher for the device,
    and the cache is still empty afterwards. *)
Theorem second_identical_read_misses_cache :
  let po0 := Performance.new_optimizer Scenario.sky_api in
  let r1 := Performance.send_request "get_coordinates" (VDict []) None 0 po0 in
  let r2 := Performance.send_request "get_coordinates" (VDict []) None (1 # 4)
              (snd r1) in
  Performance.cacheable "get_coordinates" = true
  /\ fst r1 = Return VNone
  /\ fst r2 = Return VNone
  /\ Performance.get_stats (Performance.cache_manager (snd r2)) = (0, 2)
  /\ Performance.response_cache (Performance.cache_manager (snd r2)) = []
  /\ map Performance.br_method
       (Performance.batch_queue (Performance.request_batcher (snd r2)))
     = ["get_coordinates"; "get_coordinates"].
Proof. vm_compute. repeat split. Qed.

(** * Further properties *)

(** ** Command queue *)

Section QueueFacts.
Import Recovery.

Lemma Qgt_bool_iff a b : Qgt_bool a b = true <-> (b < a)%Q.
Proof.
  split; [apply Qgt_bool_true|].
  intros H. unfold Qgt_bool. apply negb_true_iff.
  destruct (Qle_bool a b) eqn:E; [|reflexivity].
  apply Qle_bool_iff in E. exfalso. by apply (Qlt_not_le b a).
Qed.

Lemma handle_failure_history command priority now q :
  exists more,
    history (api (snd (_handle_failure command priority now q)))
    = history (api q) ++ more.
Proof.
  unfold _handle_failure.
  destruct (retries command <? max_retries command).
  { exists [].
    destruct (put_effect
                (Z.max 0 (priority - 1),
                 set_retries command (retries command + 1))
                (store_retries (oid command) (retries command + 1) q))
      as (Hapi & _).
    rewrite Hapi. simpl. by rewrite app_nil_r. }
  destruct (commands (current_transaction q)) eqn:E.
  { exists []. by rewrite app_nil_r. }
  unfold rollback.
  pose proof (rollback_entries_history now
                (rev (combine (commands (current_transaction q))
                              (results (current_transaction q))))
                (true, api q)) as Hh.
  destruct (fold_left _ _ _) as [ok a']. simpl in *.
  eexists. exact Hh.
Qed.

Lemma relevant_state_history command a :
  exists more,
    history (snd (_get_relevant_state command a)) = history a ++ more
    /\ (forall e, fst (_get_relevant_state command a) = Raise e -> more <> []).
Proof.
  unfold _get_relevant_state.
  destruct (String.eqb (method command) "goto_target").
  - unfold invoke. simpl.
    destruct (bind (respond a (history a) GetCoordinates) _) as [ra|e].
    + destruct (bind (respond a (history a ++ [GetCoordinates]) GetCoordinates) _)
        as [dec|e]; simpl.
      * exists [GetCoordinates; GetCoordinates].
        rewrite <- app_assoc. split; [reflexivity|discriminate].
      * exists [GetCoordinates; GetCoordinates].
        rewrite <- app_assoc. split; [reflexivity|discriminate].
    + simpl. exists [GetCoordinates]. split; [reflexivity|discriminate].
  - destruct (String.eqb (method command) "move_filter").
    + unfold invoke. simpl. exists [GetFilterPosition].
      split; [reflexivity|discriminate].
    + simpl. exists []. rewrite app_nil_r. split; [reflexivity|discriminate].
Qed.

Lemma process_item_live_history now priority command q :
  Qgt_bool (now - timestamp command) (timeout command) = false ->
  exists more,
    more <> []
    /\ history (api (snd (_process_item now priority command q)))
       = history (api q) ++ more.
Proof.
  intros Hlive. unfold _process_item. rewrite Hlive.
  destruct (relevant_state_history command (api q)) as (m1 & Hm1 & Hraise).
  destruct (_get_relevant_state command (api q)) as [[previous|e] a1];
    simpl in Hm1, Hraise.
  2: { destruct (handle_failure_history command priority now (with_api a1 q))
         as [m2 Hm2].
       exists (m1 ++ m2). rewrite Hm2. simpl. rewrite Hm1, <- app_assoc.
       split; [|reflexivity].
       specialize (Hraise e eq_refl). by destruct m1. }
  unfold send_command, invoke.
  set (sent := SendCommand (method command) (params command)).
  set (a2 := {| respond := respond a1; history := history a1 ++ [sent] |}).
  assert (forall c q2, api q2 = a2 ->
            exists more, more <> []
              /\ history (api (snd (_handle_failure c priority now q2)))
                 = history (api q) ++ more) as Hfail.
  { intros c q2 Hq2.
    destruct (handle_failure_history c priority now q2) as [m2 Hm2].
    exists ((m1 ++ [sent]) ++ m2). rewrite Hm2, Hq2. simpl.
    rewrite Hm1, <- !app_assoc. split; [|reflexivity].
    by destruct m1. }
  assert (exists more, more <> [] /\ history a2 = history (api q) ++ more)
    as Hsent.
  { exists (m1 ++ [sent]). simpl. rewrite Hm1, <- app_assoc.
    split; [by destruct m1|reflexivity]. }
  destruct (respond a1 (history a1) sent) as [res|e];
    [|by apply Hfail].
  destruct (truthy res).
  2: { destruct (Hfail command (with_api a2 q) eq_refl) as (m3 & Hne & Hm3).
       destruct (_handle_failure command priority now (with_api a2 q))
         as [[u|e] q3]; simpl in Hm3; [by exists m3|].
       destruct (handle_failure_history (after_failure command) priority now q3)
         as [m4 Hm4].
       exists (m3 ++ m4). rewrite Hm4, Hm3, <- app_assoc.
       split; [by destruct m3|reflexivity]. }
  destruct (setitem res "previous_state" previous) as [res'|e];
    [|by apply Hfail].
  destruct (callback command) as [cb|]; [|exact Hsent].
  destruct (cb_run cb res'); [exact Hsent|by apply Hfail].
Qed.

End QueueFacts.

(** X1. The queue drops an entry without doing anything at all (no call
    to the device, no log entry, no retry, no rollback) exactly when the
    command is older than its timeout; a command whose age is exactly its
    timeout is still executed. The loop goes on after a dropped entry. *)
Theorem expired_command_is_dropped_untouched
  (now : Q) (priority : Z) (command : Recovery.Command)
  (q : Recovery.CommandQueue) :
  (snd (Recovery._process_item now priority command q) = q
   <-> (Recovery.timeout command < now - Recovery.timestamp command)%Q)
  /\ (Recovery._process_item now priority command q = (Return tt, q)
      <-> (Recovery.timeout command < now - Recovery.timestamp command)%Q).
Proof.
  rewrite <- Qgt_bool_iff.
  assert (snd (Recovery._process_item now priority command q) = q ->
          Recovery.Qgt_bool (now - Recovery.timestamp command)
            (Recovery.timeout command) = true) as Hlive.
  { intros Hsame.
    destruct (Recovery.Qgt_bool _ _) eqn:E; [reflexivity|exfalso].
    destruct (process_item_live_history now priority command q E)
      as (more & Hne & Hh).
    rewrite Hsame in Hh. apply Hne.
    apply (app_inv_head (history (Recovery.api q))). by rewrite app_nil_r. }
  assert (Recovery.Qgt_bool (now - Recovery.timestamp command)
            (Recovery.timeout command) = true ->
          Recovery._process_item now priority command q = (Return tt, q))
    as Hdropped.
  { intros E. unfold Recovery._process_item. by rewrite E. }
  split; split; try exact Hdropped; try exact Hlive.
  - intros E. by rewrite (Hdropped E).
  - intros Hsame. apply Hlive. by rewrite Hsame.
Qed.

(** X2. An answer of the device that is truthy but not a dictionary (a
    bare [true], a number, a string) counts as a failure although the
    command was sent: nothing is added to the log and, with retries left,
    the command goes back into the queue with one more retry, to be sent
    again. The retry is counted on the command object, wherever it is
    held. This is stated for a queue in which no waiting entry has the
    priority of the retry. *)
Theorem truthy_answer_that_is_no_dict_is_retried
  (now : Q) (priority : Z) (command : Recovery.Command)
  (q : Recovery.CommandQueue) (previous answer : value) (a1 a2 : Api) :
  Recovery.Qgt_bool (now - Recovery.timestamp command)
    (Recovery.timeout command) = false ->
  Recovery._get_relevant_state command (Recovery.api q) = (Return previous, a1) ->
  send_command (Recovery.method command) (Recovery.params command) a1
    = (Return answer, a2) ->
  truthy answer = true ->
  Pacing.is_dict answer = false ->
  Recovery.retries command < Recovery.max_retries command ->
  Forall (fun waiting => fst waiting <> Z.max 0 (priority - 1))
    (Recovery.queue q) ->
  let r := Recovery._process_item now priority command q in
  let q' := snd r in
  let count := Recovery.retries command + 1 in
  let counted := Recovery.store_retries (Recovery.oid command) count q in
  fst r = Return tt
  /\ Recovery.current_transaction q' = Recovery.current_transaction counted
  /\ Recovery.results (Recovery.current_transaction q')
     = Recovery.results (Recovery.current_transaction q)
  /\ Permutation (Recovery.queue q')
       ((Z.max 0 (priority - 1), Recovery.set_retries command count)
        :: Recovery.queue counted)
  /\ Recovery.api q' = a2.
Proof.
  intros Hlive Hprev Hsend Htruthy Hdict Hret Hfree r q' count counted.
  subst r q' count counted.
  unfold Recovery._process_item. rewrite Hlive, Hprev, Hsend, Htruthy.
  assert (setitem answer "previous_state" previous = Raise TypeError) as ->.
  { by destruct answer. }
  destruct (handle_failure_retry command priority now
              (Recovery.with_api a2 q) Hret)
    as (Hapi & Hlog & Hperm & Hreturns).
  rewrite Hlog. split; [by apply Hreturns|]. by repeat split.
Qed.

Lemma truthy_answer_that_is_no_dict_is_retried_witness :
  let a := {| respond := fun _ _ => Return (VBool true); history := [] |} in
  let q := snd (Recovery.add_command Scenario.goto_command 5
                  (Recovery.new_queue a)) in
  let r := Recovery._process_item 1 1 Scenario.park_command q in
  fst r = Return tt
  /\ Recovery.current_transaction (snd r) = Recovery.empty_log
  /\ Recovery.results (Recovery.current_transaction (snd r)) = []
  /\ Permutation (Recovery.queue (snd r))
       [(0, Recovery.set_retries Scenario.park_command 1);
        (5, Scenario.goto_command)]
  /\ Recovery.api (snd r)
     = {| respond := fun _ _ => Return (VBool true);
          history := [SendCommand "park" (VDict [])] |}.
Proof.
  apply (truthy_answer_that_is_no_dict_is_retried 1 1 Scenario.park_command
           (snd (Recovery.add_command Scenario.goto_command 5
                   (Recovery.new_queue
                      {| respond := fun _ _ => Return (VBool true);
                         history := [] |})))
           (VDict []) (VBool true)
           {| respond := fun _ _ => Return (VBool true); history := [] |}
           {| respond := fun _ _ => Return (VBool true);
              history := [SendCommand "park" (VDict [])] |});
    try reflexivity.
  repeat constructor. simpl. lia.
Defined.

(** X3. A rollback skips the commands it has no inverse for: on a log
    that holds only such commands it sends nothing to the device and
    still reports success. *)
Theorem rollback_without_inverses_sends_nothing
  (now : Q) (a : Api) (log : Recovery.TransactionLog) :
  Forall (fun c => Pacing.has_inverse (Recovery.method c) = false)
    (Recovery.commands log) ->
  Recovery.rollback now a log = (true, a, log).
Proof.
  intros Hall. unfold Recovery.rollback. f_equal.
  assert (Forall (fun e : Recovery.Command * value =>
                    Pacing.has_inverse (Recovery.method (fst e)) = false)
            (rev (combine (Recovery.commands log) (Recovery.results log))))
    as Hrev.
  { apply List.Forall_forall. intros [c r] Hin. apply in_rev in Hin.
    apply in_combine_l in Hin.
    rewrite List.Forall_forall in Hall. by apply Hall. }
  induction Hrev as [|[c r] entries Hc _ IH]; simpl; [reflexivity|].
  unfold Recovery._get_inverse_command. simpl in Hc.
  unfold Pacing.has_inverse in Hc.
  apply orb_false_iff in Hc as [Hc Hm]. apply orb_false_iff in Hc as [Hg He].
  by rewrite Hg, He, Hm.
Qed.

Lemma rollback_without_inverses_sends_nothing_witness :
  Recovery.rollback 0 Scenario.broken_api
    (Recovery.add Scenario.park_command (VDict [("status", VStr "ok")])
       Recovery.empty_log)
  = (true, Scenario.broken_api,
     Recovery.add Scenario.park_command (VDict [("status", VStr "ok")])
       Recovery.empty_log).
Proof.
  apply (rollback_without_inverses_sends_nothing 0 Scenario.broken_api
           (Recovery.add Scenario.park_command (VDict [("status", VStr "ok")])
              Recovery.empty_log)).
  repeat constructor.
Defined.

(** ** Pace of the connection attempts *)

Section PacingFacts.
Import Recovery.





End PacingFacts.


(** ** State updates, again *)

Section UpdateFacts.
Import Monitor.

Lemma dict_get_present {A} key (v : A) (d : list (string * A)) :
  List.NoDup (map fst d) -> In (key, v) d -> dict_get key d = Some v.
Proof.
  induction d as [|[k w] d IH]; simpl; intros Hnd Hin; [contradiction|].
  apply List.NoDup_cons_iff in Hnd as [Hnotin Hnd].
  destruct Hin as [E|Hin].
  - injection E as -> ->. by rewrite String.eqb_refl.
  - destruct (String.eqb_spec key k) as [->|_]; [|by apply IH].
    exfalso. apply Hnotin. apply in_map_iff. by exists (k, v).
Qed.

(** Items that bring nothing new leave state and events alone. *)
Lemma fold_update_item_settled updates : forall s events,
  (forall key v f, In (key, v) updates -> field_of_name key = Some f ->
                   py_ne (getattr s f) v = false) ->
  fold_left update_item updates (s, events) = (s, events).
Proof.
  induction updates as [|[key v] rest IH]; intros s events Hsettled;
    [reflexivity|].
  cbn [fold_left].
  assert (update_item (s, events) (key, v) = (s, events)) as ->.
  { unfold update_item.
    destruct (field_of_name key) as [f|] eqn:Hf; [|reflexivity].
    by rewrite (Hsettled key v f (or_introl eq_refl) Hf). }
  apply IH. intros k w f Hin. apply (Hsettled k w f). by right.
Qed.

Lemma updated_value_equal s updates key v f :
  List.NoDup (map fst updates) ->
  In (key, v) updates -> field_of_name key = Some f ->
  py_eq v v = true ->
  py_eq (updated_value s updates f) v = true.
Proof.
  intros Hnd Hin Hf Hrefl. unfold updated_value.
  apply field_of_name_Some in Hf. subst key.
  rewrite (dict_get_present _ v updates Hnd Hin).
  unfold py_ne. destruct (py_eq (getattr s f) v) eqn:E; simpl; congruence.
Qed.

End UpdateFacts.

(** X5. After an update, every field named in the map compares equal
    ([==]) to the value the map gave for it, whether the field was
    written or found equal and left alone. (The values are such that
    [v == v], as every Python value but a NaN is.) *)
Theorem update_state_reaches_requested_values
  (updates : list (string * value)) (m : Monitor.DeviceMonitor)
  (s : Monitor.DeviceState) :
  List.NoDup (map fst updates) ->
  Monitor.deref m (Monitor.state m) = Some s ->
  (forall key v, In (key, v) updates -> py_eq v v = true) ->
  let m' := Monitor._update_state updates m in
  exists s',
    Monitor.deref m' (Monitor.state m') = Some s'
    /\ forall key v f,
         In (key, v) updates -> Monitor.field_of_name key = Some f ->
         py_eq (Monitor.getattr s' f) v = true.
Proof.
  intros Hnd Hs Hrefl m'. subst m'. unfold Monitor._update_state.
  unfold Monitor.deref in *. rewrite Hs.
  destruct (fold_update_item updates s [] Hnd) as [Hst _].
  destruct (fold_left Monitor.update_item updates (s, [])) as [s' events].
  simpl in *. exists s'. split.
  - apply list_lookup_insert_eq. by eapply lookup_lt_Some.
  - intros key v f Hin Hf. rewrite Hst.
    apply (updated_value_equal s updates key v f Hnd Hin Hf).
    by apply (Hrefl key v).
Qed.

Lemma update_state_reaches_requested_values_witness :
  let updates := [("gain", VFloat 1); ("ra", VFloat (31 # 2))] in
  let m' := Monitor._update_state updates
              (Monitor.new_monitor Scenario.quiet_api) in
  exists s',
    Monitor.deref m' (Monitor.state m') = Some s'
    /\ forall key v f,
         In (key, v) updates -> Monitor.field_of_name key = Some f ->
         py_eq (Monitor.getattr s' f) v = true.
Proof.
  apply (update_state_reaches_requested_values
           [("gain", VFloat 1); ("ra", VFloat (31 # 2))]
           (Monitor.new_monitor Scenario.quiet_api) Monitor.default_state).
  - repeat constructor; simpl; intuition discriminate.
  - reflexivity.
  - intros key v [E|[E|[]]]; injection E as <- <-; reflexivity.
Defined.

(** X6. Updating twice with the same map is the same as updating once:
    the second update writes no field and queues no event, so a poll that
    reads the same values again is silent. *)
Theorem update_state_twice_is_once
  (updates : list (string * value)) (m : Monitor.DeviceMonitor)
  (s : Monitor.DeviceState) :
  List.NoDup (map fst updates) ->
  Monitor.deref m (Monitor.state m) = Some s ->
  (forall key v, In (key, v) updates -> py_eq v v = true) ->
  Monitor._update_state updates (Monitor._update_state updates m)
  = Monitor._update_state updates m.
Proof.
  intros Hnd Hs Hrefl. unfold Monitor._update_state at 2 3.
  unfold Monitor.deref in Hs. rewrite Hs.
  destruct (fold_update_item updates s [] Hnd) as [Hst _].
  destruct (fold_left Monitor.update_item updates (s, [])) as [s1 events].
  simpl in Hst. unfold Monitor._update_state. simpl.
  rewrite list_lookup_insert_eq by (by eapply lookup_lt_Some).
  rewrite (fold_update_item_settled updates s1 []).
  - by rewrite list_insert_insert_eq, app_nil_r.
  - intros key v f Hin Hf. rewrite Hst. unfold py_ne.
    rewrite (updated_value_equal s updates key v f Hnd Hin Hf);
      [reflexivity|by apply (Hrefl key v)].
Qed.

Lemma update_state_twice_is_once_witness :
  let updates := [("connected", VBool true); ("ra", VFloat (31 # 2))] in
  let m := Monitor.new_monitor Scenario.quiet_api in
  Monitor._update_state updates (Monitor._update_state updates m)
  = Monitor._update_state updates m.
Proof.
  apply (update_state_twice_is_once
           [("connected", VBool true); ("ra", VFloat (31 # 2))]
           (Monitor.new_monitor Scenario.quiet_api) Monitor.default_state).
  - repeat constructor; simpl; intuition discriminate.
  - reflexivity.
  - intros key v [E|[E|[]]]; injection E as <- <-; reflexivity.
Defined.

(** ** Event callbacks *)

Section EventFacts.
Import Events.

Lemma call_all_calls hs e : forall d,
  calls (call_all hs e d) = calls d ++ map (fun h => (hid h, e)) hs
  /\ journal (call_all hs e d) = (journal d + raising hs e)%nat.
Proof.
  unfold raising.
  induction hs as [|h rest IH]; intros d; simpl.
  - rewrite app_nil_r. split; [reflexivity|lia].
  - destruct (IH (match run h e with
                  | Return _ => {| calls := calls d ++ [(hid h, e)];
                                   journal := journal d |}
                  | Raise _ => {| calls := calls d ++ [(hid h, e)];
                                  journal := S (journal d) |}
                  end)) as [Hc Hj].
    rewrite Hc, Hj.
    destruct (run h e) as [u|ex]; simpl;
      rewrite <- app_assoc; (split; [reflexivity|lia]).
Qed.

Lemma dict_get_set_eq {A} key (v : A) d : dict_get key (dict_set key v d) = Some v.
Proof.
  induction d as [|[k w] d IH]; simpl.
  - by rewrite String.eqb_refl.
  - destruct (String.eqb key k) eqn:E; simpl; rewrite ?E, ?String.eqb_refl;
      [reflexivity|exact IH].
Qed.

Lemma dict_get_set_ne {A} key key' (v : A) d :
  key' <> key -> dict_get key' (dict_set key v d) = dict_get key' d.
Proof.
  intros Hne. induction d as [|[k w] d IH]; simpl.
  - destruct (String.eqb_spec key' key); [contradiction|reflexivity].
  - destruct (String.eqb_spec key k) as [->|Hk]; simpl.
    + destruct (String.eqb_spec key' k); [contradiction|reflexivity].
    + destruct (String.eqb key' k); [reflexivity|exact IH].
Qed.

Lemma handlers_of_add ty h reg ty' :
  handlers_of ty' (add_event_callback ty h reg)
  = if String.eqb ty' ty then handlers_of ty reg ++ [h]
    else handlers_of ty' reg.
Proof.
  unfold handlers_of, add_event_callback.
  destruct (String.eqb_spec ty' ty) as [->|Hne].
  - destruct (dict_get ty reg); by rewrite dict_get_set_eq.
  - destruct (dict_get ty reg); by rewrite dict_get_set_ne.
Qed.

Lemma list_remove_absent h hs :
  Forall (fun h' => hid h' <> hid h) hs -> list_remove h hs = None.
Proof.
  induction 1 as [|h' rest Hh' _ IH]; simpl; [reflexivity|].
  destruct (Nat.eqb_spec (hid h) (hid h')); [congruence|]. by rewrite IH.
Qed.

Lemma list_remove_appended h hs :
  Forall (fun h' => hid h' <> hid h) hs -> list_remove h (hs ++ [h]) = Some hs.
Proof.
  induction 1 as [|h' rest Hh' _ IH]; simpl.
  - by rewrite Nat.eqb_refl.
  - destruct (Nat.eqb_spec (hid h) (hid h')); [congruence|]. by rewrite IH.
Qed.

End EventFacts.

(** X7. A turn of the event loop takes the oldest event off the queue and
    calls every callback registered for its type, once each and in the
    order of registration; a callback that raises is written to the
    journal and does not keep the later ones from being called.
    Callbacks of other types are not called. *)
Theorem event_loop_calls_every_callback_in_order
  (reg : Events.Registry) (m : Monitor.DeviceMonitor) (d : Events.Delivery)
  (e : Monitor.Event) (rest : list Monitor.Event) :
  Monitor.event_queue m = e :: rest ->
  let r := Events._event_loop_turn reg m d in
  Monitor.event_queue (fst r) = rest
  /\ Events.calls (snd r)
     = Events.calls d
       ++ map (fun h => (Events.hid h, e))
              (Events.handlers_of (Events.event_type e) reg)
  /\ Events.journal (snd r)
     = (Events.journal d
        + Events.raising (Events.handlers_of (Events.event_type e) reg) e)%nat
  /\ Monitor.objects (fst r) = Monitor.objects m.
Proof.
  intros Hq r. subst r. unfold Events._event_loop_turn. rewrite Hq. simpl.
  destruct (call_all_calls (Events.handlers_of (Events.event_type e) reg) e d)
    as [Hc Hj].
  by rewrite Hc, Hj.
Qed.

Lemma event_loop_calls_every_callback_in_order_witness :
  let faulty := {| Events.hid := 1%nat;
                   Events.run := fun _ => Raise (RuntimeError "boom") |} in
  let sound := {| Events.hid := 2%nat; Events.run := fun _ => Return tt |} in
  let other := {| Events.hid := 3%nat; Events.run := fun _ => Return tt |} in
  let reg := Events.add_event_callback "exposure_complete" other
               (Events.add_event_callback "state_change" sound
                  (Events.add_event_callback "state_change" faulty [])) in
  let m := Monitor._update_state [("ra", VFloat 12)]
             (Monitor.new_monitor Scenario.quiet_api) in
  let e := Monitor.StateChange "ra" (VFloat 0) (VFloat 12) in
  let r := Events._event_loop_turn reg m
             {| Events.calls := []; Events.journal := 0%nat |} in
  Monitor.event_queue (fst r) = []
  /\ Events.calls (snd r) = [(1%nat, e); (2%nat, e)]
  /\ Events.journal (snd r) = 1%nat
  /\ Monitor.objects (fst r) = Monitor.objects m.
Proof.
  apply (event_loop_calls_every_callback_in_order
           (Events.add_event_callback "exposure_complete"
              {| Events.hid := 3%nat; Events.run := fun _ => Return tt |}
              (Events.add_event_callback "state_change"
                 {| Events.hid := 2%nat; Events.run := fun _ => Return tt |}
                 (Events.add_event_callback "state_change"
                    {| Events.hid := 1%nat;
                       Events.run := fun _ => Raise (RuntimeError "boom") |}
                    [])))
           (Monitor._update_state [("ra", VFloat 12)]
              (Monitor.new_monitor Scenario.quiet_api))
           {| Events.calls := []; Events.journal := 0%nat |}
           (Monitor.StateChange "ra" (VFloat 0) (VFloat 12)) []).
  reflexivity.
Defined.

(** X8. Registering a callback that was not yet registered for a type and
    removing it again gives back, for every type, the callbacks there
    were before: the removal succeeds and no other registration is
    touched. *)
Theorem add_then_remove_callback_restores
  (ty : string) (h : Events.Handler) (reg : Events.Registry) :
  Forall (fun h' => Events.hid h' <> Events.hid h) (Events.handlers_of ty reg) ->
  exists reg',
    Events.remove_event_callback ty h (Events.add_event_callback ty h reg)
    = Some reg'
    /\ forall ty', Events.handlers_of ty' reg' = Events.handlers_of ty' reg.
Proof.
  intros Hfresh.
  pose proof (handlers_of_add ty h reg ty) as Hadd.
  rewrite String.eqb_refl in Hadd.
  unfold Events.remove_event_callback.
  unfold Events.handlers_of in Hadd at 1.
  destruct (dict_get ty (Events.add_event_callback ty h reg)) as [hs|] eqn:E.
  2: { exfalso. by destruct (Events.handlers_of ty reg). }
  subst hs. rewrite (list_remove_appended h _ Hfresh).
  eexists. split; [reflexivity|].
  intros ty'. unfold Events.handlers_of at 1.
  destruct (String.eqb_spec ty' ty) as [->|Hne].
  - by rewrite dict_get_set_eq.
  - rewrite dict_get_set_ne by exact Hne.
    pose proof (handlers_of_add ty h reg ty') as Hother.
    destruct (String.eqb_spec ty' ty); [contradiction|exact Hother].
Qed.

Lemma add_then_remove_callback_restores_witness :
  let h := {| Events.hid := 7%nat; Events.run := fun _ => Return tt |} in
  exists reg',
    Events.remove_event_callback "state_change" h
      (Events.add_event_callback "state_change" h [])
    = Some reg'
    /\ forall ty', Events.handlers_of ty' reg' = Events.handlers_of ty' [].
Proof.
  apply (add_then_remove_callback_restores "state_change"
           {| Events.hid := 7%nat; Events.run := fun _ => Return tt |} []).
  constructor.
Defined.

(** X9. Removing a callback that is not registered: for a type nobody
    ever registered for, the removal does nothing and succeeds; for a
    type that has callbacks, but not this one, it raises. *)
Theorem remove_unregistered_callback
  (ty : string) (h : Events.Handler) (reg : Events.Registry) :
  Forall (fun h' => Events.hid h' <> Events.hid h) (Events.handlers_of ty reg) ->
  Events.remove_event_callback ty h reg
  = match dict_get ty reg with
    | None => Some reg
    | Some _ => None
    end.
Proof.
  intros Hfresh. unfold Events.remove_event_callback, Events.handlers_of in *.
  destruct (dict_get ty reg) as [hs|]; [|reflexivity].
  by rewrite (list_remove_absent h hs Hfresh).
Qed.

Lemma remove_unregistered_callback_witness :
  let h := {| Events.hid := 7%nat; Events.run := fun _ => Return tt |} in
  let g := {| Events.hid := 8%nat; Events.run := fun _ => Return tt |} in
  Events.remove_event_callback "state_change" h
    (Events.add_event_callback "state_change" g [])
  = None.
Proof.
  apply (remove_unregistered_callback "state_change"
           {| Events.hid := 7%nat; Events.run := fun _ => Return tt |}
           (Events.add_event_callback "state_change"
              {| Events.hid := 8%nat; Events.run := fun _ => Return tt |} [])).
  repeat constructor. simpl. lia.
Defined.

(** ** Delivery of the change events *)

Section DeliveryFacts.
Import Events.

Lemma turns_drain reg events : forall m d,
  Monitor.event_queue m = events ->
  let r := turns (length events) reg m d in
  Monitor.event_queue (fst r) = []
  /\ calls (snd r)
     = calls d
       ++ flat_map (fun e => map (fun h => (hid h, e))
                               (handlers_of (event_type e) reg)) events.
Proof.
  induction events as [|e rest IH]; intros m d Hq; simpl.
  - split; [exact Hq|]. by rewrite app_nil_r.
  - unfold _event_loop_turn. rewrite Hq.
    destruct (call_all_calls (handlers_of (event_type e) reg) e d) as [Hc _].
    set (m' := {| Monitor.api := Monitor.api m;
                  Monitor.objects := Monitor.objects m;
                  Monitor.state := Monitor.state m;
                  Monitor.event_queue := rest;
                  Monitor.running := Monitor.running m |}).
    destruct (IH m' (call_all (handlers_of (event_type e) reg) e d) eq_refl)
      as [IHq IHc].
    split; [exact IHq|]. rewrite IHc, Hc, <- app_assoc. reflexivity.
Qed.

Lemma change_events_type s item e :
  In e (Monitor.change_events s item) -> event_type e = "state_change".
Proof.
  unfold Monitor.change_events.
  destruct (Monitor.field_of_name (fst item)); [|contradiction].
  destruct (py_ne _ _); [|contradiction].
  intros [<-|[]]. reflexivity.
Qed.

Lemma calls_of_one_type reg ty (events : list Monitor.Event) :
  (forall e, In e events -> event_type e = ty) ->
  flat_map (fun e => map (fun h => (hid h, e))
                         (handlers_of (event_type e) reg)) events
  = flat_map (fun e => map (fun h => (hid h, e)) (handlers_of ty reg)) events.
Proof.
  induction events as [|e rest IH]; intros Hty; [reflexivity|].
  simpl. rewrite (Hty e (or_introl eq_refl)). f_equal.
  apply IH. intros e' Hin. apply Hty. by right.
Qed.

End DeliveryFacts.

(** X10. From the update to the subscribers: when the state is updated
    on an empty queue and the event loop then runs once for every queued
    event, each callback registered for [state_change] is called with
    exactly the change events of the update, one per changed field, in
    the order of the update, and the queue is empty again. *)
Theorem state_changes_reach_every_subscriber
  (updates : list (string * value)) (m : Monitor.DeviceMonitor)
  (s : Monitor.DeviceState) (reg : Events.Registry) :
  List.NoDup (map fst updates) ->
  Monitor.deref m (Monitor.state m) = Some s ->
  Monitor.event_queue m = [] ->
  let m1 := Monitor._update_state updates m in
  let r := Events.turns (length (Monitor.event_queue m1)) reg m1
             {| Events.calls := []; Events.journal := 0%nat |} in
  Monitor.event_queue (fst r) = []
  /\ Events.calls (snd r)
     = flat_map (fun e => map (fun h => (Events.hid h, e))
                              (Events.handlers_of "state_change" reg))
                (flat_map (Monitor.change_events s) updates).
Proof.
  intros Hnd Hs Hempty m1 r. subst r.
  assert (Monitor.event_queue m1 = flat_map (Monitor.change_events s) updates)
    as Hq.
  { subst m1. unfold Monitor._update_state. unfold Monitor.deref in Hs.
    rewrite Hs.
    destruct (fold_update_item updates s [] Hnd) as [_ Hev].
    destruct (fold_left Monitor.update_item updates (s, [])) as [s' events].
    simpl in *. by rewrite Hempty, Hev. }
  destruct (turns_drain reg (Monitor.event_queue m1) m1
              {| Events.calls := []; Events.journal := 0%nat |} eq_refl)
    as [Hdone Hcalls].
  split; [exact Hdone|]. rewrite Hcalls, Hq. simpl.
  apply calls_of_one_type. intros e Hin.
  apply in_flat_map in Hin as (item & _ & Hin).
  by apply (change_events_type s item).
Qed.

Lemma state_changes_reach_every_subscriber_witness :
  let h := {| Events.hid := 1%nat; Events.run := fun _ => Return tt |} in
  let reg := Events.add_event_callback "state_change" h [] in
  let updates := [("ra", VFloat 12); ("tracking", VBool true);
                  ("connected", VBool true)] in
  let m1 := Monitor._update_state updates
              (Monitor.new_monitor Scenario.quiet_api) in
  let r := Events.turns (length (Monitor.event_queue m1)) reg m1
             {| Events.calls := []; Events.journal := 0%nat |} in
  Monitor.event_queue (fst r) = []
  /\ Events.calls (snd r)
     = [(1%nat, Monitor.StateChange "ra" (VFloat 0) (VFloat 12));
        (1%nat, Monitor.StateChange "connected" (VBool false) (VBool true))].
Proof.
  apply (state_changes_reach_every_subscriber
           [("ra", VFloat 12); ("tracking", VBool true);
            ("connected", VBool true)]
           (Monitor.new_monitor Scenario.quiet_api) Monitor.default_state
           (Events.add_event_callback "state_change"
              {| Events.hid := 1%nat; Events.run := fun _ => Return tt |} [])).
  - repeat constructor; simpl; intuition discriminate.
  - reflexivity.
  - reflexivity.
Defined.

(** ** The polling loop *)

Section PollFacts.
Import Monitor Poll.

Lemma completions_app l1 l2 :
  completions (l1 ++ l2) = (completions l1 + completions l2)%nat.
Proof. unfold completions. by rewrite List.filter_app, length_app. Qed.

Lemma fold_update_item_completions updates : forall s events,
  completions (snd (fold_left update_item updates (s, events)))
  = completions events.
Proof.
  induction updates as [|[key v] rest IH]; intros s events; [reflexivity|].
  cbn [fold_left].
  destruct (update_item_effect s events key v) as [Hev _].
  destruct (update_item (s, events) (key, v)) as [s1 events1].
  simpl in Hev. rewrite IH, Hev, completions_app.
  unfold change_events; simpl.
  destruct (field_of_name key); [|unfold completions; simpl; lia].
  destruct (py_ne _ _); unfold completions; simpl; lia.
Qed.

Lemma fold_update_item_other updates f : forall s events,
  ~ In (field_name f) (map fst updates) ->
  getattr (fst (fold_left update_item updates (s, events))) f = getattr s f.
Proof.
  induction updates as [|[key v] rest IH]; intros s events Hnotin;
    [reflexivity|].
  cbn [fold_left].
  destruct (update_item_effect s events key v) as [_ Hst].
  destruct (update_item (s, events) (key, v)) as [s1 events1].
  simpl in Hst. rewrite IH by (intros Hin; apply Hnotin; by right).
  rewrite Hst.
  destruct (String.eqb_spec (field_name f) key) as [E|_]; [|reflexivity].
  exfalso. apply Hnotin. by left.
Qed.

Lemma update_state_sound updates m : sound m -> sound (_update_state updates m).
Proof.
  intros [s Hs]. unfold sound, _update_state, deref in *. rewrite Hs.
  destruct (fold_left update_item updates (s, [])) as [s' events]. simpl.
  exists s'. apply list_lookup_insert_eq. by eapply lookup_lt_Some.
Qed.

Lemma update_state_completions updates m :
  completions (event_queue (_update_state updates m))
  = completions (event_queue m).
Proof.
  unfold _update_state.
  destruct (objects m !! state m) as [s|]; [|reflexivity].
  pose proof (fold_update_item_completions updates s []) as H.
  destruct (fold_left update_item updates (s, [])) as [s' events].
  simpl in *. rewrite completions_app, H. unfold completions; simpl. lia.
Qed.

Lemma update_state_other updates m f :
  ~ In (field_name f) (map fst updates) ->
  getattr (current (_update_state updates m)) f = getattr (current m) f.
Proof.
  intros Hnotin. unfold current, _update_state, deref.
  destruct (objects m !! state m) as [s|] eqn:Hs.
  - pose proof (fold_update_item_other updates f s [] Hnotin) as H.
    destruct (fold_left update_item updates (s, [])) as [s' events].
    simpl in *.
    rewrite list_lookup_insert_eq by (by eapply lookup_lt_Some). exact H.
  - by rewrite Hs.
Qed.

(** The fields, the events and the queue after an update of a sound
    monitor. *)
Lemma update_state_current updates m :
  List.NoDup (map fst updates) -> sound m ->
  (forall f, getattr (current (_update_state updates m)) f
             = updated_value (current m) updates f)
  /\ event_queue (_update_state updates m)
     = event_queue m ++ flat_map (change_events (current m)) updates.
Proof.
  intros Hnd [s Hs]. unfold current, _update_state, deref in *.
  rewrite Hs.
  destruct (fold_update_item updates s [] Hnd) as [Hst Hev].
  destruct (fold_left update_item updates (s, [])) as [s' events].
  simpl in *.
  rewrite list_lookup_insert_eq by (by eapply lookup_lt_Some).
  split; [exact Hst|by rewrite Hev].
Qed.

Lemma truthy_differs_from_False v : truthy v = true -> py_ne v (VBool false) = true.
Proof.
  unfold py_ne. destruct v as [|b|n|x|str|items]; simpl; try discriminate;
    try reflexivity.
  - by intros ->.
  - intros H. apply negb_true_iff in H. apply negb_true_iff.
    destruct (Qeq_bool (inject_Z n) 0) eqn:E; [|reflexivity].
    apply Qeq_bool_iff in E. unfold Qeq in E. simpl in E.
    apply Z.eqb_neq in H. lia.
  - intros H. exact H.
Qed.

Lemma equal_to_False_is_falsy v : py_eq v (VBool false) = true -> truthy v = false.
Proof.
  destruct v as [|b|n|x|str|items]; simpl; try discriminate; try reflexivity.
  - by destruct b.
  - intros E. apply negb_false_iff. apply Qeq_bool_iff in E.
    unfold Qeq in E. simpl in E. apply Z.eqb_eq. lia.
  - intros E. by rewrite E.
Qed.

Lemma equal_to_str v str : py_eq v (VStr str) = true -> v = VStr str.
Proof.
  destruct v as [|b|n|x|str'|items]; simpl; try discriminate.
  intros E. apply String.eqb_eq in E. by subst.
Qed.

Lemma steady_refl m : steady m m.
Proof. by repeat split. Qed.

Lemma steady_update updates m0 m :
  ~ In "exposing" (map fst updates) ->
  ~ In "exposure_start" (map fst updates) ->
  ~ In "exposure_time" (map fst updates) ->
  ~ In "connected" (map fst updates) ->
  steady m0 m -> steady m0 (_update_state updates m).
Proof.
  intros H1 H2 H3 H4 (Hc & He & Hs & Ht & Hsound & Hconn). unfold steady.
  rewrite update_state_completions.
  pose proof (update_state_other updates m Fexposing H1) as E1.
  pose proof (update_state_other updates m Fexposure_start H2) as E2.
  pose proof (update_state_other updates m Fexposure_time H3) as E3.
  pose proof (update_state_other updates m Fconnected H4) as E4.
  simpl in E1, E2, E3, E4. rewrite E1, E2, E3, E4.
  repeat split; try assumption.
  intros H. by apply update_state_sound, Hsound.
Qed.

Lemma equal_to_True_is_truthy v : py_eq v (VBool true) = true -> truthy v = true.
Proof.
  destruct v as [|b|n|x|str|items]; simpl; try discriminate.
  - by destruct b.
  - intros E. apply negb_true_iff. apply Qeq_bool_iff in E.
    unfold Qeq in E. simpl in E. apply Z.eqb_neq. lia.
  - intros E. apply negb_true_iff.
    destruct (Qeq_bool x 0) eqn:E0; [|reflexivity].
    apply Qeq_bool_iff in E, E0. rewrite E0 in E. discriminate E.
Qed.

(** The update after a good read of the coordinates. *)
Lemma steady_coords_update ra dec m0 m :
  steady m0 m ->
  steady m0 (_update_state [("ra", ra); ("dec", dec);
                            ("connected", VBool true); ("error", VNone)] m).
Proof.
  intros (Hc & He & Hs & Ht & Hsound & Hconn). unfold steady.
  set (updates := [("ra", ra); ("dec", dec); ("connected", VBool true);
                   ("error", VNone)]).
  rewrite update_state_completions.
  assert (forall k, In k ["exposing"; "exposure_start"; "exposure_time"] ->
                    ~ In k (map fst updates)) as Hother.
  { intros k Hk Hin. simpl in Hk, Hin.
    repeat (destruct Hk as [<-|Hk]; [intuition discriminate|]). exact Hk. }
  pose proof (update_state_other updates m Fexposing
                (Hother _ (or_introl eq_refl))) as E1.
  pose proof (update_state_other updates m Fexposure_start
                (Hother _ (or_intror (or_introl eq_refl)))) as E2.
  pose proof (update_state_other updates m Fexposure_time
                (Hother _ (or_intror (or_intror (or_introl eq_refl))))) as E3.
  simpl in E1, E2, E3. rewrite E1, E2, E3.
  repeat split; try assumption.
  - intros H. by apply update_state_sound, Hsound.
  - intros H _.
    assert (List.NoDup (map fst updates)) as Hnd
      by (repeat constructor; simpl; intuition discriminate).
    destruct (update_state_current updates m Hnd (Hsound H)) as [Hst _].
    specialize (Hst Fconnected). simpl in Hst. rewrite Hst.
    unfold updated_value, py_ne. simpl.
    destruct (py_eq (connected (current m)) (VBool true)) eqn:E; simpl;
      [by apply equal_to_True_is_truthy|reflexivity].
Qed.

Lemma check_exposure_idle now m :
  truthy (exposing (current m)) = false -> check_exposure now m = (None, m).
Proof. intros H. unfold check_exposure. by rewrite H. Qed.

(** The [try] block either ends early on an exception, or gets to the
    test of the exposure; up to there the exposure is not touched. *)
Lemma try_block_cases coords slewing temp now m :
  (exists msg m1,
      try_block coords slewing temp now m = (Some msg, m1) /\ steady m m1)
  \/ (exists m3,
        try_block coords slewing temp now m = check_exposure now m3
        /\ steady m m3).
Proof.
  unfold try_block.
  destruct coords as [c|msg]; [|left; exists msg, m; by split; [|apply steady_refl]].
  assert (forall m1, steady m m1 ->
    (exists msg m1',
        match slewing with
        | Failed msg => (Some msg, m1)
        | Got sl =>
            match temp with
            | Failed msg => (Some msg, _update_state [("slewing", sl)] m1)
            | Got t =>
                check_exposure now
                  match t with
                  | VNone => _update_state [("slewing", sl)] m1
                  | _ => _update_state [("focus_temperature", t)]
                           (_update_state [("slewing", sl)] m1)
                  end
            end
        end = (Some msg, m1') /\ steady m m1')
    \/ (exists m3,
          match slewing with
          | Failed msg => (Some msg, m1)
          | Got sl =>
              match temp with
              | Failed msg => (Some msg, _update_state [("slewing", sl)] m1)
              | Got t =>
                  check_exposure now
                    match t with
                    | VNone => _update_state [("slewing", sl)] m1
                    | _ => _update_state [("focus_temperature", t)]
                             (_update_state [("slewing", sl)] m1)
                    end
              end
          end = check_exposure now m3 /\ steady m m3)) as Hrest.
  { intros m1 H1.
    destruct slewing as [sl|msg]; [|left; by exists msg, m1].
    assert (steady m (_update_state [("slewing", sl)] m1)) as H2
      by (apply steady_update; simpl; intuition discriminate).
    destruct temp as [t|msg]; [|left; by eexists _, _].
    right. eexists. split; [reflexivity|].
    destruct t; try exact H2;
      apply steady_update; simpl; try (intuition discriminate); exact H2. }
  destruct (truthy c); [|by apply Hrest, steady_refl].
  destruct (coords_get c "ra") as [ra|msg];
    [|left; exists msg, m; by split; [|apply steady_refl]].
  destruct (coords_get c "dec") as [dec|msg];
    [|left; exists msg, m; by split; [|apply steady_refl]].
  apply Hrest, steady_coords_update, steady_refl.
Qed.

End PollFacts.

Section PollTurnFacts.
Import Monitor Poll.

Lemma put_event_sound e m : sound m -> sound (put_event e m).
Proof. intros [s Hs]. by exists s. Qed.

Lemma check_exposure_sound now m :
  sound m -> sound (snd (check_exposure now m)).
Proof.
  intros H. unfold check_exposure.
  destruct (truthy _); [|exact H].
  destruct (elapsed_since _ _) as [el|msg]; [|exact H].
  destruct (at_least _ _) as [[|]|msg]; try exact H.
  simpl. by apply put_event_sound, update_state_sound.
Qed.

Lemma try_block_sound coords slewing temp now m :
  sound m -> sound (snd (try_block coords slewing temp now m)).
Proof.
  intros H.
  destruct (try_block_cases coords slewing temp now m)
    as [(msg & m1 & -> & Hst)|(m3 & -> & Hst)].
  - simpl. by apply Hst.
  - apply check_exposure_sound. by apply Hst.
Qed.

End PollTurnFacts.

(** X11. A turn of the polling loop on a state that is not exposing never
    announces the end of an exposure, whatever the device answers or
    raises and whatever the clock says, and the state is still not
    exposing afterwards. *)
Theorem idle_camera_never_completes
  (coords slewing temp : Poll.read value) (now : Q)
  (m : Monitor.DeviceMonitor) :
  truthy (Monitor.exposing (Poll.current m)) = false ->
  let m' := Poll._monitor_loop_turn coords slewing temp now m in
  Poll.completions (Monitor.event_queue m')
    = Poll.completions (Monitor.event_queue m)
  /\ truthy (Monitor.exposing (Poll.current m')) = false.
Proof.
  intros Hidle m'. subst m'. unfold Poll._monitor_loop_turn.
  destruct (try_block_cases coords slewing temp now m)
    as [(msg & m1 & -> & Hst)|(m3 & -> & Hst)].
  - destruct Hst as (Hc & He & _).
    rewrite update_state_completions.
    pose proof (update_state_other
                  [("connected", VBool false); ("error", VStr msg)] m1
                  Monitor.Fexposing) as E.
    simpl in E. rewrite E by intuition discriminate.
    by rewrite Hc, He.
  - destruct Hst as (Hc & He & _).
    rewrite check_exposure_idle by (by rewrite He).
    by rewrite Hc, He.
Qed.

Lemma idle_camera_never_completes_witness :
  let m' := Poll._monitor_loop_turn (Poll.Got VNone) (Poll.Failed "timeout")
              (Poll.Got VNone) 100 (Monitor.new_monitor Scenario.quiet_api) in
  Poll.completions (Monitor.event_queue m') = 0%nat
  /\ truthy (Monitor.exposing (Poll.current m')) = false.
Proof.
  apply (idle_camera_never_completes (Poll.Got VNone) (Poll.Failed "timeout")
           (Poll.Got VNone) 100 (Monitor.new_monitor Scenario.quiet_api)).
  reflexivity.
Defined.

Section ExposureEndFacts.
Import Monitor Poll.

(** What the end of an exposure does to a monitor. *)
Lemma exposure_end_effect m :
  sound m -> truthy (exposing (current m)) = true ->
  let m' := put_event ExposureComplete
              (_update_state [("exposing", VBool false)] m) in
  exposing (current m') = VBool false
  /\ completions (event_queue m') = S (completions (event_queue m))
  /\ event_queue m'
     = event_queue m
       ++ [StateChange "exposing" (exposing (current m)) (VBool false);
           ExposureComplete].
Proof.
  intros Hsound Hexp m'. subst m'.
  assert (List.NoDup (map fst [("exposing", VBool false)])) as Hnd
    by (repeat constructor; simpl; tauto).
  destruct (update_state_current [("exposing", VBool false)] m Hnd Hsound)
    as [Hst Hev].
  specialize (Hst Fexposing).
  unfold updated_value in Hst. simpl in Hst.
  unfold change_events in Hev. simpl in Hev.
  rewrite (truthy_differs_from_False _ Hexp) in Hst, Hev.
  unfold put_event, current in *. simpl in *.
  split; [exact Hst|]. split.
  - rewrite Hev, !completions_app. unfold completions at 2 3. simpl. lia.
  - rewrite Hev, <- app_assoc. reflexivity.
Qed.

(** A turn that no exception ends, on an exposure that is due, is the
    end of the exposure on the monitor the reads have left. *)
Lemma due_exposure_turn coords slewing temp now start duration m :
  fst (try_block coords slewing temp now m) = None ->
  truthy (exposing (current m)) = true ->
  num_of (exposure_start (current m)) = Some start ->
  num_of (exposure_time (current m)) = Some duration ->
  (duration <= now - start)%Q ->
  exists m3,
    steady m m3
    /\ _monitor_loop_turn coords slewing temp now m
       = put_event ExposureComplete
           (_update_state [("exposing", VBool false)] m3).
Proof.
  intros Hok Hexp Hstart Hdur Hdue. unfold _monitor_loop_turn.
  destruct (try_block_cases coords slewing temp now m)
    as [(msg & m1 & E & Hst)|(m3 & E & Hst)];
    rewrite E in *; [discriminate Hok|].
  exists m3. split; [exact Hst|].
  destruct Hst as (_ & He & Hs & Ht & _).
  unfold check_exposure in *. rewrite He, Hexp, Hs, Ht in *.
  unfold elapsed_since, at_least in *. rewrite Hstart, Hdur in *.
  apply Qle_bool_iff in Hdue. by rewrite Hdue in *.
Qed.

End ExposureEndFacts.

(** X12. The end of an exposure is announced once. In a turn that no
    exception ends, on a state that is exposing and whose duration has
    passed on the clock of the turn, the loop sets [exposing] to [False]
    and queues one change event for [exposing] followed by one
    [exposure_complete] event; the state is then not exposing (so by X11
    the later turns announce nothing more). *)
Theorem due_exposure_completes_once
  (coords slewing temp : Poll.read value) (now start duration : Q)
  (m : Monitor.DeviceMonitor) :
  Poll.sound m ->
  fst (Poll.try_block coords slewing temp now m) = None ->
  truthy (Monitor.exposing (Poll.current m)) = true ->
  num_of (Monitor.exposure_start (Poll.current m)) = Some start ->
  num_of (Monitor.exposure_time (Poll.current m)) = Some duration ->
  (duration <= now - start)%Q ->
  let m' := Poll._monitor_loop_turn coords slewing temp now m in
  Monitor.exposing (Poll.current m') = VBool false
  /\ Poll.completions (Monitor.event_queue m')
     = S (Poll.completions (Monitor.event_queue m))
  /\ exists before,
       Monitor.event_queue m'
       = before
         ++ [Monitor.StateChange "exposing"
               (Monitor.exposing (Poll.current m)) (VBool false);
             Monitor.ExposureComplete].
Proof.
  intros Hsound Hok Hexp Hstart Hdur Hdue m'. subst m'.
  destruct (due_exposure_turn coords slewing temp now start duration m
              Hok Hexp Hstart Hdur Hdue) as (m3 & Hst & ->).
  destruct Hst as (Hc & He & _ & _ & Hsnd & _).
  assert (truthy (Monitor.exposing (Poll.current m3)) = true) as Hexp3
    by (by rewrite He).
  destruct (exposure_end_effect m3 (Hsnd Hsound) Hexp3)
    as (Hoff & Hcount & Hqueue).
  split; [exact Hoff|]. split; [by rewrite Hcount, Hc|].
  exists (Monitor.event_queue m3). by rewrite Hqueue, He.
Qed.

Lemma due_exposure_completes_once_witness :
  let m := snd (Monitor.start_exposure (VFloat 2) (VInt 1) 100
                  (Monitor.new_monitor
                     {| respond := fun _ _ => Return (VBool true);
                        history := [] |})) in
  let m' := Poll._monitor_loop_turn (Poll.Got VNone) (Poll.Got (VBool false))
              (Poll.Got VNone) 102 m in
  Monitor.exposing (Poll.current m') = VBool false
  /\ Poll.completions (Monitor.event_queue m')
     = S (Poll.completions (Monitor.event_queue m))
  /\ exists before,
       Monitor.event_queue m'
       = before
         ++ [Monitor.StateChange "exposing"
               (Monitor.exposing (Poll.current m)) (VBool false);
             Monitor.ExposureComplete].
Proof.
  apply (due_exposure_completes_once (Poll.Got VNone) (Poll.Got (VBool false))
           (Poll.Got VNone) 102 100 2
           (snd (Monitor.start_exposure (VFloat 2) (VInt 1) 100
                   (Monitor.new_monitor
                      {| respond := fun _ _ => Return (VBool true);
                         history := [] |})))).
  - by exists (Monitor.setattr
                 (Monitor.setattr
                    (Monitor.setattr Monitor.default_state Monitor.Fexposing
                       (VBool true))
                    Monitor.Fexposure_time (VFloat 2))
                 Monitor.Fexposure_start (VFloat 100)).
  - reflexivity.
  - reflexivity.
  - reflexivity.
  - reflexivity.
  - vm_compute. discriminate.
Defined.

(** X13. Whatever ends the [try] block of a turn with an exception (a
    read of the device that raises, coordinates that are no dictionary,
    exposure fields that are no numbers), the turn leaves the state
    marked as not connected and its [error] field holding the text of
    that exception. *)
Theorem failed_turn_marks_disconnected
  (coords slewing temp : Poll.read value) (now : Q)
  (m : Monitor.DeviceMonitor) (msg : string) :
  Poll.sound m ->
  fst (Poll.try_block coords slewing temp now m) = Some msg ->
  let m' := Poll._monitor_loop_turn coords slewing temp now m in
  truthy (Monitor.connected (Poll.current m')) = false
  /\ Monitor.error (Poll.current m') = VStr msg.
Proof.
  intros Hsound Hfail m'. subst m'. unfold Poll._monitor_loop_turn.
  pose proof (try_block_sound coords slewing temp now m Hsound) as Hs1.
  destruct (Poll.try_block coords slewing temp now m) as [[msg'|] m1];
    simpl in *; [|discriminate]. injection Hfail as ->.
  assert (List.NoDup (map fst [("connected", VBool false); ("error", VStr msg)]))
    as Hnd by (repeat constructor; simpl; intuition discriminate).
  destruct (update_state_current _ m1 Hnd Hs1) as [Hst _].
  pose proof (Hst Monitor.Fconnected) as Hconn.
  pose proof (Hst Monitor.Ferror) as Herr.
  unfold Monitor.updated_value, py_ne in Hconn, Herr. simpl in Hconn, Herr.
  rewrite Hconn, Herr. split.
  - destruct (py_eq _ (VBool false)) eqn:E; simpl;
      [by apply equal_to_False_is_falsy|reflexivity].
  - destruct (py_eq _ (VStr msg)) eqn:E; simpl;
      [by apply equal_to_str|reflexivity].
Qed.

Lemma failed_turn_marks_disconnected_witness :
  let m := Monitor._update_state [("connected", VBool true)]
             (Monitor.new_monitor Scenario.quiet_api) in
  let m' := Poll._monitor_loop_turn (Poll.Got (VStr "busy"))
              (Poll.Got (VBool false)) (Poll.Got VNone) 100 m in
  truthy (Monitor.connected (Poll.current m')) = false
  /\ Monitor.error (Poll.current m')
     = VStr "'str' object has no attribute 'get'".
Proof.
  apply (failed_turn_marks_disconnected (Poll.Got (VStr "busy"))
           (Poll.Got (VBool false)) (Poll.Got VNone) 100
           (Monitor._update_state [("connected", VBool true)]
              (Monitor.new_monitor Scenario.quiet_api))
           "'str' object has no attribute 'get'").
  - by exists (Monitor.setattr Monitor.default_state Monitor.Fconnected
                 (VBool true)).
  - reflexivity.
Defined.

(** X14. Only an exception makes the loop mark the device as not
    connected: a turn that no exception ends leaves a connected device
    connected, also when every read comes back empty ([None] for the
    coordinates and the temperature). *)
Theorem quiet_turn_keeps_connected
  (coords slewing temp : Poll.read value) (now : Q)
  (m : Monitor.DeviceMonitor) :
  Poll.sound m ->
  fst (Poll.try_block coords slewing temp now m) = None ->
  truthy (Monitor.connected (Poll.current m)) = true ->
  truthy (Monitor.connected
            (Poll.current (Poll._monitor_loop_turn coords slewing temp now m)))
  = true.
Proof.
  intros Hsound Hok Hconn. unfold Poll._monitor_loop_turn.
  destruct (try_block_cases coords slewing temp now m)
    as [(msg & m1 & E & Hst)|(m3 & E & Hst)];
    rewrite E in *; [discriminate Hok|].
  destruct Hst as (_ & _ & _ & _ & _ & Hkeep).
  specialize (Hkeep Hsound Hconn).
  unfold Poll.check_exposure in *.
  destruct (truthy (Monitor.exposing (Poll.current m3))); [|exact Hkeep].
  destruct (Poll.elapsed_since _ _) as [el|msg]; [|discriminate Hok].
  destruct (Poll.at_least _ _) as [[|]|msg]; [|exact Hkeep|discriminate Hok].
  pose proof (update_state_other [("exposing", VBool false)] m3
                Monitor.Fconnected) as Hother.
  cbn [snd].
  change (Poll.current (Poll.put_event Monitor.ExposureComplete
            (Monitor._update_state [("exposing", VBool false)] m3)))
    with (Poll.current (Monitor._update_state [("exposing", VBool false)] m3)).
  cbn [Monitor.getattr] in Hother.
  rewrite Hother by (simpl; intuition discriminate). exact Hkeep.
Qed.

Lemma quiet_turn_keeps_connected_witness :
  let m := Monitor._update_state [("connected", VBool true)]
             (Monitor.new_monitor Scenario.quiet_api) in
  truthy (Monitor.connected
            (Poll.current
               (Poll._monitor_loop_turn (Poll.Got VNone)
                  (Poll.Got (VBool false)) (Poll.Got VNone) 100 m)))
  = true.
Proof.
  apply (quiet_turn_keeps_connected (Poll.Got VNone) (Poll.Got (VBool false))
           (Poll.Got VNone) 100
           (Monitor._update_state [("connected", VBool true)]
              (Monitor.new_monitor Scenario.quiet_api))).
  - by exists (Monitor.setattr Monitor.default_state Monitor.Fconnected
                 (VBool true)).
  - reflexivity.
  - reflexivity.
Defined.

(** ** The response cache, from store to lookup *)

Section CacheRoundTrip.
Import Performance.

Lemma Qlt_bool_iff a b : Recovery.Qlt_bool a b = true <-> (a < b)%Q.
Proof. unfold Recovery.Qlt_bool. apply (Qgt_bool_iff b a). Qed.

Lemma dict_get_app_fresh {A} key (x : A) (l : list (string * A)) :
  ~ In key (map fst l) -> dict_get key (l ++ [(key, x)]) = Some x.
Proof.
  induction l as [|[k v] l IH]; simpl; intros Hnotin.
  - by rewrite String.eqb_refl.
  - destruct (String.eqb_spec key k) as [->|_].
    + exfalso. apply Hnotin. by left.
    + apply IH. intros Hin. apply Hnotin. by right.
Qed.

(** Storing a key leaves no older entry with that key. *)
Lemma cache_setitem_lookup key v now (c : TTLCache) :
  dict_get key (cache_setitem key v now c) = Some ((now + ttl)%Q, v).
Proof.
  unfold cache_setitem. apply dict_get_app_fresh.
  set (others := filter (fun e : string * (Q * value) => fst e <> key) _).
  assert (forall e, e ∈ others -> fst e <> key) as Hothers.
  { intros e He. subst others. by apply list_elem_of_filter in He as [He _]. }
  intros Hin. apply in_map_iff in Hin as (e & Hkey & Hin).
  apply (Hothers e); [|exact Hkey].
  destruct (decide (maxsize <= length others)%nat).
  - apply list_elem_of_In in Hin. by eapply subseteq_drop.
  - by apply list_elem_of_In.
Qed.

End CacheRoundTrip.

(** X15. A response stored for a cacheable method is found again by a
    lookup with the same method and parameters for as long as the time to
    live has not run out (strictly less than [ttl] after the store), and
    the lookup counts as a hit; from [ttl] on the lookup finds nothing
    and counts as a miss. *)
Theorem stored_response_found_until_ttl
  (method : string) (params response : value) (stored now : Q)
  (cm : Performance.CacheManager) :
  Performance.cacheable method = true ->
  let cm1 := Performance.cache_response method params response stored cm in
  let r := Performance.get_cached_response method params now cm1 in
  fst r
  = (if Recovery.Qlt_bool now (stored + Performance.ttl) then response
     else VNone)
  /\ Performance.get_stats (snd r)
     = (if Recovery.Qlt_bool now (stored + Performance.ttl)
        then (Performance.hits cm + 1, Performance.misses cm)
        else (Performance.hits cm, Performance.misses cm + 1))
  /\ Performance.response_cache (snd r) = Performance.response_cache cm1.
Proof.
  intros Hc cm1 r. subst r cm1.
  unfold Performance.get_cached_response, Performance.cache_response.
  rewrite Hc. simpl.
  unfold Performance.cache_contains, Performance.cache_getitem.
  rewrite cache_setitem_lookup.
  by destruct (Recovery.Qlt_bool now (stored + Performance.ttl)).
Qed.

Lemma stored_response_found_until_ttl_witness :
  let cm1 := Performance.cache_response "get_temperature" (VDict [])
               (VFloat 21) 10 Performance.new_cache in
  let r := Performance.get_cached_response "get_temperature" (VDict [])
             (139 # 2) cm1 in
  fst r = VFloat 21
  /\ Performance.get_stats (snd r) = (1, 0)
  /\ Performance.response_cache (snd r) = Performance.response_cache cm1.
Proof.
  apply (stored_response_found_until_ttl "get_temperature" (VDict [])
           (VFloat 21) 10 (139 # 2) Performance.new_cache).
  reflexivity.
Defined.

(** ** Cache statistics *)

Section CacheStatsFacts.
Import Performance CacheOps.

Lemma apply_op_tallied n cm op :
  tallied n cm -> tallied (counted n op) (apply_op cm op).
Proof.
  intros (Hh & Hm & Hn). destruct op as [method params now| |]; simpl.
  - unfold get_cached_response.
    destruct (cacheable method); simpl; [|by repeat split].
    destruct (cache_contains _ _ _); simpl; unfold tallied; simpl; lia.
  - unfold cache_response. destruct (cacheable method); by repeat split.
  - by repeat split.
Qed.

Lemma run_tallied ops : forall n cm,
  tallied n cm -> tallied (fold_left counted ops n) (run ops cm).
Proof.
  induction ops as [|op ops IH]; intros n cm H; [exact H|].
  simpl. apply IH, apply_op_tallied, H.
Qed.

Lemma hit_rate_bounds n cm : tallied n cm -> (0 <= hit_rate cm <= 1)%Q.
Proof.
  intros (Hh & Hm & _). unfold hit_rate.
  destruct (Z.ltb_spec 0 (hits cm + misses cm)) as [Hpos|_].
  2: { split; [apply Qle_refl|]. vm_compute. discriminate. }
  assert (0 < inject_Z (hits cm + misses cm))%Q as Hq
    by (by rewrite <- (Zlt_Qlt 0)).
  split.
  - apply Qle_shift_div_l; [exact Hq|].
    rewrite Qmult_0_l. by rewrite <- (Zle_Qle 0).
  - apply Qle_shift_div_r; [exact Hq|].
    rewrite Qmult_1_l. rewrite <- Zle_Qle. lia.
Qed.

End CacheStatsFacts.

(** X16. Whatever is done to a cache manager (lookups, stores, clears),
    its two counters are never negative, they add up to the number of
    lookups of cacheable methods since the last clear, and the hit rate
    it reports lies between 0 and 1. *)
Theorem cache_counters_tally_lookups (ops : list CacheOps.cache_op) :
  let cm := CacheOps.run ops Performance.new_cache in
  0 <= Performance.hits cm
  /\ 0 <= Performance.misses cm
  /\ Performance.hits cm + Performance.misses cm
     = fold_left CacheOps.counted ops 0
  /\ (0 <= CacheOps.hit_rate cm <= 1)%Q.
Proof.
  intros cm.
  assert (CacheOps.tallied (fold_left CacheOps.counted ops 0) cm) as H.
  { apply run_tallied. by repeat split. }
  pose proof (hit_rate_bounds _ cm H) as Hb.
  destruct H as (Hh & Hm & Hn). destruct Hb as [Hb0 Hb1].
  split; [exact Hh|]. split; [exact Hm|]. split; [exact Hn|].
  split; [exact Hb0|exact Hb1].
Qed.

(** ** The cache key *)

Section CacheKeyFacts.
Import Performance CacheOps.

Lemma leb_le_iff a b : String.leb a b = true <-> a = b \/ OrderedTypeEx.String_as_OT.lt a b.
Proof.
  unfold String.leb. split.
  - destruct (String.compare a b) eqn:E; [left|right|discriminate].
    + by apply OrderedTypeEx.String_as_OT.cmp_eq.
    + by apply OrderedTypeEx.String_as_OT.cmp_lt.
  - intros [->|H].
    + assert (String.compare b b = Eq) as -> by (by apply OrderedTypeEx.String_as_OT.cmp_eq).
      reflexivity.
    + apply OrderedTypeEx.String_as_OT.cmp_lt in H. unfold OrderedTypeEx.String_as_OT.cmp in H.
      by rewrite H.
Qed.

Lemma leb_trans a b c :
  String.leb a b = true -> String.leb b c = true -> String.leb a c = true.
Proof.
  rewrite !leb_le_iff. intros [->|Hab] [->|Hbc]; auto.
  right. by apply (OrderedTypeEx.String_as_OT.lt_trans a b c).
Qed.

Lemma insert_sorted_perm kv l : Permutation (insert_sorted kv l) (kv :: l).
Proof.
  induction l as [|kv' l IH]; simpl; [reflexivity|].
  destruct (String.leb (fst kv) (fst kv')); [reflexivity|].
  rewrite IH. apply perm_swap.
Qed.

Lemma sort_items_perm l : Permutation (sort_items l) l.
Proof.
  induction l as [|kv l IH]; simpl; [reflexivity|].
  rewrite insert_sorted_perm. by constructor.
Qed.

Lemma insert_sorted_sorted kv l :
  StronglySorted key_le l -> StronglySorted key_le (insert_sorted kv l).
Proof.
  induction 1 as [|kv' l Hs IH Hall]; simpl.
  - repeat constructor.
  - destruct (String.leb (fst kv) (fst kv')) eqn:E.
    + constructor; [by constructor|].
      constructor; [exact E|].
      eapply List.Forall_impl; [|exact Hall].
      intros x Hx. unfold key_le in *. by eapply leb_trans.
    + constructor; [exact IH|].
      rewrite insert_sorted_perm.
      constructor; [|exact Hall].
      unfold key_le.
      destruct (String.leb_total (fst kv) (fst kv')); [congruence|assumption].
Qed.

Lemma sort_items_sorted l : StronglySorted key_le (sort_items l).
Proof.
  induction l as [|kv l IH]; simpl; [constructor|].
  by apply insert_sorted_sorted.
Qed.

Lemma rendered_go items :
  (fix go (l : list (string * value)) : list (string * string) :=
     match l with
     | [] => []
     | (k, w) :: l' => (k, json_dumps w) :: go l'
     end) items = rendered items.
Proof.
  induction items as [|[k w] items IH]; simpl; [reflexivity|].
  by rewrite IH.
Qed.

(** Entries with distinct keys have one sorted order. *)
Lemma sort_items_unique (l1 l2 : list (string * string)) :
  List.NoDup (map fst l1) -> Permutation l1 l2 ->
  sort_items l1 = sort_items l2.
Proof.
  intros Hnd Hperm.
  apply (StronglySorted_unique_strong key_le);
    [|apply sort_items_sorted|apply sort_items_sorted|].
  - intros x1 x2 Hx1 Hx2 H12 H21.
    assert (fst x1 = fst x2) as Hkey by (by apply String.leb_antisym).
    assert (In x1 l1) as Hin1.
    { apply list_elem_of_In. by rewrite <- (sort_items_perm l1). }
    assert (In x2 l1) as Hin2.
    { apply list_elem_of_In. by rewrite Hperm, <- (sort_items_perm l2). }
    clear -Hnd Hkey Hin1 Hin2.
    induction l1 as [|y l1 IH]; [contradiction|].
    simpl in Hnd. apply List.NoDup_cons_iff in Hnd as [Hnotin Hnd].
    destruct Hin1 as [->|Hin1], Hin2 as [->|Hin2]; [reflexivity| | |by apply IH].
    + exfalso. apply Hnotin. rewrite Hkey. by apply in_map.
    + exfalso. apply Hnotin. rewrite <- Hkey. by apply in_map.
  - by rewrite !sort_items_perm.
Qed.

End CacheKeyFacts.

(** X17. The cache key does not depend on the order in which the
    parameters of a request are written: two parameter dictionaries with
    the same entries in a different order give the same key, so they
    share one cache entry. *)
Theorem cache_key_ignores_order_of_params
  (method : string) (items items' : list (string * value)) :
  List.NoDup (map fst items) ->
  Permutation items items' ->
  Performance._make_cache_key method (VDict items)
  = Performance._make_cache_key method (VDict items').
Proof.
  intros Hnd Hperm. unfold Performance._make_cache_key.
  do 2 f_equal. cbn [Performance.json_dumps].
  rewrite !rendered_go.
  rewrite (sort_items_unique (CacheOps.rendered items)
             (CacheOps.rendered items')); [reflexivity| |].
  - unfold CacheOps.rendered. rewrite map_map. simpl. exact Hnd.
  - unfold CacheOps.rendered. by apply Permutation_map.
Qed.

Lemma cache_key_ignores_order_of_params_witness :
  Performance._make_cache_key "get_coordinates"
    (VDict [("epoch", VStr "j2000"); ("axis", VInt 2)])
  = Performance._make_cache_key "get_coordinates"
      (VDict [("axis", VInt 2); ("epoch", VStr "j2000")]).
Proof.
  apply (cache_key_ignores_order_of_params "get_coordinates"
           [("epoch", VStr "j2000"); ("axis", VInt 2)]
           [("axis", VInt 2); ("epoch", VStr "j2000")]).
  - repeat constructor; simpl; intuition discriminate.
  - apply perm_swap.
Defined.

(** ** Response compressor *)

(** X18. Compression never makes a payload longer, whatever the
    compression library does: what [compress] gives back is either the
    data itself, flagged as not compressed, or strictly shorter bytes
    flagged as compressed, and the latter only for data of at least the
    threshold length. *)
Theorem compress_never_lengthens
  (gzip : Compressor.bytes -> result Compressor.bytes) (threshold : nat)
  (data : Compressor.bytes) :
  let r := Compressor.compress gzip threshold data in
  (length (fst r) <= length data)%nat
  /\ (if snd r
      then (length (fst r) < length data)%nat
           /\ (threshold <= length data)%nat
           /\ gzip data = Return (fst r)
      else fst r = data).
Proof.
  intros r. subst r. unfold Compressor.compress.
  destruct (Nat.ltb_spec (length data) threshold); simpl; [by split|].
  destruct (gzip data) as [compressed|e]; simpl; [|by split].
  destruct (Nat.ltb_spec (length compressed) (length data)); simpl.
  - split; [lia|]. by repeat split.
  - by split.
Qed.

(** X19. Compressing and decompressing gives the data back: if the
    compression library restores what it compressed for this payload,
    then [decompress] applied to the result of [compress] (bytes and
    flag) returns the original data, whether the payload was compressed
    or passed through. *)
Theorem decompress_compress_round_trip
  (gzip gunzip : Compressor.bytes -> result Compressor.bytes)
  (threshold : nat) (data : Compressor.bytes) :
  (forall compressed, gzip data = Return compressed ->
                      gunzip compressed = Return data) ->
  let r := Compressor.compress gzip threshold data in
  Compressor.decompress gunzip (fst r) (snd r) = data.
Proof.
  intros Hinv r. subst r. unfold Compressor.compress, Compressor.decompress.
  destruct (Nat.ltb (length data) threshold); [reflexivity|].
  destruct (gzip data) as [compressed|e] eqn:E; [|reflexivity].
  destruct (Nat.ltb (length compressed) (length data)); [|reflexivity].
  simpl. by rewrite (Hinv compressed eq_refl).
Qed.

Lemma decompress_compress_round_trip_witness :
  let data := [Byte.x61; Byte.x61; Byte.x61; Byte.x61] in
  let gzip := fun _ : Compressor.bytes => Return [Byte.x04; Byte.x61] in
  let gunzip := fun _ : Compressor.bytes => Return data in
  Compressor.compress gzip 2 data = ([Byte.x04; Byte.x61], true)
  /\ Compressor.decompress gunzip
       (fst (Compressor.compress gzip 2 data))
       (snd (Compressor.compress gzip 2 data)) = data.
Proof.
  split; [reflexivity|].
  apply (decompress_compress_round_trip
           (fun _ => Return [Byte.x04; Byte.x61])
           (fun _ => Return [Byte.x61; Byte.x61; Byte.x61; Byte.x61])
           2 [Byte.x61; Byte.x61; Byte.x61; Byte.x61]).
  reflexivity.
Defined.

(** ** The HTTP client *)

Section ClientFacts.
Import Client.

Lemma update_cache_in_sync key v t api :
  in_sync api -> in_sync (_update_cache key v t api).
Proof.
  intros Hsync key' t'. unfold _update_cache; simpl.
  destruct (String.eqb_spec key' key) as [->|Hne].
  - intros _. exists v. apply dict_get_set_eq.
  - rewrite !dict_get_set_ne by exact Hne. apply Hsync.
Qed.

Lemma serve_in_sync api rq : in_sync api -> in_sync (serve api rq).
Proof.
  intros Hsync. unfold serve, send_command.
  destruct (use_cache rq && _is_cache_valid _ _ api); [exact Hsync|].
  destruct (server rq (action rq) (parameters rq)); [|exact Hsync].
  simpl. destruct (use_cache rq); [|exact Hsync].
  by apply update_cache_in_sync.
Qed.

Lemma fold_serve_in_sync requests : forall api,
  in_sync api -> in_sync (fold_left serve requests api).
Proof.
  induction requests as [|rq rest IH]; intros api H; [exact H|].
  simpl. apply IH, serve_in_sync, H.
Qed.

End ClientFacts.

(** X20. A response that a cached request has just fetched is served
    again, without asking the device, to every identical cached request
    made strictly less than half a second after it was stored; from half
    a second on the request goes to the device again (and a failure then
    gives [None] and keeps the old entry). *)
Theorem cached_response_served_for_half_a_second
  (action : string) (parameters body : value) (asked stored now later : Q)
  (first again : Client.Server) (api : Client.SeestarAPI) :
  Client._is_cache_valid (Client.cache_key action parameters) asked api = false ->
  first action parameters = Client.HttpJson body ->
  let api1 := snd (Client.send_command action parameters true asked stored
                     first api) in
  Client.send_command action parameters true now later again api1
  = if Recovery.Qlt_bool (now - stored) Client._cache_timeout
    then (Return body, api1)
    else match again action parameters with
         | Client.HttpJson body' =>
             (Return body',
              Client._update_cache (Client.cache_key action parameters)
                body' later api1)
         | Client.HttpFailed => (Return VNone, api1)
         end.
Proof.
  intros Hstale Hfirst api1.
  assert (api1 = Client._update_cache (Client.cache_key action parameters)
                   body stored api) as ->.
  { subst api1. unfold Client.send_command.
    by rewrite Hstale, Hfirst, andb_false_r. }
  unfold Client.send_command, Client._is_cache_valid. simpl.
  rewrite dict_get_set_eq.
  destruct (Recovery.Qlt_bool (now - stored) Client._cache_timeout); simpl.
  - by rewrite dict_get_set_eq.
  - reflexivity.
Qed.

Lemma cached_response_served_for_half_a_second_witness :
  let body := VDict [("Value", VDict [("result", VInt 7)])] in
  let first : Client.Server := fun _ _ => Client.HttpJson body in
  let again : Client.Server := fun _ _ => Client.HttpFailed in
  let api1 := snd (Client.send_command "method_sync" (VDict []) true 10
                     (41 # 4) first Client.new_client) in
  Client.send_command "method_sync" (VDict []) true (21 # 2) 11 again api1
  = (Return body, api1).
Proof.
  apply (cached_response_served_for_half_a_second "method_sync" (VDict [])
           (VDict [("Value", VDict [("result", VInt 7)])]) 10 (41 # 4)
           (21 # 2) 11
           (fun _ _ => Client.HttpJson
                         (VDict [("Value", VDict [("result", VInt 7)])]))
           (fun _ _ => Client.HttpFailed) Client.new_client);
    reflexivity.
Defined.

(** X21. The two dictionaries of the client cache stay in step: after
    any sequence of requests on a new client, a request never fails on
    the lookup of a cached response, it always returns (a response or
    [None]). *)
Theorem send_command_always_returns
  (requests : list Client.request) (rq : Client.request) :
  let api := fold_left Client.serve requests Client.new_client in
  exists v,
    fst (Client.send_command (Client.action rq) (Client.parameters rq)
           (Client.use_cache rq) (Client.now rq) (Client.later rq)
           (Client.server rq) api)
    = Return v.
Proof.
  intros api.
  assert (Client.in_sync api) as Hsync.
  { apply fold_serve_in_sync. intros key t H. discriminate H. }
  unfold Client.send_command.
  destruct (Client.use_cache rq && Client._is_cache_valid _ _ api) eqn:E.
  - apply andb_true_iff in E as [_ E]. unfold Client._is_cache_valid in E.
    destruct (dict_get _ (Client._last_cache_time api)) as [t|] eqn:Ht;
      [|discriminate].
    destruct (Hsync _ t Ht) as [v Hv]. exists v. simpl. by rewrite Hv.
  - destruct (Client.server rq _ _); simpl; eauto.
Qed.

(** X22. A device that cannot be reached never makes the client raise:
    with every request failing and nothing fresh in the cache, the reads
    give [None] (coordinates) and [False] (slewing), the commands give
    [False], and the cache is left as it was. *)
Theorem unreachable_device_gives_none_and_false
  (position : value) (now later : Q) (server : Client.Server)
  (api : Client.SeestarAPI) :
  (forall action parameters, server action parameters = Client.HttpFailed) ->
  (forall key, Client._is_cache_valid key now api = false) ->
  Client.get_coordinates now later server api = (Return VNone, api)
  /\ Client.is_slewing now later server api = (Return (VBool false), api)
  /\ Client.abort_exposure now later server api = (Return (VBool false), api)
  /\ Client.start_autofocus now later server api = (Return (VBool false), api)
  /\ Client.move_filter position now later server api
     = (Return (VBool false), api).
Proof.
  intros Hdown Hstale.
  unfold Client.get_coordinates, Client.is_slewing, Client.abort_exposure,
    Client.start_autofocus, Client.move_filter, Client.read_value,
    Client.is_not_none, Client.send_command.
  rewrite !Hstale, !Hdown. simpl. by repeat split.
Qed.

Lemma unreachable_device_gives_none_and_false_witness :
  let down : Client.Server := fun _ _ => Client.HttpFailed in
  Client.get_coordinates 5 6 down Client.new_client
    = (Return VNone, Client.new_client)
  /\ Client.is_slewing 5 6 down Client.new_client
     = (Return (VBool false), Client.new_client)
  /\ Client.abort_exposure 5 6 down Client.new_client
     = (Return (VBool false), Client.new_client)
  /\ Client.start_autofocus 5 6 down Client.new_client
     = (Return (VBool false), Client.new_client)
  /\ Client.move_filter (VInt 2) 5 6 down Client.new_client
     = (Return (VBool false), Client.new_client).
Proof.
  apply (unreachable_device_gives_none_and_false (VInt 2) 5 6
           (fun _ _ => Client.HttpFailed) Client.new_client);
    reflexivity.
Defined.

(** ** Health checks *)

Section HealthFacts.
Import Health.

Lemma record_status_keep_last (past : list HealthStatus) st :
  record_status (keep_last max_history past) st
  = keep_last max_history (past ++ [st]).
Proof.
  unfold record_status, keep_last.
  rewrite !length_app, length_drop. cbn [length].
  set (k := (length past - max_history)%nat).
  assert (k <= length past)%nat as Hk by (subst k; lia).
  destruct (Nat.ltb_spec max_history (length past - k + 1)) as [Hover|Hfits].
  - replace (length past + 1 - max_history)%nat with (k + 1)%nat
      by (subst k; lia).
    rewrite <- (drop_drop (past ++ [st]) 1 k).
    rewrite (drop_app_le past [st] k Hk).
    by destruct (drop k past ++ [st]).
  - replace (length past + 1 - max_history)%nat with k by (subst k; lia).
    by rewrite (drop_app_le past [st] k Hk).
Qed.

Lemma fold_record_status_keep_last sts : forall past : list HealthStatus,
  fold_left record_status sts (keep_last max_history past)
  = keep_last max_history (past ++ sts).
Proof.
  induction sts as [|st sts IH]; intros past; simpl.
  - by rewrite app_nil_r.
  - rewrite record_status_keep_last, IH, <- app_assoc. reflexivity.
Qed.

Lemma run_round_keep_last (past : list HealthStatus) r :
  run_round {| health_history := keep_last max_history past |} r
  = {| health_history :=
         keep_last max_history
           (past ++ map snd (checks (fst (fst r)) (snd (fst r)) (snd r))) |}.
Proof.
  unfold run_round, check_health. cbn [snd health_history]. f_equal.
  apply fold_record_status_keep_last.
Qed.

Lemma fold_run_round_keep_last rounds : forall past : list HealthStatus,
  health_history
    (fold_left run_round rounds
       {| health_history := keep_last max_history past |})
  = keep_last max_history (past ++ produced rounds).
Proof.
  induction rounds as [|r rounds IH]; intros past; cbn [fold_left].
  - unfold produced. simpl. by rewrite app_nil_r.
  - rewrite run_round_keep_last, IH. unfold produced. cbn [flat_map].
    by rewrite <- app_assoc.
Qed.

Lemma keep_last_length {A} n (l : list A) : (length (keep_last n l) <= n)%nat.
Proof. unfold keep_last. rewrite length_drop. lia. Qed.

End HealthFacts.

(** X23. The history of the health checker is bounded: after any number
    of rounds of checks it holds the statuses these rounds produced,
    oldest first, cut down to the last hundred. *)
Theorem health_history_keeps_last_hundred (rounds : list Health.round) :
  let hc := fold_left Health.run_round rounds Health.new_checker in
  Health.health_history hc
    = Health.keep_last Health.max_history (Health.produced rounds)
  /\ (length (Health.health_history hc) <= Health.max_history)%nat.
Proof.
  intros hc. subst hc.
  pose proof (fold_run_round_keep_last rounds []) as H.
  change {| Health.health_history := Health.keep_last Health.max_history [] |}
    with Health.new_checker in H.
  simpl in H. rewrite H. split; [reflexivity|]. apply keep_last_length.
Qed.

Section OverallFacts.
Import Health.

Lemma api_status_cases rd :
  status (_check_api_health rd) = "healthy"
  \/ status (_check_api_health rd) = "degraded"
  \/ status (_check_api_health rd) = "unhealthy".
Proof.
  unfold _check_api_health. destruct (answer rd); [|by right; right].
  destruct (Recovery.Qgt_bool _ _); [by right; left|by left].
Qed.

Lemma device_status_cases rd state :
  status (_check_device_health rd state) = "healthy"
  \/ status (_check_device_health rd state) = "degraded"
  \/ status (_check_device_health rd state) = "unhealthy".
Proof.
  unfold _check_device_health; simpl.
  destruct (truthy (Monitor.connected state)); simpl; [|by right; right].
  destruct (truthy (Monitor.error state)); [by right; left|by left].
Qed.

Lemma performance_status_cases rd po :
  status (_check_performance_health rd po) = "healthy"
  \/ status (_check_performance_health rd po) = "degraded".
Proof.
  unfold _check_performance_health.
  destruct (Recovery.Qlt_bool _ _); [by right|by left].
Qed.

Lemma system_status_cases rd :
  status (_check_system_health rd) = "healthy"
  \/ status (_check_system_health rd) = "degraded".
Proof.
  unfold _check_system_health.
  destruct (_ || _); [by right|by left].
Qed.

Lemma overall_status_value rd state po :
  overall_status (checks rd state po)
  = if existsb (fun entry => String.eqb (status (snd entry)) "degraded")
               (checks rd state po)
    then "degraded" else "healthy".
Proof.
  unfold overall_status, checks, py_min.
  cbn [map snd existsb fold_left].
  destruct (api_status_cases rd) as [-> | [-> | ->]];
    destruct (device_status_cases rd state) as [-> | [-> | ->]];
    destruct (performance_status_cases rd po) as [-> | ->];
    destruct (system_status_cases rd) as [-> | ->];
    reflexivity.
Qed.

(** A cache without hits has the rate zero. *)
Lemma hit_rate_without_hits cm :
  Performance.hits cm = 0 ->
  Recovery.Qlt_bool (CacheOps.hit_rate cm) (1 # 2) = true.
Proof.
  intros H. apply Qlt_bool_iff. unfold CacheOps.hit_rate. rewrite H.
  destruct (0 <? 0 + Performance.misses cm); [|reflexivity].
  unfold Qdiv. rewrite Qmult_0_l. reflexivity.
Qed.

End OverallFacts.

(** X24. The overall status of the health report is the alphabetically
    least of the four component statuses. It is "degraded" as soon as one
    component is degraded and "healthy" otherwise: since the performance
    and system checks never say "unhealthy", the report never says
    "unhealthy" overall, not even when the device does not answer and the
    monitor has it as not connected. *)
Theorem overall_status_is_never_unhealthy
  (rd : Health.Readings) (state : Monitor.DeviceState)
  (po : Performance.PerformanceOptimizer) (hc : Health.HealthChecker) :
  let health := fst (Health.check_health rd state po hc) in
  Health.overall_status health
  = (if existsb (fun entry =>
                   String.eqb (Health.status (snd entry)) "degraded") health
     then "degraded" else "healthy")
  /\ Health.overall_status health <> "unhealthy".
Proof.
  intros health. subst health. unfold Health.check_health. cbn [fst].
  rewrite overall_status_value. split; [reflexivity|].
  by destruct (existsb _ _).
Qed.

(** X25. An optimizer that has only served requests through
    [send_request] never has a cache hit, so its hit rate is zero: the
    performance check finds it "degraded" every time, and with it the
    overall status of every health report is "degraded", however well
    the device, the interface and the host are doing. *)
Theorem unfed_cache_keeps_report_degraded
  (requests : list (string * value * Q)) (a : Api)
  (rd : Health.Readings) (state : Monitor.DeviceState)
  (hc : Health.HealthChecker) :
  let po := Performance.run_requests requests (Performance.new_optimizer a) in
  Health.status (Health._check_performance_health rd po) = "degraded"
  /\ Health.overall_status (fst (Health.check_health rd state po hc))
     = "degraded".
Proof.
  intros po.
  destruct (run_requests_empty_cache requests (Performance.new_optimizer a)
              eq_refl) as [_ Hhits].
  fold po in Hhits. simpl in Hhits.
  assert (Health.status (Health._check_performance_health rd po) = "degraded")
    as Hperf.
  { unfold Health._check_performance_health.
    by rewrite (hit_rate_without_hits _ Hhits). }
  split; [exact Hperf|].
  unfold Health.check_health. cbn [fst]. rewrite overall_status_value.
  unfold Health.checks. cbn [existsb snd]. rewrite Hperf. simpl.
  by rewrite !orb_true_r.
Qed.

(** ** An exposure from start to end *)

Section ExposureFacts.
Import Monitor Poll.

(** What compares equal to a number is a number with the same value. *)
Lemma equal_to_number a b y :
  py_eq a b = true -> num_of b = Some y ->
  exists x, num_of a = Some x /\ (x == y)%Q.
Proof.
  intros Heq Hb.
  destruct a as [|ba|na|xa|sa|da], b as [|bb|nb|xb|sb|db];
    simpl in *; try discriminate;
    injection Hb as <-; eexists; (split; [reflexivity|]);
    by apply Qeq_bool_iff.
Qed.

Lemma number_equals_itself v y : num_of v = Some y -> py_eq v v = true.
Proof.
  destruct v; simpl; try discriminate; intros _; apply Qeq_bool_iff;
    reflexivity.
Qed.

End ExposureFacts.

Section ExposureRunFacts.
Import Monitor Poll.

Lemma kept_trans m1 m2 m3 : kept m1 m2 -> kept m2 m3 -> kept m1 m3.
Proof.
  intros (Hc & He & Hs & Ht & Hsnd) (Hc' & He' & Hs' & Ht' & Hsnd').
  unfold kept. rewrite Hc', He', Hs', Ht'. repeat split; try assumption.
  intros H. by apply Hsnd', Hsnd.
Qed.

(** A turn that is too early, or that an exception ends, leaves the
    exposure as it is and announces nothing. *)
Lemma early_turn_kept t start duration m :
  truthy (exposing (current m)) = true ->
  num_of (exposure_start (current m)) = Some start ->
  num_of (exposure_time (current m)) = Some duration ->
  (turn_clock t - start < duration)%Q
  \/ fst (try_block (turn_coords t) (turn_slewing t) (turn_temp t)
            (turn_clock t) m) <> None ->
  kept m (run_turn m t).
Proof.
  intros Hexp Hstart Hdur Hearly. unfold run_turn, _monitor_loop_turn.
  destruct (try_block_cases (turn_coords t) (turn_slewing t) (turn_temp t)
              (turn_clock t) m)
    as [(msg & m1 & E & Hst)|(m3 & E & Hst)]; rewrite E in *.
  - destruct Hst as (Hc & He & Hs & Ht & Hsnd & _). unfold kept.
    rewrite update_state_completions.
    set (updates := [("connected", VBool false); ("error", VStr msg)]).
    pose proof (update_state_other updates m1 Fexposing) as E1.
    pose proof (update_state_other updates m1 Fexposure_start) as E2.
    pose proof (update_state_other updates m1 Fexposure_time) as E3.
    simpl in E1, E2, E3.
    rewrite E1, E2, E3 by intuition discriminate.
    repeat split; try assumption.
    intros H. by apply update_state_sound, Hsnd.
  - destruct Hst as (Hc & He & Hs & Ht & Hsnd & _).
    unfold check_exposure in *. rewrite He, Hexp, Hs, Ht in *.
    unfold elapsed_since, at_least in *. rewrite Hstart, Hdur in *.
    destruct (Qle_bool duration (turn_clock t - start)) eqn:Edue.
    + exfalso. destruct Hearly as [Hlt|Hraised]; [|by apply Hraised].
      apply Qle_bool_iff in Edue. by apply (Qlt_not_le _ _ Hlt).
    + by repeat split.
Qed.

Lemma early_turns_kept start duration turns : forall m,
  truthy (exposing (current m)) = true ->
  num_of (exposure_start (current m)) = Some start ->
  num_of (exposure_time (current m)) = Some duration ->
  before_end start duration turns m ->
  kept m (run_turns turns m).
Proof.
  induction turns as [|t rest IH]; intros m Hexp Hstart Hdur Hrun.
  - by repeat split.
  - destruct Hrun as [Hearly Hrest]. simpl.
    pose proof (early_turn_kept t start duration m Hexp Hstart Hdur Hearly)
      as Hkept.
    apply (kept_trans _ (run_turn m t)); [exact Hkept|].
    destruct Hkept as (_ & He & Hs & Ht & _).
    apply IH; [by rewrite He|by rewrite Hs|by rewrite Ht|exact Hrest].
Qed.

Lemma before_end_equal started started' duration duration' turns : forall m,
  (started == started')%Q -> (duration == duration')%Q ->
  before_end started duration turns m ->
  before_end started' duration' turns m.
Proof.
  induction turns as [|t rest IH]; intros m Es Ed; [trivial|].
  simpl. intros [Hearly Hrest]. split; [|by apply IH].
  destruct Hearly as [Hlt|Hraised]; [left|by right].
  by rewrite <- Es, <- Ed.
Qed.

End ExposureRunFacts.

(** X26. An exposure runs from its start to exactly one announced end.
    When the device accepts [start_exposure] at time [started] for a
    duration that is a number, the monitor returns [True] and shows the
    state as exposing without announcing anything. Through the turns of
    the polling loop that follow, as long as each of them is too early on
    its clock or is ended by an exception, the state stays exposing and
    nothing is announced. The first turn after them that no exception
    ends and whose clock is at least the duration past [started] shows
    the state as not exposing and announces one [exposure_complete]. *)
Theorem exposure_runs_to_one_completion
  (duration gain answer : value) (d started : Q)
  (early : list Poll.Turn) (due : Poll.Turn) (m : Monitor.DeviceMonitor) :
  Poll.sound m ->
  fst (invoke (StartExposure duration gain) (Monitor.api m)) = Return answer ->
  truthy answer = true ->
  num_of duration = Some d ->
  let r := Monitor.start_exposure duration gain started m in
  Poll.before_end started d early (snd r) ->
  let waiting := Poll.run_turns early (snd r) in
  fst (Poll.try_block (Poll.turn_coords due) (Poll.turn_slewing due)
         (Poll.turn_temp due) (Poll.turn_clock due) waiting) = None ->
  (d <= Poll.turn_clock due - started)%Q ->
  let m' := Poll.run_turn waiting due in
  fst r = Return true
  /\ truthy (Monitor.exposing (Poll.current (snd r))) = true
  /\ Poll.completions (Monitor.event_queue (snd r))
     = Poll.completions (Monitor.event_queue m)
  /\ truthy (Monitor.exposing (Poll.current waiting)) = true
  /\ Poll.completions (Monitor.event_queue waiting)
     = Poll.completions (Monitor.event_queue m)
  /\ Monitor.exposing (Poll.current m') = VBool false
  /\ Poll.completions (Monitor.event_queue m')
     = S (Poll.completions (Monitor.event_queue m)).
Proof.
  intros Hsound Hanswer Htruthy Hnum r.
  assert (r = (Return true,
               Monitor._update_state
                 [("exposing", VBool true); ("exposure_time", duration);
                  ("exposure_start", VFloat started); ("gain", gain)]
                 (Monitor.with_api
                    (snd (invoke (StartExposure duration gain) (Monitor.api m)))
                    m))) as ->.
  { subst r. unfold Monitor.start_exposure, Monitor.guarded.
    unfold invoke in *. simpl in *. by rewrite Hanswer, Htruthy. }
  cbn [fst snd].
  set (updates := [("exposing", VBool true); ("exposure_time", duration);
                   ("exposure_start", VFloat started); ("gain", gain)]).
  set (m0 := Monitor.with_api _ m).
  assert (Poll.sound m0) as Hsound0 by exact Hsound.
  assert (Poll.current m0 = Poll.current m) as Hcur by reflexivity.
  set (m1 := Monitor._update_state updates m0).
  assert (List.NoDup (map fst updates)) as Hnd
    by (repeat constructor; simpl; intuition discriminate).
  destruct (update_state_current updates m0 Hnd Hsound0) as [Hst _].
  fold m1 in Hst.
  assert (forall key v f, In (key, v) updates ->
            Monitor.field_of_name key = Some f -> py_eq v v = true ->
            py_eq (Monitor.getattr (Poll.current m1) f) v = true) as Hreached.
  { intros key v f Hin Hf Hrefl. rewrite Hst.
    by apply (updated_value_equal _ updates key v f). }
  pose proof (Hreached "exposing" (VBool true) Monitor.Fexposing
                (or_introl eq_refl) eq_refl eq_refl) as Hexp.
  pose proof (Hreached "exposure_time" duration Monitor.Fexposure_time
                (or_intror (or_introl eq_refl)) eq_refl
                (number_equals_itself _ _ Hnum)) as Htime.
  pose proof (Hreached "exposure_start" (VFloat started)
                Monitor.Fexposure_start
                (or_intror (or_intror (or_introl eq_refl))) eq_refl
                (number_equals_itself (VFloat started) started eq_refl))
    as Hstart.
  cbn [Monitor.getattr] in Hexp, Htime, Hstart.
  apply equal_to_True_is_truthy in Hexp.
  destruct (equal_to_number _ _ d Htime Hnum) as (d' & Hd' & Ed).
  destruct (equal_to_number _ (VFloat started) started Hstart eq_refl)
    as (s' & Hs' & Es).
  intros Hearly Hquiet Hdue.
  set (waiting := Poll.run_turns early m1) in *.
  assert (Poll.completions (Monitor.event_queue m1)
          = Poll.completions (Monitor.event_queue m)) as Hsame.
  { subst m1. by rewrite update_state_completions. }
  assert (Poll.kept m1 waiting) as Hkept.
  { apply (early_turns_kept s' d' early m1 Hexp Hs' Hd').
    apply (before_end_equal started s' d d'); try assumption;
      by symmetry. }
  destruct Hkept as (Hcw & Hew & Hsw & Htw & Hsndw).
  assert (truthy (Monitor.exposing (Poll.current waiting)) = true) as Hexpw
    by (by rewrite Hew).
  assert (d' <= Poll.turn_clock due - s')%Q as Hdue' by (by rewrite Ed, Es).
  rewrite <- Hsw in Hs'. rewrite <- Htw in Hd'.
  unfold Poll.run_turn.
  destruct (due_exposure_turn (Poll.turn_coords due) (Poll.turn_slewing due)
              (Poll.turn_temp due) (Poll.turn_clock due) s' d' waiting
              Hquiet Hexpw Hs' Hd' Hdue') as (m3 & Hsteady & ->).
  destruct Hsteady as (Hc & He & _ & _ & Hsnd & _).
  assert (truthy (Monitor.exposing (Poll.current m3)) = true) as Hexp3
    by (by rewrite He).
  destruct (exposure_end_effect m3
              (Hsnd (Hsndw (update_state_sound updates m0 Hsound0))) Hexp3)
    as (Hoff & Hcount & _).
  rewrite Hoff, Hcount, Hc, Hcw, Hsame. by repeat split.
Qed.

Lemma exposure_runs_to_one_completion_witness :
  let m := Monitor.new_monitor
             {| respond := fun _ _ => Return (VBool true); history := [] |} in
  let r := Monitor.start_exposure (VFloat 2) (VInt 1) 100 m in
  let quiet now :=
    {| Poll.turn_coords := Poll.Got VNone;
       Poll.turn_slewing := Poll.Got (VBool false);
       Poll.turn_temp := Poll.Got VNone; Poll.turn_clock := now |} in
  let failed now :=
    {| Poll.turn_coords := Poll.Failed "timeout";
       Poll.turn_slewing := Poll.Got (VBool false);
       Poll.turn_temp := Poll.Got VNone; Poll.turn_clock := now |} in
  let waiting :=
    Poll.run_turns [quiet (201 # 2); quiet 101%Q; failed 103%Q] (snd r) in
  let m' := Poll.run_turn waiting (quiet 104%Q) in
  fst r = Return true
  /\ truthy (Monitor.exposing (Poll.current (snd r))) = true
  /\ Poll.completions (Monitor.event_queue (snd r))
     = Poll.completions (Monitor.event_queue m)
  /\ truthy (Monitor.exposing (Poll.current waiting)) = true
  /\ Poll.completions (Monitor.event_queue waiting)
     = Poll.completions (Monitor.event_queue m)
  /\ Monitor.exposing (Poll.current m') = VBool false
  /\ Poll.completions (Monitor.event_queue m')
     = S (Poll.completions (Monitor.event_queue m)).
Proof.
  apply (exposure_runs_to_one_completion (VFloat 2) (VInt 1) (VBool true)
           2 100
           [ {| Poll.turn_coords := Poll.Got VNone;
                Poll.turn_slewing := Poll.Got (VBool false);
                Poll.turn_temp := Poll.Got VNone;
                Poll.turn_clock := 201 # 2 |};
             {| Poll.turn_coords := Poll.Got VNone;
                Poll.turn_slewing := Poll.Got (VBool false);
                Poll.turn_temp := Poll.Got VNone;
                Poll.turn_clock := 101 |};
             {| Poll.turn_coords := Poll.Failed "timeout";
                Poll.turn_slewing := Poll.Got (VBool false);
                Poll.turn_temp := Poll.Got VNone;
                Poll.turn_clock := 103 |} ]
           {| Poll.turn_coords := Poll.Got VNone;
              Poll.turn_slewing := Poll.Got (VBool false);
              Poll.turn_temp := Poll.Got VNone;
              Poll.turn_clock := 104 |}
           (Monitor.new_monitor
              {| respond := fun _ _ => Return (VBool true); history := [] |})).
  - by exists Monitor.default_state.
  - reflexivity.
  - reflexivity.
  - reflexivity.
  - simpl. split; [left; reflexivity|].
    split; [left; reflexivity|].
    split; [right; vm_compute; discriminate|exact I].
  - reflexivity.
  - vm_compute. discriminate.
Defined.
